(** * Parallel ZIP archiver: ordered packing and bounded unpacking

    A shallow embedding of [archiver.ZipParallelAll], [archiver.UnzipParallelAll]
    and [archiver.ensureInside], together with the part of Go's [path/filepath]
    (Unix flavour) that they call. *)

From Stdlib Require Import ZArith Ascii String List Lia Permutation.
From stdpp Require Import base option list strings gmap sorting.

Local Open Scope Z_scope.
Local Open Scope string_scope.
Local Open Scope list_scope.

(** Go's [error] values are carried by their message; [None] is [nil]. *)
Definition error : Type := string.

(* ===================================================================== *)
(** * Strings and [path/filepath] on Unix                                *)
(* ===================================================================== *)

Module Filepath.

Definition chars (s : string) : list ascii := list_ascii_of_string s.
Definition str (l : list ascii) : string := string_of_list_ascii l.

(** [os.PathSeparator] *)
Definition Separator : ascii := "/"%char.
Definition PathSeparator : string := String Separator EmptyString.

Definition isSep (c : ascii) : bool := bool_decide (c = Separator).
Definition isDot (c : ascii) : bool := bool_decide (c = "."%char).

(** [strings.HasPrefix s prefix] *)
Fixpoint HasPrefix (s prefix : string) : bool :=
  match prefix, s with
  | EmptyString, _ => true
  | String _ _, EmptyString => false
  | String p prefix', String c s' =>
      if bool_decide (c = p) then HasPrefix s' prefix' else false
  end.

(** [strings.ReplaceAll s old new] for a one-byte [old]. *)
Fixpoint ReplaceAll (s : string) (old : ascii) (new : string) : string :=
  match s with
  | EmptyString => EmptyString
  | String c s' =>
      if bool_decide (c = old) then new +:+ ReplaceAll s' old new
      else String c (ReplaceAll s' old new)
  end.

(** The end of the element at the head of [l]: true when [l] is empty or
    starts with a separator ([r+1 == n || os.IsPathSeparator(path[r+1])]). *)
Definition atElemEnd (l : list ascii) : bool :=
  match l with
  | [] => true
  | c :: _ => isSep c
  end.

(** The backtracking of [Clean] on a [..] element:
    [out.w--; for out.w > dotdot && !isSep(out.index(out.w)) { out.w-- }].
    [w] counts down from its first decrement. *)
Fixpoint backtrack_go (out : list ascii) (dotdot : nat) (w : nat) : nat :=
  match w with
  | O => O
  | S w' =>
      if bool_decide (dotdot < S w')%nat && negb (isSep (nth (S w') out Separator))
      then backtrack_go out dotdot w'
      else S w'
  end.

Definition backtrack (out : list ascii) (dotdot : nat) : list ascii :=
  take (backtrack_go out dotdot (length out - 1)) out.

(** The main loop of [filepath.Clean].  [rest] is [path[r:]], [out] the
    buffer written so far ([out.w] is its length); [inElem] is set while
    the default case copies a real path element up to the next separator. *)
Fixpoint clean_loop (rooted inElem : bool) (rest : list ascii)
    (dotdot : nat) (out : list ascii) : list ascii :=
  match rest with
  | [] => out
  | c :: rest' =>
      if inElem then
        if isSep c then clean_loop rooted false rest' dotdot out
        else clean_loop rooted true rest' dotdot (out ++ [c])
      else if isSep c then
        (* empty path element *)
        clean_loop rooted false rest' dotdot out
      else if isDot c && atElemEnd rest' then
        (* . element *)
        clean_loop rooted false rest' dotdot out
      else
        let real :=
          let out1 :=
            if (rooted && negb (bool_decide (length out = 1%nat)))
               || (negb rooted && negb (bool_decide (length out = 0%nat)))
            then out ++ [Separator] else out in
          clean_loop rooted true rest' dotdot (out1 ++ [c]) in
        match rest' with
        | d :: rest'' =>
            if isDot c && isDot d && atElemEnd rest'' then
              (* .. element: remove to last separator *)
              if bool_decide (dotdot < length out)%nat then
                (* can backtrack *)
                clean_loop rooted false rest'' dotdot (backtrack out dotdot)
              else if negb rooted then
                (* cannot backtrack, but not rooted, so append .. element *)
                let out1 :=
                  if bool_decide (0 < length out)%nat then out ++ [Separator] else out in
                let out2 := out1 ++ ["."%char; "."%char] in
                clean_loop rooted false rest'' (length out2) out2
              else clean_loop rooted false rest'' dotdot out
            else real
        | [] => real
        end
  end.

(** [filepath.Clean] *)
Definition Clean (path : string) : string :=
  match chars path with
  | [] => "."
  | (c :: _) as l =>
      let rooted := isSep c in
      let out :=
        if rooted then clean_loop true false (tail l) 1 [Separator]
        else clean_loop false false l 0 [] in
      (* Turn empty string into "." *)
      match out with
      | [] => "."
      | _ => str out
      end
  end.

(** [strings.Join elem "/"] for two elements followed by [Clean]:
    [filepath.Join a b] skips leading empty elements. *)
Definition Join (a b : string) : string :=
  if bool_decide (a = "") then
    if bool_decide (b = "") then "" else Clean b
  else Clean (a +:+ PathSeparator +:+ b).

(** [for len(path) > 0 && isSep(path[len(path)-1]) { path = path[:len(path)-1] }]
    on the reversed path. *)
Fixpoint dropSeps (rev_path : list ascii) : list ascii :=
  match rev_path with
  | c :: l => if isSep c then dropSeps l else rev_path
  | [] => []
  end.

(** The last element, read off the reversed path up to the first separator. *)
Fixpoint lastElem (rev_path : list ascii) : list ascii :=
  match rev_path with
  | c :: l => if isSep c then [] else c :: lastElem l
  | [] => []
  end.

(** The reversed path without its last element: everything from the last
    separator back ([path[:i+1]]). *)
Fixpoint dropLastElem (rev_path : list ascii) : list ascii :=
  match rev_path with
  | c :: l => if isSep c then rev_path else dropLastElem l
  | [] => []
  end.

(** [filepath.Base] *)
Definition Base (path : string) : string :=
  if bool_decide (path = "") then "."
  else
    let p := dropSeps (rev (chars path)) in
    match rev (lastElem p) with
    | [] => PathSeparator
    | e => str e
    end.

(** [filepath.Dir] *)
Definition Dir (path : string) : string :=
  Clean (str (rev (dropLastElem (rev (chars path))))).

(** ** [filepath.Rel] *)

Definition byteAt (s : string) (i : nat) : ascii :=
  match String.get i s with Some c => c | None => "000"%char end.

Definition slice (s : string) (lo hi : nat) : string :=
  String.substring lo (hi - lo) s.

(** [for i < l && s[i] != Separator { i++ }] *)
Fixpoint scanElem (fuel : nat) (s : string) (l i : nat) : nat :=
  match fuel with
  | O => i
  | S fuel' =>
      if bool_decide (i < l)%nat && negb (isSep (byteAt s i))
      then scanElem fuel' s l (S i) else i
  end.

(** Position [base[b0:bi]] and [targ[t0:ti]] at the first differing elements. *)
Fixpoint relLoop (fuel : nat) (base targ : string) (b0 bi t0 ti : nat)
    : nat * nat * nat * nat :=
  let bl := String.length base in
  let tl := String.length targ in
  match fuel with
  | O => (b0, bi, t0, ti)
  | S fuel' =>
      if bool_decide (bi < bl)%nat && bool_decide (ti < tl)%nat then
        let bi1 := scanElem bl base bl bi in
        let ti1 := scanElem tl targ tl ti in
        if negb (bool_decide (slice targ t0 ti1 = slice base b0 bi1)) then
          (b0, bi1, t0, ti1)
        else
          let bi2 := if bool_decide (bi1 < bl)%nat then S bi1 else bi1 in
          let ti2 := if bool_decide (ti1 < tl)%nat then S ti1 else ti1 in
          relLoop fuel' base targ bi2 bi2 ti2 ti2
      else (b0, bi, t0, ti)
  end.

(** [strings.Count s "/"] *)
Fixpoint countSep (s : string) : nat :=
  match s with
  | EmptyString => O
  | String c s' => if isSep c then S (countSep s') else countSep s'
  end.

Fixpoint dotdots (seps : nat) : string :=
  match seps with
  | O => ""
  | S k => PathSeparator +:+ ".." +:+ dotdots k
  end.

(** [filepath.Rel basepath targpath]: the relative path and the error. *)
Definition Rel (basepath targpath : string) : string * option error :=
  let base := Clean basepath in
  let targ := Clean targpath in
  if bool_decide (targ = base) then (".", None)
  else
    let base := if bool_decide (base = ".") then "" else base in
    (* a target that cleans to [.] has no element to go down into *)
    let targ := if bool_decide (targ = ".") then "" else targ in
    let baseSlashed := isSep (byteAt base 0) && bool_decide (0 < String.length base)%nat in
    let targSlashed := isSep (byteAt targ 0) && bool_decide (0 < String.length targ)%nat in
    let cant :=
      ("", Some ("Rel: can't make " +:+ targpath +:+ " relative to " +:+ basepath)) in
    if negb (bool_decide (baseSlashed = targSlashed)) then cant
    else
      let bl := String.length base in
      let tl := String.length targ in
      let '(b0, bi, t0, ti) := relLoop (S bl) base targ 0 0 0 0 in
      (* the element of the base at the first difference, or the next one
         when the target is used up: going up from [..] needs its name *)
      let bi := scanElem bl base bl bi in
      if bool_decide (slice base b0 bi = "..") then cant
      else if negb (bool_decide (b0 = bl)) then
        (* Base elements left. Must go up before going down. *)
        let seps := countSep (slice base b0 bl) in
        let up := ".." +:+ dotdots seps in
        if negb (bool_decide (t0 = tl))
        then (up +:+ PathSeparator +:+ slice targ t0 tl, None)
        else (up, None)
      else (slice targ t0 tl, None).

End Filepath.

Import Filepath.

(* ===================================================================== *)
(** * The data of [io/fs] and [archive/zip] used by the archiver         *)
(* ===================================================================== *)

(** [fs.FileMode]: a 32-bit word, [ModeDir] its top bit, [ModePerm] the
    nine permission bits. *)
Definition FileMode : Type := Z.
Definition ModeDir : FileMode := Z.shiftl 1 31.
(** [0o777] and [0o755] *)
Definition ModePerm : FileMode := 0x1FF.
Definition perm_0o755 : FileMode := 0x1ED.
Definition mode_IsDir (m : FileMode) : bool := negb (Z.eqb (Z.land m ModeDir) 0).
Definition mode_Perm (m : FileMode) : FileMode := Z.land m ModePerm.

(** [fs.FileInfo] as returned by [os.Stat]. *)
Record FileInfo : Type := mkFileInfo {
  fi_Name : string;
  fi_Size : Z;
  fi_Mode : FileMode;
  fi_ModTime : Z
}.
Definition fi_IsDir (fi : FileInfo) : bool := mode_IsDir (fi_Mode fi).

(** [zip.Store] and [zip.Deflate] *)
Definition Store : Z := 0.
Definition Deflate : Z := 8.

(** [zip.FileHeader], with the fields the archiver reads or writes. *)
Record FileHeader : Type := mkFileHeader {
  Name : string;
  Method : Z;
  Modified : Z;
  hMode : FileMode;
  UncompressedSize64 : Z
}.

Definition set_Name (h : FileHeader) (n : string) : FileHeader :=
  mkFileHeader n (Method h) (Modified h) (hMode h) (UncompressedSize64 h).
Definition set_Method (h : FileHeader) (m : Z) : FileHeader :=
  mkFileHeader (Name h) m (Modified h) (hMode h) (UncompressedSize64 h).
Definition set_Modified (h : FileHeader) (t : Z) : FileHeader :=
  mkFileHeader (Name h) (Method h) t (hMode h) (UncompressedSize64 h).
(** [FileHeader.SetMode] *)
Definition SetMode (h : FileHeader) (m : FileMode) : FileHeader :=
  mkFileHeader (Name h) (Method h) (Modified h) m (UncompressedSize64 h).

(** The size that the writer of the archive records for an entry. *)
Definition set_Size (h : FileHeader) (n : Z) : FileHeader :=
  mkFileHeader (Name h) (Method h) (Modified h) (hMode h) n.

(** [zip.FileInfoHeader]: the header partially filled from a [FileInfo]. *)
Definition FileInfoHeader (fi : FileInfo) : FileHeader * option error :=
  (mkFileHeader (fi_Name fi) Store (fi_ModTime fi) (fi_Mode fi) (fi_Size fi), None).

(** The container under construction ([zip.Writer] over the output file):
    the entries created so far, each with the bytes streamed into it.  The
    header of an entry is the one handed to [CreateHeader], except for its
    size: the writer counts the bytes streamed into the entry and stores
    that count in [UncompressedSize64] of the header it was handed, in
    place of the value found there. *)
Definition zipWriter : Type := list (FileHeader * list Byte.byte).

(** An open source file: the bytes a full read delivers and the error, if
    any, that ends the read. *)
Definition srcFile : Type := (list Byte.byte * option error)%type.

(** [io.Copy w f] into the entry being written. *)
Definition io_Copy (w : list Byte.byte) (f : srcFile) : list Byte.byte * option error :=
  (w ++ fst f, snd f).

(** [fs.ErrExist] and [errors.Is err fs.ErrExist] *)
Definition ErrExist : error := "file already exists".
Definition errors_Is (e target : error) : bool := bool_decide (e = target).

(** [err != nil && !errors.Is(err, fs.ErrExist)]: the error that is returned. *)
Definition not_ErrExist (r : option error) : option error :=
  match r with
  | Some e => if negb (errors_Is e ErrExist) then Some e else None
  | None => None
  end.

(* ===================================================================== *)
(** * Packing: [ZipParallelAll]                                          *)
(* ===================================================================== *)

Module Pack.

(** The operating system and the clock as [ZipParallelAll] sees them. *)
Record Env : Type := mkEnv {
  (** [os.Stat] *)
  os_Stat : string -> FileInfo + error;
  (** [os.MkdirAll path perm] *)
  os_MkdirAll : string -> FileMode -> option error;
  (** [filepath.WalkDir root fn] with the collecting callback: the paths
      handed to the callback without error, and what [WalkDir] returns. *)
  WalkDir : string -> list string * option error;
  (** [os.Create] of the archive file *)
  os_Create : string -> option error;
  (** [os.Open] of a source file *)
  os_Open : string -> srcFile + error;
  (** [time.Now()] as read while the entry of a path is prepared *)
  time_Now : string -> Z;
  (** failure of [zip.Writer.CreateHeader] *)
  CreateHeader_err : zipWriter -> FileHeader -> option error;
  (** [zw.Close()] and [out.Close()] *)
  zw_Close : option error;
  out_Close : option error
}.

(** [type result struct { idx int; hdr *zip.FileHeader;
                          write func(w io.Writer) error; err error }] *)
Record result : Type := mkResult {
  idx : Z;
  hdr : option FileHeader;
  write : option (list Byte.byte -> list Byte.byte * option error);
  err : option error
}.

Fixpoint indexOf_from (i : Z) (arr : list string) (x : string) : Z :=
  match arr with
  | [] => -1
  | v :: arr' => if bool_decide (v = x) then i else indexOf_from (i + 1) arr' x
  end.

Definition indexOf (arr : list string) (x : string) : Z := indexOf_from 0 arr x.

Definition toZipPath (p : string) : string := ReplaceAll p Separator "/".

Definition relInside (srcRoot base full : string) : string :=
  if bool_decide (base = "") then (* one file *) Base full
  else if bool_decide (full = srcRoot) then base
  else fst (Rel (Dir srcRoot) full).

(** [zw.CreateHeader hdr]: a new entry is opened at the end of the
    container; no byte has been streamed into it yet. *)
Definition CreateHeader (env : Env) (zw : zipWriter) (h : FileHeader)
    : zipWriter * option error :=
  match CreateHeader_err env zw h with
  | Some e => (zw, Some e)
  | None => (zw ++ [(set_Size h 0, [])], None)
  end.

(** Writing through the [io.Writer] returned by [CreateHeader]: the bytes
    go to the last entry, and its size is the number of bytes it holds,
    also when the writing stops on an error. *)
Definition write_last (zw : zipWriter)
    (f : list Byte.byte -> list Byte.byte * option error) : zipWriter * option error :=
  match reverse zw with
  | (h, w) :: before =>
      let '(w', e) := f w in
      (reverse before ++ [(set_Size h (Z.of_nat (length w')), w')], e)
  | [] => (zw, Some "no entry")
  end.

Definition writeOne (env : Env) (zw : zipWriter) (r : result) : zipWriter * option error :=
  match hdr r, write r with
  | None, None => (zw, None) (* root dir, nothing is written *)
  | Some h, None => CreateHeader env zw h
  | Some h, Some wr =>
      match CreateHeader env zw h with
      | (zw', Some e) => (zw', Some e)
      | (zw', None) => write_last zw' wr
      end
  | None, Some _ =>
      (* [zw.CreateHeader(nil)]: no worker builds such a result *)
      (zw, Some "nil header")
  end.

(** The closure [writeFn] built by a worker for the file [p]. *)
Definition writeFn (env : Env) (p : string)
    (w : list Byte.byte) : list Byte.byte * option error :=
  match os_Open env p with
  | inr openErr => (w, Some openErr)
  | inl f => io_Copy w f
  end.

(** The body of a worker's loop for one job [p]: the value sent on [resCh]. *)
Definition prepare (env : Env) (src baseDir : string) (paths : list string)
    (p : string) : result :=
  let idx := indexOf paths p in
  let rel := relInside src baseDir p in
  match os_Stat env p with
  | inr e => mkResult idx None None (Some e)
  | inl st =>
      if fi_IsDir st then
        if negb (bool_decide (rel = "")) then
          let h := mkFileHeader (toZipPath rel +:+ "/") Store (time_Now env p) 0 0 in
          mkResult idx (Some h) None None
        else mkResult idx None None None (* root of the directory *)
      else
        match FileInfoHeader st with
        | (_, Some e) => mkResult idx None None (Some e)
        | (hdr, None) =>
            let hdr := set_Name hdr (toZipPath rel) in
            let hdr := set_Method hdr Deflate in
            let hdr := set_Modified hdr (time_Now env p) in
            let hdr := SetMode hdr (mode_Perm (fi_Mode st)) in
            mkResult idx (Some hdr) (Some (writeFn env p)) None
        end
  end.

(** The state of the sequential writing loop. *)
Record wstate : Type := mkW {
  next : Z;
  pending : gmap Z result;
  zw : zipWriter
}.

(** What the loop does with the result whose turn has come:
    [if r.err != nil { return r.err }; if err := writeOne(r); err != nil { return err }]. *)
Definition commit (env : Env) (zw : zipWriter) (r : result) : zipWriter * option error :=
  match err r with
  | Some e => (zw, Some e)
  | None => writeOne env zw r
  end.

(** [for { r2, ok2 := pending[next]; if !ok2 { break }; ...;
          delete(pending, next); next++ }].
    Every iteration removes a key of [pending], so [size pending]
    iterations are all the loop can make. *)
Fixpoint drain_go (env : Env) (fuel : nat) (st : wstate) : wstate * option error :=
  match fuel with
  | O => (st, None)
  | S fuel' =>
      match pending st !! next st with
      | None => (st, None)
      | Some r2 =>
          match commit env (zw st) r2 with
          | (zw', Some e) => (mkW (next st) (pending st) zw', Some e)
          | (zw', None) =>
              drain_go env fuel' (mkW (next st + 1) (delete (next st) (pending st)) zw')
          end
      end
  end.

Definition drain (env : Env) (st : wstate) : wstate * option error :=
  drain_go env (size (pending st)) st.

(** The writing loop, by recursion on the values still to be received from
    [resCh]; the empty list is the closed channel.  The test at the head of
    the Go loop, with its [continue], is the same draining loop. *)
Fixpoint writer_loop (env : Env) (arrival : list result) (st : wstate)
    : wstate * option error :=
  match drain env st with
  | (st1, Some e) => (st1, Some e)
  | (st1, None) =>
      match arrival with
      | [] => drain env st1
      | r :: arrival' =>
          if bool_decide (idx r = next st1) then
            match commit env (zw st1) r with
            | (zw', Some e) => (mkW (next st1) (pending st1) zw', Some e)
            | (zw', None) =>
                match drain env (mkW (next st1 + 1) (pending st1) zw') with
                | (st2, Some e) => (st2, Some e)
                | (st2, None) => writer_loop env arrival' st2
                end
            end
          else
            writer_loop env arrival'
              (mkW (next st1) (<[idx r := r]> (pending st1)) (zw st1))
      end
  end.

(** [sort.Strings] *)
Definition sort_Strings (l : list string) : list string := merge_sort String.le l.

(** The jobs of the worker pool, in the order they are fed: one prepared
    result per collected path. *)
Definition prepare_all (env : Env) (src : string) (info : FileInfo)
    (paths : list string) : list result :=
  (* baseDir: the name of the root inside the archive, for a directory *)
  let baseDir := if fi_IsDir info then Base src else "" in
  prepare env src baseDir paths <$> paths.

(** The end of [ZipParallelAll]: an error of the loop is returned as it is,
    otherwise the container and the file are closed. *)
Definition finalize (env : Env) (x : zipWriter * option error)
    : option zipWriter * option error :=
  match x with
  | (z, Some e) => (Some z, Some e)
  | (z, None) =>
      match zw_Close env with
      | Some e => (Some z, Some e)
      | None => (Some z, out_Close env)
      end
  end.

(** [ZipParallelAll src zipPath].  [deliver] is the order in which the
    worker pool hands the prepared results to the writer.  The outcome is
    the archive file (absent if it was never created) and the error. *)
Definition ZipParallelAll (env : Env) (deliver : list result -> list result)
    (src zipPath : string) : option zipWriter * option error :=
  let src := Clean src in
  match os_Stat env src with
  | inr e => (None, Some e)
  | inl info =>
      match not_ErrExist (os_MkdirAll env (Dir zipPath) perm_0o755) with
      | Some e => (None, Some e)
      | None =>
          (* collecting the paths (deterministic order for stable archives) *)
          match WalkDir env src with
          | (_, Some e) => (None, Some e)
          | (walked, None) =>
              let paths := sort_Strings walked in
              match os_Create env zipPath with
              | Some e => (None, Some e)
              | None =>
                  let results := prepare_all env src info paths in
                  let '(st, e) := writer_loop env (deliver results) (mkW 0 ∅ []) in
                  finalize env (zw st, e)
              end
          end
      end
  end.

(** ** Definitions the statements about the packer refer to *)

(** The reference the writer is compared with: the results are committed
    one after the other in the order of the list, up to the first one that
    carries an error or fails to be written. *)
Fixpoint commit_in_order (env : Env) (rs : list result) (zw : zipWriter)
    : zipWriter * option error :=
  match rs with
  | [] => (zw, None)
  | r :: rs' =>
      match commit env zw r with
      | (zw', Some e) => (zw', Some e)
      | (zw', None) => commit_in_order env rs' zw'
      end
  end.

(** Writing the results one after the other, with no regard to the errors
    they carry. *)
Fixpoint write_in_order (env : Env) (rs : list result) (zw : zipWriter)
    : zipWriter * option error :=
  match rs with
  | [] => (zw, None)
  | r :: rs' =>
      match writeOne env zw r with
      | (zw', Some e) => (zw', Some e)
      | (zw', None) => write_in_order env rs' zw'
      end
  end.

(** [ZipParallelAll] with the writing loop replaced by the in-order commit. *)
Definition pack_in_order (env : Env) (src zipPath : string)
    : option zipWriter * option error :=
  let src := Clean src in
  match os_Stat env src with
  | inr e => (None, Some e)
  | inl info =>
      match not_ErrExist (os_MkdirAll env (Dir zipPath) perm_0o755) with
      | Some e => (None, Some e)
      | None =>
          match WalkDir env src with
          | (_, Some e) => (None, Some e)
          | (walked, None) =>
              match os_Create env zipPath with
              | Some e => (None, Some e)
              | None =>
                  finalize env
                    (commit_in_order env
                       (prepare_all env src info (sort_Strings walked)) [])
              end
          end
      end
  end.

(** The calls of a run of [ZipParallelAll src zipPath] that hand the error
    [e] to it: the [os.Stat] of the source, the creation of the directory
    and of the file of the archive, the walk, then for a collected path its
    [os.Stat], the opening and the reading of the file or the
    [CreateHeader] of its header on the container [z] that the run leaves
    behind, and the two closings. *)
Definition call_error (env : Env) (src zipPath : string)
    (archive : option zipWriter) (e : error) : Prop :=
  os_Stat env (Clean src) = inr e
  \/ (os_MkdirAll env (Dir zipPath) perm_0o755 = Some e /\ errors_Is e ErrExist = false)
  \/ (WalkDir env (Clean src)).2 = Some e
  \/ os_Create env zipPath = Some e
  \/ (exists p, p ∈ (WalkDir env (Clean src)).1
        /\ (os_Stat env p = inr e
            \/ os_Open env p = inr e
            \/ (exists f, os_Open env p = inl f /\ f.2 = Some e)
            \/ (exists info z h,
                  os_Stat env (Clean src) = inl info
                  /\ hdr (prepare env (Clean src)
                            (if fi_IsDir info then Base (Clean src) else "")
                            (sort_Strings (WalkDir env (Clean src)).1) p) = Some h
                  /\ archive = Some z
                  /\ CreateHeader_err env z h = Some e)))
  \/ zw_Close env = Some e
  \/ out_Close env = Some e.

(** The header of a result as the archive holds it: the one prepared,
    with the number of bytes its content function delivers as size. *)
Definition written_hdr (r : result) : option FileHeader :=
  match hdr r with
  | Some h =>
      Some (set_Size h match write r with
                       | Some wr => Z.of_nat (length (wr []).1)
                       | None => 0
                       end)
  | None => None
  end.

(** The entry, if any, that a successfully written result adds. *)
Definition entry_of (r : result) : list (FileHeader * list Byte.byte) :=
  match written_hdr r with
  | Some h => [(h, match write r with Some wr => (wr []).1 | None => [] end)]
  | None => []
  end.

(** The same environment read at other clock values. *)
Definition with_clock (env : Env) (now : string -> Z) : Env :=
  mkEnv (os_Stat env) (os_MkdirAll env) (WalkDir env) (os_Create env) (os_Open env)
        now (CreateHeader_err env) (zw_Close env) (out_Close env).

(** An entry without its modification time. *)
Definition erase_Modified (x : FileHeader * list Byte.byte) : FileHeader * list Byte.byte :=
  (set_Modified x.1 0, x.2).

End Pack.

(* ===================================================================== *)
(** * A source tree held in a table, for running the packer              *)
(* ===================================================================== *)

Module SimFS.
Import Pack.

Inductive node : Type :=
| RegFile (perm : FileMode) (mtime : Z) (data : list Byte.byte)
| Directory (perm : FileMode) (mtime : Z)
| Dangling. (* a symbolic link whose target is missing *)

(** A snapshot of a file system: cleaned path and what is stored there. *)
Definition table : Type := list (string * node).

Fixpoint find (tab : table) (p : string) : option node :=
  match tab with
  | [] => None
  | (q, n) :: tab' => if bool_decide (q = p) then Some n else find tab' p
  end.

Definition info_of (p : string) (n : node) : FileInfo :=
  match n with
  | RegFile perm mtime data => mkFileInfo (Base p) (Z.of_nat (length data)) perm mtime
  | Directory perm mtime => mkFileInfo (Base p) 0 (Z.lor ModeDir perm) mtime
  | Dangling => mkFileInfo (Base p) 0 0 0
  end.

(** [os.Stat] follows links, so a dangling link cannot be stat'ed. *)
Definition stat (tab : table) (p : string) : FileInfo + error :=
  match find tab p with
  | Some Dangling | None => inr ("stat " +:+ p +:+ ": no such file or directory")
  | Some n => inl (info_of p n)
  end.

Definition under (root p : string) : bool :=
  bool_decide (p = root)
  || HasPrefix p (if bool_decide (root = "/") then root else root +:+ PathSeparator).

Definition walk (tab : table) (root : string) : list string * option error :=
  match find tab root with
  | None => ([], Some ("lstat " +:+ root +:+ ": no such file or directory"))
  | Some (RegFile _ _ _) | Some Dangling => ([root], None)
  | Some (Directory _ _) => (filter (fun p => under root p = true) (map fst tab), None)
  end.

Definition open (tab : table) (p : string) : srcFile + error :=
  match find tab p with
  | Some (RegFile perm _ data) =>
      (* without the owner's read bit the file cannot be opened *)
      if Z.eqb (Z.land perm 0x100) 0 then inr ("open " +:+ p +:+ ": permission denied")
      else inl (data, None)
  | Some (Directory _ _) => inl ([], Some ("read " +:+ p +:+ ": is a directory"))
  | Some Dangling | None => inr ("open " +:+ p +:+ ": no such file or directory")
  end.

(** The environment of a fault-free run over the snapshot [tab] with every
    clock reading equal to [now]. *)
Definition env_of (tab : table) (now : Z) : Env :=
  mkEnv (stat tab) (fun _ _ => None) (walk tab) (fun _ => None) (open tab)
        (fun _ => now) (fun _ _ => None) None None.

Definition tree1 : table :=
  [ ("/srv/t", Directory 0x1ED 10);
    ("/srv/t/d", Directory 0x1C0 11);
    ("/srv/t/d/b", RegFile 0x180 12 [Byte.x62; Byte.x62]);
    ("/srv/t/a", RegFile 0x1A4 13 [Byte.x61]);
    ("/srv/t/d-e", RegFile 0x1A4 14 []) ].

(** An unreadable file ahead of a dangling link. *)
Definition tree2 : table :=
  [ ("/srv/u", Directory 0x1ED 10);
    ("/srv/u/a", RegFile 0 11 [Byte.x61]);
    ("/srv/u/b", Dangling) ].

(** The archive of [tree1] packed at the clock reading 100. *)
Definition archive1 : zipWriter :=
  [ (mkFileHeader "t/" Store 100 0 0, []);
    (mkFileHeader "t/a" Deflate 100 0x1A4 1, [Byte.x61]);
    (mkFileHeader "t/d/" Store 100 0 0, []);
    (mkFileHeader "t/d-e" Deflate 100 0x1A4 0, []);
    (mkFileHeader "t/d/b" Deflate 100 0x180 2, [Byte.x62; Byte.x62]) ].

End SimFS.

(* ===================================================================== *)
(** * Unpacking: [ensureInside] and [UnzipParallelAll]                   *)
(* ===================================================================== *)

Module Unpack.

(** [ensureInside baseDir target]: checks that [target] lies inside
    [baseDir] (zip-slip protection). *)
Definition ensureInside (baseDir target : string) : option error :=
  let cleanBase := Clean baseDir in
  let cleanTarget := Clean target in
  if bool_decide (cleanTarget = cleanBase) then None
  else
    let withSep := cleanBase +:+ PathSeparator in
    if negb (HasPrefix cleanTarget withSep)
    then Some ("zip slip detected: " +:+ target)
    else None.

(** An entry of an opened archive ([zip.File]): its name, what [f.Mode()]
    and [f.Modified] give, and the bytes its stream delivers. *)
Record File : Type := mkFile {
  f_Name : string;
  f_Mode : FileMode;
  f_Modified : Z;
  f_data : list Byte.byte
}.

(** [f.FileInfo().IsDir()] *)
Definition f_IsDir (f : File) : bool := mode_IsDir (f_Mode f).

(** The calls that touch the destination tree or the archive streams. *)
Inductive op : Type :=
| OpMkdirAll (path : string) (perm : FileMode)
| OpOpenEntry (name : string)
| OpOpenFile (path : string) (flag : Z) (perm : FileMode)
| OpCopy (path : string) (data : list Byte.byte)
| OpClose (path : string)
| OpChtimes (path : string) (mtime : Z).

Global Instance byte_eq_dec : EqDecision Byte.byte.
Proof. intros x y. destruct (Byte.eqb x y) eqn:H; [left|right].
  - by apply Byte.byte_dec_bl.
  - intros ->. by rewrite (Byte.byte_dec_lb eq_refl) in H.
Defined.

Global Instance op_eq_dec : EqDecision op.
Proof. solve_decision. Defined.

(** Who makes a call: the function itself for the destination root, or the
    entry at a position of [r.File]. *)
Definition caller : Type := option nat.

(** The world outside: the archive behind a path and the call that fails,
    with its error, for each caller.  [NumCPU] is [runtime.NumCPU()]. *)
Record Env : Type := mkEnv {
  OpenReader : string -> list File + error;
  fails : caller -> op -> option error;
  NumCPU : nat
}.

(** [os.O_CREATE|os.O_WRONLY|os.O_TRUNC] *)
Definition O_CREATE_WRONLY_TRUNC : Z := Z.lor (Z.lor 0x40 0x1) 0x200.

(** ** The sequential pass over the directory entries *)

Fixpoint prepass (env : Env) (destDir : string) (i : nat) (files : list File)
    (tr : list (caller * op)) : list (caller * op) * option error :=
  match files with
  | [] => (tr, None)
  | f :: files' =>
      if f_IsDir f then
        let target := Join destDir (f_Name f) in
        (* zip-slip protection *)
        match ensureInside destDir target with
        | Some e => (tr, Some e)
        | None =>
            let o := OpMkdirAll target perm_0o755 in
            match not_ErrExist (fails env (Some i) o) with
            | Some mkErr => (tr ++ [(Some i, o)], Some mkErr)
            | None => prepass env destDir (S i) files' (tr ++ [(Some i, o)])
            end
        end
      else prepass env destDir (S i) files' tr
  end.

(** ** One restore worker *)

(** Where the goroutine of a file entry stands. *)
Inductive pc : Type :=
| Spawned            (* before [sem <- struct{}{}] *)
| AtGate             (* holds a permit; before [ensureInside] *)
| AtMkdir            (* before [os.MkdirAll(filepath.Dir(target), 0o755)] *)
| AtOpen             (* before [f.Open()] *)
| AtCreate           (* before [os.OpenFile] *)
| AtCopy             (* before [io.Copy] *)
| AtClose            (* before [dst.Close()] *)
| AtChtimes          (* before [os.Chtimes] *)
| AtSetErr (e : error) (* before [setErr(err); return] *)
| Releasing          (* the deferred [<-sem] and [wg.Done()] *)
| Finished.

Section worker.
Context (env : Env) (destDir : string) (i : nat) (f : File).

Definition target : string := Join destDir (f_Name f).

Definition opMkdir : op := OpMkdirAll (Dir target) perm_0o755.
Definition opOpen : op := OpOpenEntry (f_Name f).
Definition opCreate : op := OpOpenFile target O_CREATE_WRONLY_TRUNC (f_Mode f).
Definition opCopy : op := OpCopy target (f_data f).
Definition opClose : op := OpClose target.
Definition opChtimes : op := OpChtimes target (f_Modified f).

Definition or_fail (o : op) (ok : pc) : pc :=
  match fails env (Some i) o with
  | Some e => AtSetErr e
  | None => ok
  end.

(** One statement of the goroutine body between acquiring the permit and
    leaving: the next position and the calls made. *)
Definition wstep (p : pc) : pc * list op :=
  match p with
  | AtGate =>
      match ensureInside destDir target with
      | Some e => (AtSetErr e, [])
      | None => (AtMkdir, [])
      end
  | AtMkdir => (or_fail opMkdir AtOpen, [opMkdir])
  | AtOpen => (or_fail opOpen AtCreate, [opOpen])
  | AtCreate => (or_fail opCreate AtCopy, [opCreate])
  | AtCopy =>
      match fails env (Some i) opCopy with
      | Some e => (AtSetErr e, [opCopy; opClose]) (* [dst.Close()] before [setErr] *)
      | None => (AtClose, [opCopy])
      end
  | AtClose => (or_fail opClose AtChtimes, [opClose])
  | AtChtimes => (Releasing, [opChtimes]) (* the result of [os.Chtimes] is dropped *)
  | _ => (p, [])
  end.

(** The goroutine body read from a position to its end: the calls it makes
    and the error it hands to [setErr]. *)
Definition from_Chtimes : list op * option error := ([opChtimes], None).
Definition from_Close : list op * option error :=
  match fails env (Some i) opClose with
  | Some e => ([opClose], Some e)
  | None => (opClose :: from_Chtimes.1, from_Chtimes.2)
  end.
Definition from_Copy : list op * option error :=
  match fails env (Some i) opCopy with
  | Some e => ([opCopy; opClose], Some e)
  | None => (opCopy :: from_Close.1, from_Close.2)
  end.
Definition from_Create : list op * option error :=
  match fails env (Some i) opCreate with
  | Some e => ([opCreate], Some e)
  | None => (opCreate :: from_Copy.1, from_Copy.2)
  end.
Definition from_Open : list op * option error :=
  match fails env (Some i) opOpen with
  | Some e => ([opOpen], Some e)
  | None => (opOpen :: from_Create.1, from_Create.2)
  end.
Definition from_Mkdir : list op * option error :=
  match fails env (Some i) opMkdir with
  | Some e => ([opMkdir], Some e)
  | None => (opMkdir :: from_Open.1, from_Open.2)
  end.

(** The whole body of a restore worker run on its own. *)
Definition restore : list op * option error :=
  match ensureInside destDir target with
  | Some e => ([], Some e)
  | None => from_Mkdir
  end.

Definition remaining (p : pc) : list op * option error :=
  match p with
  | Spawned | AtGate => restore
  | AtMkdir => from_Mkdir
  | AtOpen => from_Open
  | AtCreate => from_Create
  | AtCopy => from_Copy
  | AtClose => from_Close
  | AtChtimes => from_Chtimes
  | AtSetErr e => ([], Some e)
  | Releasing | Finished => ([], None)
  end.

(** The calls of a restore that meets no failure. *)
Definition restore_calls : list op :=
  [opMkdir; opOpen; opCreate; opCopy; opClose; opChtimes].

End worker.

(** ** The pool of workers *)

(** What the goroutines share: the permits taken from [sem], the one-slot
    channel [errOnce], the position of each worker and the calls made. *)
Record pool : Type := mkPool {
  sem : nat;
  errOnce : option error;
  pcs : list pc;
  ptrace : list (caller * op)
}.

(** [select { case errOnce <- e: default: }] *)
Definition setErr (e : error) (slot : option error) : option error :=
  match slot with
  | None => Some e
  | Some first => Some first
  end.

(** A step of the worker of entry [i]; [None] when it cannot move: it
    waits for a permit, or it has finished. *)
Definition worker_step (env : Env) (destDir : string) (i : nat) (f : File)
    (p : pc) (st : pool) : option (pc * pool) :=
  match p with
  | Spawned =>
      if bool_decide (sem st < NumCPU env)%nat
      then Some (AtGate, mkPool (S (sem st)) (errOnce st) (pcs st) (ptrace st))
      else None
  | AtSetErr e =>
      Some (Releasing, mkPool (sem st) (setErr e (errOnce st)) (pcs st) (ptrace st))
  | Releasing =>
      Some (Finished, mkPool (sem st - 1) (errOnce st) (pcs st) (ptrace st))
  | Finished => None
  | _ =>
      let '(p', ops) := wstep env destDir i f p in
      Some (p', mkPool (sem st) (errOnce st) (pcs st)
                  (ptrace st ++ ((fun o => (Some i, o)) <$> ops)))
  end.

Definition pool_step (env : Env) (destDir : string) (files : list File)
    (i : nat) (st : pool) : option pool :=
  match files !! i, pcs st !! i with
  | Some f, Some p =>
      match worker_step env destDir i f p st with
      | Some (p', st') =>
          Some (mkPool (sem st') (errOnce st') (<[i := p']> (pcs st')) (ptrace st'))
      | None => None
      end
  | _, _ => None
  end.

(** The pool under a schedule: the worker named next moves if it can. *)
Definition run (env : Env) (destDir : string) (files : list File)
    (sched : list nat) (st : pool) : pool :=
  foldl (fun st i => default st (pool_step env destDir files i st)) st sched.

(** One goroutine per file entry; a directory entry has none. *)
Definition spawn (files : list File) : pool :=
  mkPool 0 None ((fun f => if f_IsDir f then Finished else Spawned) <$> files) [].

Definition all_finished (st : pool) : bool :=
  forallb (fun p => match p with Finished => true | _ => false end) (pcs st).

(** What the caller of [UnzipParallelAll] sees. *)
Inductive outcome : Type :=
| Returned (e : option error)
| Waiting. (* [wg.Wait()] has not returned under the schedule *)

(** [UnzipParallelAll zipPath destDir] under a schedule of the workers:
    the calls made, in order, and the outcome. *)
Definition UnzipParallelAll (env : Env) (sched : list nat)
    (zipPath destDir : string) : list (caller * op) * outcome :=
  match OpenReader env zipPath with
  | inr e => ([], Returned (Some e))
  | inl files =>
      let root := (None, OpMkdirAll destDir perm_0o755) in
      match not_ErrExist (fails env None root.2) with
      | Some e => ([root], Returned (Some e))
      | None =>
          match prepass env destDir 0 files [root] with
          | (tr, Some e) => (tr, Returned (Some e))
          | (tr, None) =>
              let st := run env destDir files sched (spawn files) in
              if all_finished st then (tr ++ ptrace st, Returned (errOnce st))
              else (tr ++ ptrace st, Waiting)
          end
      end
  end.

(** ** Definitions the statements about the unpacker refer to *)

(** A worker holds a permit from its send on [sem] to its deferred receive. *)
Definition holding (p : pc) : bool :=
  match p with
  | Spawned | Finished => false
  | _ => true
  end.

Definition weight (p : pc) : nat := if holding p then 1 else 0.

Definition count_holding (l : list pc) : nat := sum_list (weight <$> l).

(** The positions at which a statement of the restore body is due. *)
Definition running (p : pc) : bool :=
  match p with
  | AtGate | AtMkdir | AtOpen | AtCreate | AtCopy | AtClose | AtChtimes => true
  | _ => false
  end.

(** The workers inside the restore steps, from the safety check to the
    setting of the time. *)
Definition count_running (l : list pc) : nat :=
  sum_list ((fun p => if running p then 1 else 0)%nat <$> l).

(** The number of steps a worker still has to make, at most. *)
Definition rank (p : pc) : nat :=
  match p with
  | Spawned => 10
  | AtGate => 9
  | AtMkdir => 8
  | AtOpen => 7
  | AtCreate => 6
  | AtCopy => 5
  | AtClose => 4
  | AtChtimes => 3
  | AtSetErr _ => 2
  | Releasing => 1
  | Finished => 0
  end.

Definition measure (st : pool) : nat := sum_list (rank <$> pcs st).

(** The calls of the entry at position [i] among the calls made. *)
Definition wops (i : nat) (tr : list (caller * op)) : list op :=
  (filter (fun ev => ev.1 = Some i) tr).*2.

Definition tag (i : nat) (ops : list op) : list (caller * op) :=
  (fun o => (Some i, o)) <$> ops.

Definition rootCall (destDir : string) : caller * op :=
  (None, OpMkdirAll destDir perm_0o755).

(** The directory creations of the sequential pass over the entries
    [files], the first of which is at position [i] of the archive. *)
Fixpoint dir_calls (destDir : string) (i : nat) (files : list File)
    : list (caller * op) :=
  match files with
  | [] => []
  | f :: files' =>
      (if f_IsDir f
       then [(Some i, OpMkdirAll (Join destDir (f_Name f)) perm_0o755)] else [])
      ++ dir_calls destDir (S i) files'
  end.

(** The elements of an entry name between its separators. *)
Fixpoint segments_go (cur : list ascii) (l : list ascii) : list string :=
  match l with
  | [] => [str cur]
  | c :: l' =>
      if isSep c then str cur :: segments_go [] l'
      else segments_go (cur ++ [c]) l'
  end.

Definition segments (name : string) : list string := segments_go [] (chars name).

End Unpack.

(* ===================================================================== *)
(** * Archives held in a list, for running the unpacker                  *)
(* ===================================================================== *)

Module SimZip.
Import Unpack.

(** An environment with the archive [files] behind every path, [cpus]
    processors, and the listed calls failing. *)
Definition env_of (files : list File) (cpus : nat)
    (faults : list (caller * op * error)) : Env :=
  mkEnv (fun _ => inl files)
        (fun c o =>
           match List.find (fun x => bool_decide (x.1 = (c, o))) faults with
           | Some x => Some x.2
           | None => None
           end)
        cpus.

(** Every worker in turn, round after round. *)
Definition round_robin (n rounds : nat) : list nat :=
  concat (replicate rounds (seq 0 n)).

Definition dirEntry (name : string) : File := mkFile name (Z.lor ModeDir 0x1ED) 7 [].
Definition fileEntry (name : string) (perm : FileMode) (data : list Byte.byte) : File :=
  mkFile name perm 9 data.

Definition arch1 : list File :=
  [ dirEntry "t/"; fileEntry "t/a" 0x1A4 [Byte.x61]; fileEntry "t/d/b" 0x180 [Byte.x62] ].

Definition arch_slip : list File :=
  [ fileEntry "ok.txt" 0x1A4 [Byte.x61]; fileEntry "../evil" 0x1A4 [Byte.x62] ].

(** The one entry [../evil]. *)
Definition arch_evil : list File :=
  [ fileEntry "../evil" 0x1A4 [Byte.x62] ].

Definition arch_dotdot_inside : list File :=
  [ fileEntry "a/../b" 0x1A4 [Byte.x61] ].

Definition arch_slip_dir : list File :=
  [ dirEntry "../evil/"; fileEntry "a.txt" 0x1A4 [Byte.x61] ].

(** The calls of unpacking [arch_slip] into [out]. *)
Definition trace_slip : list (caller * op) :=
  [ (None, OpMkdirAll "out" 0x1ED);
    (Some 0%nat, OpMkdirAll "out" 0x1ED);
    (Some 0%nat, OpOpenEntry "ok.txt");
    (Some 0%nat, OpOpenFile "out/ok.txt" 0x241 0x1A4);
    (Some 0%nat, OpCopy "out/ok.txt" [Byte.x61]);
    (Some 0%nat, OpClose "out/ok.txt");
    (Some 0%nat, OpChtimes "out/ok.txt" 9) ].

(** [arch1] on two processors, with the destination file of its last
    entry impossible to create. *)
Definition env_denied : Env :=
  env_of arch1 2
    [ (Some 2%nat, OpOpenFile "out/t/d/b" 0x241 0x180,
       "open out/t/d/b: permission denied") ].

(** The calls of [env_denied] under the round-robin schedule. *)
Definition trace_denied : list (caller * op) :=
  [ (None, OpMkdirAll "out" 0x1ED); (Some 0%nat, OpMkdirAll "out/t" 0x1ED);
    (Some 1%nat, OpMkdirAll "out/t" 0x1ED);
    (Some 2%nat, OpMkdirAll "out/t/d" 0x1ED);
    (Some 1%nat, OpOpenEntry "t/a"); (Some 2%nat, OpOpenEntry "t/d/b");
    (Some 1%nat, OpOpenFile "out/t/a" 0x241 0x1A4);
    (Some 2%nat, OpOpenFile "out/t/d/b" 0x241 0x180);
    (Some 1%nat, OpCopy "out/t/a" [Byte.x61]);
    (Some 1%nat, OpClose "out/t/a"); (Some 1%nat, OpChtimes "out/t/a" 9) ].

(** [arch1] on two processors when the time of neither file can be set. *)
Definition env_times : Env :=
  env_of arch1 2
    [ (Some 1%nat, OpChtimes "out/t/a" 9, "chtimes out/t/a: operation not permitted");
      (Some 2%nat, OpChtimes "out/t/d/b" 9,
       "chtimes out/t/d/b: operation not permitted") ].

(** The calls of a full unpacking of [arch1] under the round-robin schedule. *)
Definition trace_times : list (caller * op) :=
  [ (None, OpMkdirAll "out" 0x1ED); (Some 0%nat, OpMkdirAll "out/t" 0x1ED);
    (Some 1%nat, OpMkdirAll "out/t" 0x1ED);
    (Some 2%nat, OpMkdirAll "out/t/d" 0x1ED);
    (Some 1%nat, OpOpenEntry "t/a"); (Some 2%nat, OpOpenEntry "t/d/b");
    (Some 1%nat, OpOpenFile "out/t/a" 0x241 0x1A4);
    (Some 2%nat, OpOpenFile "out/t/d/b" 0x241 0x180);
    (Some 1%nat, OpCopy "out/t/a" [Byte.x61]);
    (Some 2%nat, OpCopy "out/t/d/b" [Byte.x62]);
    (Some 1%nat, OpClose "out/t/a"); (Some 2%nat, OpClose "out/t/d/b");
    (Some 1%nat, OpChtimes "out/t/a" 9); (Some 2%nat, OpChtimes "out/t/d/b" 9) ].

(** [arch1] on two processors when the copy into [out/t/a] fails. *)
Definition env_copy : Env :=
  env_of arch1 2
    [ (Some 1%nat, OpCopy "out/t/a" [Byte.x61], "write out/t/a: disk full") ].

(** The calls of [env_copy] under the round-robin schedule. *)
Definition trace_copy : list (caller * op) :=
  [ (None, OpMkdirAll "out" 0x1ED); (Some 0%nat, OpMkdirAll "out/t" 0x1ED);
    (Some 1%nat, OpMkdirAll "out/t" 0x1ED);
    (Some 2%nat, OpMkdirAll "out/t/d" 0x1ED);
    (Some 1%nat, OpOpenEntry "t/a"); (Some 2%nat, OpOpenEntry "t/d/b");
    (Some 1%nat, OpOpenFile "out/t/a" 0x241 0x1A4);
    (Some 2%nat, OpOpenFile "out/t/d/b" 0x241 0x180);
    (Some 1%nat, OpCopy "out/t/a" [Byte.x61]); (Some 1%nat, OpClose "out/t/a");
    (Some 2%nat, OpCopy "out/t/d/b" [Byte.x62]);
    (Some 2%nat, OpClose "out/t/d/b"); (Some 2%nat, OpChtimes "out/t/d/b" 9) ].

End SimZip.

(* ===================================================================== *)
(** * The commands [zip] and [unzip] (package [cmd])                     *)
(* ===================================================================== *)

Module Cmd.

(** [filepath.Ext]: the suffix from the last dot of the last element,
    read off the reversed path. *)
Fixpoint ext_go (rev_path : list ascii) (acc : list ascii) : list ascii :=
  match rev_path with
  | [] => []
  | c :: l =>
      if isSep c then []
      else if isDot c then c :: acc
      else ext_go l (c :: acc)
  end.

Definition Ext (path : string) : string := str (ext_go (rev (chars path)) []).

(** [strings.HasSuffix] and [strings.TrimSuffix] *)
Definition HasSuffix (s suffix : string) : bool :=
  HasPrefix (str (rev (chars s))) (str (rev (chars suffix))).

Definition TrimSuffix (s suffix : string) : string :=
  if HasSuffix s suffix
  then str (take (String.length s - String.length suffix) (chars s))
  else s.

(** Lower case of an ASCII letter; other bytes are kept. *)
Definition lower (c : ascii) : ascii :=
  let n := nat_of_ascii c in
  if bool_decide (65 <= n)%nat && bool_decide (n <= 90)%nat
  then ascii_of_nat (n + 32) else c.

(** [strings.EqualFold s t] for an ASCII [t] without [k] or [s]: no rune
    outside ASCII folds to a letter of [t], so the bytes are compared
    letter case apart. *)
Definition EqualFold (s t : string) : bool :=
  bool_decide (lower <$> chars s = lower <$> chars t).

(** The destination of [unzip] when the flag [-d] is not given: the name
    of the archive without its extensions. *)
Definition defaultDest (zipfile : string) : string :=
  let base := Base zipfile in
  let base :=
    if EqualFold (Ext base) ".zip" then TrimSuffix base (Ext base) else base in
  let ext2 := Ext base in
  if negb (bool_decide (ext2 = "")) then TrimSuffix base ext2 else base.

(** The archive of [zip] when the flag [-o] is not given: the name of the
    folder or file followed by [.zip]. *)
Definition defaultOut (src : string) : string := Base src +:+ ".zip".

End Cmd.

(* ===================================================================== *)
(** * [path/filepath] on the cases of its own tests                       *)
(* ===================================================================== *)

Example Clean_tests :
  map Clean ["abc"; "abc/def"; "."; ".."; "../.."; "../../abc"; "/abc"; "/"; "";
             "abc/"; "./"; "../"; "/abc/"; "abc//def//ghi"; "//abc"; "//abc//";
             "abc/./def"; "/./abc/def"; "abc/."; "abc/def/ghi/../jkl";
             "abc/def/../ghi/../jkl"; "abc/def/.."; "abc/def/../.."; "/abc/def/../..";
             "abc/def/../../.."; "/abc/def/../../..";
             "abc/def/../../../ghi/jkl/../../../mno"; "/../abc"; "abc/./../def";
             "abc//./../def"; "abc/../../././../def"; "a/..b/.c/...";  "../a/.."]
  = ["abc"; "abc/def"; "."; ".."; "../.."; "../../abc"; "/abc"; "/"; ".";
     "abc"; "."; ".."; "/abc"; "abc/def/ghi"; "/abc"; "/abc";
     "abc/def"; "/abc/def"; "abc"; "abc/def/jkl";
     "abc/jkl"; "abc"; "."; "/";
     ".."; "/";
     "../../mno"; "/abc"; "def";
     "def"; "../../def"; "a/..b/.c/..."; ".."].
Proof. vm_compute. reflexivity. Qed.

Example Join_tests :
  map (fun '(a, b) => Join a b)
    [("a", "b"); ("a", ""); ("", "b"); ("/", "a"); ("/", ""); ("a/", "b"); ("a/", "");
     ("", ""); ("out", "../evil"); ("out", "a/../b"); ("out", "t/")]
  = ["a/b"; "a"; "b"; "/a"; "/"; "a/b"; "a"; ""; "evil"; "out/b"; "out/t"].
Proof. vm_compute. reflexivity. Qed.

Example Base_tests :
  map Base [""; "."; "/."; "/"; "////"; "x/"; "abc"; "abc/def"; "a/b/.x"; "a/b/c."; "a/b/c.x"]
  = ["."; "."; "."; "/"; "/"; "x"; "abc"; "def"; ".x"; "c."; "c.x"].
Proof. vm_compute. reflexivity. Qed.

Example Dir_tests :
  map Dir [""; "."; "/."; "/"; "/foo"; "x/"; "abc"; "abc/def"; "a/b/.x"; "a/b/c."; "a/b/c.x"]
  = ["."; "."; "/"; "/"; "/"; "x"; "."; "abc"; "a/b"; "a/b"; "a/b"].
Proof. vm_compute. reflexivity. Qed.

Example Rel_tests :
  map (fun '(a, b) => Rel a b)
    [("a/b", "a/b"); ("a/b/.", "a/b"); ("a/b", "a/b/c/d"); ("a/b", "a/c"); ("a/b/c/d", "a/b");
     ("a/b/c/d", "a/b/"); ("../../a/b", "../../a/b/c/d"); ("/a/b", "/a/b/c/d"); ("/a/b/c/d", "/a/b");
     ("/ab/cd", "/ab/cde"); ("/ab/cd", "/ab/c"); ("/a/b", "/x/y/z"); ("/", "/a/b"); ("/a/b", "/");
     (".", "a/b"); (".", ".."); ("a", "/a")]
  = [(".", None); (".", None); ("c/d", None); ("../c", None); ("../..", None);
     ("../..", None); ("c/d", None); ("c/d", None); ("../..", None);
     ("../cde", None); ("../c", None); ("../../x/y/z", None); ("a/b", None); ("../..", None);
     ("a/b", None); ("..", None); ("", Some "Rel: can't make /a relative to a")].
Proof. vm_compute. reflexivity. Qed.

(** What cannot be done on the names alone, and a target that is [.]. *)
Example Rel_lexical_limits :
  map (fun '(a, b) => Rel a b)
    [("..", "."); ("..", "a"); ("../..", ".."); ("/a", "a"); ("a", "."); ("a/b", ".");
     ("..", "../../evil")]
  = [("", Some "Rel: can't make . relative to ..");
     ("", Some "Rel: can't make a relative to ..");
     ("", Some "Rel: can't make .. relative to ../..");
     ("", Some "Rel: can't make a relative to /a");
     ("..", None); ("../..", None); ("../evil", None)].
Proof. vm_compute. reflexivity. Qed.

(* ===================================================================== *)
(** * The ordered writer commits in walk order                           *)
(* ===================================================================== *)

Module PackProofs.
Import Pack.

Lemma indexOf_from_lookup (l : list string) : forall (k : Z) (i : nat) (p : string),
  NoDup l -> l !! i = Some p -> indexOf_from k l p = k + Z.of_nat i.
Proof.
  induction l as [|v l IH]; intros k i p Hnd Hi; [done|].
  apply NoDup_cons in Hnd as [Hv Hnd]. destruct i as [|i]; simpl in *.
  - injection Hi as ->. rewrite bool_decide_eq_true_2 by done. lia.
  - rewrite bool_decide_eq_false_2.
    + rewrite (IH (k + 1) i p Hnd Hi). lia.
    + intros ->. apply Hv. eapply list_elem_of_lookup_2; eauto.
Qed.

Lemma idx_prepare env src baseDir paths p :
  idx (prepare env src baseDir paths p) = indexOf paths p.
Proof.
  unfold prepare. destruct (os_Stat env p) as [st|e]; [|done].
  destruct (fi_IsDir st); [by destruct (negb _)|done].
Qed.

Lemma idx_prepared env src baseDir (paths : list string) (i : nat) (r : result) :
  NoDup paths ->
  (prepare env src baseDir paths <$> paths) !! i = Some r -> idx r = Z.of_nat i.
Proof.
  intros Hnd Hi. rewrite list_lookup_fmap in Hi.
  destruct (paths !! i) as [p|] eqn:Hp; [|done]. injection Hi as <-.
  rewrite idx_prepare. unfold indexOf. by rewrite (indexOf_from_lookup _ 0 i p).
Qed.

(** The draining loop stops at a sequence number that is not held: the
    bound on its iterations is never what ends it. *)
Lemma drain_go_stops env (fuel : nat) : forall st st' : wstate,
  (size (pending st) <= fuel)%nat ->
  drain_go env fuel st = (st', None) ->
  pending st' !! next st' = None.
Proof.
  induction fuel as [|fuel IH]; intros st st' Hsz; simpl.
  - intros [= <-]. assert (pending st = ∅) as -> by (apply map_size_empty_inv; lia).
    apply lookup_empty.
  - destruct (pending st !! next st) as [r2|] eqn:Hlk; [|by intros [= <-]].
    destruct (commit env (zw st) r2) as [zw' [e|]]; [done|].
    apply IH. simpl.
    pose proof (map_size_delete_Some (next st) (pending st) (mk_is_Some _ _ Hlk)). lia.
Qed.

Lemma drain_stops env (st st' : wstate) :
  drain env st = (st', None) -> pending st' !! next st' = None.
Proof. by apply drain_go_stops. Qed.

Section writer.
Context (env : Env) (rs : list result).
Hypothesis Hidx : forall (i : nat) (r : result), rs !! i = Some r -> idx r = Z.of_nat i.

Lemma results_NoDup : NoDup rs.
Proof.
  apply NoDup_alt. intros i j r Hi Hj.
  apply Hidx in Hi, Hj. lia.
Qed.

(** What the loop knows of the results not yet committed: those held in
    [pending] sit under their own sequence number, and together with the
    ones still to arrive they are exactly the results from [n] on. *)
Definition Inv (n : nat) (p : gmap Z result) (rest : list result) : Prop :=
  (n <= length rs)%nat
  /\ (forall (j : Z) (r : result), p !! j = Some r ->
        exists i : nat, j = Z.of_nat i /\ rs !! i = Some r)
  /\ (map_to_list p).*2 ++ rest ≡ₚ drop n rs.

Lemma Inv_pending_next (n : nat) (p : gmap Z result) (rest : list result) (r : result) :
  Inv n p rest -> r ∈ (map_to_list p).*2 -> rs !! n = Some r ->
  p !! Z.of_nat n = Some r.
Proof.
  intros (_ & Hp & _) Hin Hn.
  apply list_elem_of_fmap in Hin as ([j r'] & -> & Hin). simpl in *.
  apply elem_of_map_to_list in Hin.
  destruct (Hp _ _ Hin) as (i & -> & Hi).
  apply Hidx in Hi, Hn. by replace n with i by lia.
Qed.

Lemma drain_idle (st : wstate) :
  pending st !! next st = None -> drain env st = (st, None).
Proof.
  intros H. unfold drain. destruct (size (pending st)); simpl; [done|by rewrite H].
Qed.

Lemma drain_go_spec (fuel : nat) : forall (n : nat) (p : gmap Z result)
    (z : zipWriter) (rest : list result),
  (size p <= fuel)%nat -> Inv n p rest ->
  match drain_go env fuel (mkW (Z.of_nat n) p z) with
  | (st', Some e) => commit_in_order env (drop n rs) z = (zw st', Some e)
  | (st', None) =>
      exists n' : nat,
        next st' = Z.of_nat n' /\ Inv n' (pending st') rest
        /\ pending st' !! Z.of_nat n' = None
        /\ commit_in_order env (drop n rs) z
           = commit_in_order env (drop n' rs) (zw st')
  end.
Proof.
  induction fuel as [|fuel IH]; intros n p z rest Hsz HI.
  - simpl. exists n. assert (p = ∅) as -> by (apply map_size_empty_inv; lia).
    by rewrite lookup_empty.
  - simpl. destruct (p !! Z.of_nat n) as [r2|] eqn:Hlk.
    2:{ exists n. simpl. auto. }
    destruct HI as (Hlen & Hp & Hperm).
    destruct (Hp _ _ Hlk) as (i & Hi & Hrs).
    apply Nat2Z.inj in Hi as <-.
    rewrite (drop_S _ _ _ Hrs). simpl.
    destruct (commit env z r2) as [zw' [e|]] eqn:Hc; [done|].
    replace (Z.of_nat n + 1) with (Z.of_nat (S n)) by lia.
    apply IH.
    + pose proof (map_size_delete_Some (Z.of_nat n) p (mk_is_Some _ _ Hlk)). lia.
    + split; [apply lookup_lt_Some in Hrs; lia|]. split.
      * intros j r Hj. apply lookup_delete_Some in Hj as [_ Hj]. eauto.
      * apply (Permutation_cons_inv (a := r2)).
        rewrite <- (drop_S _ _ _ Hrs), <- Hperm.
        rewrite <- (map_to_list_delete p _ _ Hlk). done.
Qed.

Lemma writer_loop_spec (rest : list result) : forall (n : nat)
    (p : gmap Z result) (z : zipWriter),
  Inv n p rest ->
  match writer_loop env rest (mkW (Z.of_nat n) p z) with
  | (st', e) =>
      commit_in_order env (drop n rs) z = (zw st', e)
      /\ (e = None -> next st' = Z.of_nat (length rs))
  end.
Proof.
  induction rest as [|r rest IH]; intros n p z HI.
  - simpl. pose proof (drain_go_spec (size p) n p z [] (le_n _) HI) as Hd.
    unfold drain at 1. simpl.
    destruct (drain_go env (size p) _) as [st1 [e|]]; [by split|].
    destruct Hd as (n' & Hn' & HI' & Hnone & Heq).
    rewrite drain_idle by by rewrite Hn'.
    destruct HI' as (Hlen & Hp & Hperm). rewrite app_nil_r in Hperm.
    destruct (drop n' rs) as [|r0 tl] eqn:Hdrop.
    + rewrite Heq. simpl. split; [done|]. intros _. rewrite Hn'.
      pose proof (drop_nil_inv _ _ Hdrop) as Hge.
      f_equal. lia.
    + exfalso.
      assert (rs !! n' = Some r0) as Hn0.
      { rewrite <- (Nat.add_0_r n'), <- lookup_drop, Hdrop. done. }
      assert (r0 ∈ (map_to_list (pending st1)).*2) as Hin
        by (rewrite Hperm; left).
      assert (Inv n' (pending st1) []) as HI'.
      { split; [done|]. split; [done|]. by rewrite app_nil_r, Hdrop. }
      pose proof (Inv_pending_next _ _ _ _ HI' Hin Hn0). congruence.
  - cbn [writer_loop].
    pose proof (drain_go_spec (size p) n p z (r :: rest) (le_n _) HI) as Hd.
    unfold drain at 1. simpl.
    destruct (drain_go env (size p) _) as [[n1 p1 z1] [e|]]; [by split|].
    destruct Hd as (n' & Hn' & HI' & Hnone & Heq). simpl in *. subst n1.
    rewrite Heq. clear Heq HI.
    destruct HI' as (Hlen & Hp & Hperm).
    assert (exists i : nat, (n' <= i)%nat /\ rs !! i = Some r) as (i & Hge & Hi).
    { assert (r ∈ drop n' rs) as Hin.
      { rewrite <- Hperm. apply elem_of_app. right. left. }
      apply list_elem_of_lookup in Hin as [k Hk]. rewrite lookup_drop in Hk.
      exists (n' + k)%nat. split; [lia|done]. }
    pose proof (Hidx _ _ Hi) as Hir.
    case_bool_decide as Hnext.
    + assert (i = n') as -> by lia.
      rewrite (drop_S _ _ _ Hi). simpl.
      destruct (commit env z1 r) as [zw' [e|]] eqn:Hc; [by split|].
      assert (Inv (S n') p1 rest) as HI1.
      { split; [apply lookup_lt_Some in Hi; lia|]. split; [done|].
        apply (Permutation_cons_inv (a := r)).
        rewrite <- (drop_S _ _ _ Hi), <- Hperm. by rewrite Permutation_middle. }
      replace (Z.of_nat n' + 1) with (Z.of_nat (S n')) by lia.
      pose proof (drain_go_spec (size p1) (S n') p1 zw' rest (le_n _) HI1) as Hd.
      unfold drain. simpl.
      destruct (drain_go env (size p1) _) as [[n2 p2 z2] [e|]]; [by split|].
      destruct Hd as (n'' & Hn'' & HI'' & _ & Heq). simpl in *. subst n2.
      rewrite Heq. by apply IH.
    + simpl. apply IH.
      assert (p1 !! Z.of_nat i = None) as Hfree.
      { destruct (p1 !! Z.of_nat i) as [r0|] eqn:Hlk; [|done]. exfalso.
        destruct (Hp _ _ Hlk) as (i' & Hi' & Hrs).
        apply Nat2Z.inj in Hi' as <-.
        assert (r0 = r) as -> by congruence.
        assert (NoDup ((map_to_list p1).*2 ++ r :: rest)) as Hnd.
        { rewrite Hperm. pose proof results_NoDup as Hnd.
          rewrite <- (take_drop n' rs) in Hnd. by apply NoDup_app in Hnd as (_ & _ & ?). }
        apply NoDup_app in Hnd as (_ & Hdis & _).
        apply (Hdis r); [|left].
        apply list_elem_of_fmap. exists (Z.of_nat i, r). split; [done|].
        by apply elem_of_map_to_list. }
      rewrite Hir. split; [done|]. split.
      * intros j r0 Hj. apply lookup_insert_Some in Hj as [[<- <-]|[_ Hj]]; eauto.
      * rewrite map_to_list_insert by done. rewrite fmap_cons. simpl.
        rewrite <- Hperm. by rewrite Permutation_middle.
Qed.

(** From an empty holding area, whatever the order of arrival, the loop
    leaves the container and the error of the in-order commit. *)
Lemma writer_loop_in_order (arrival : list result) :
  arrival ≡ₚ rs ->
  match writer_loop env arrival (mkW 0 ∅ []) with
  | (st', e) =>
      commit_in_order env rs [] = (zw st', e)
      /\ (e = None -> next st' = Z.of_nat (length rs))
  end.
Proof.
  intros Hperm. apply (writer_loop_spec arrival 0 ∅ []).
  split; [lia|]. split; [by intros j r; rewrite lookup_empty|].
  by rewrite map_to_list_empty.
Qed.
End writer.

Lemma sort_Strings_perm (l : list string) : sort_Strings l ≡ₚ l.
Proof. apply merge_sort_Permutation. Qed.

Lemma sort_Strings_sorted (l : list string) : Sorted String.le (sort_Strings l).
Proof. apply (Sorted_merge_sort String.le). Qed.

Lemma ZipParallelAll_in_order env deliver src zipPath :
  (forall l, deliver l ≡ₚ l) ->
  NoDup (WalkDir env (Clean src)).1 ->
  ZipParallelAll env deliver src zipPath = pack_in_order env src zipPath.
Proof.
  intros Hdel Hnd. unfold ZipParallelAll, pack_in_order.
  destruct (os_Stat env (Clean src)) as [info|e]; [|done].
  destruct (not_ErrExist _); [done|].
  destruct (WalkDir env (Clean src)) as [walked [e|]]; [done|].
  destruct (os_Create env zipPath); [done|]. simpl in Hnd.
  set (rs := prepare_all env (Clean src) info (sort_Strings walked)).
  assert (forall (i : nat) (r : result), rs !! i = Some r -> idx r = Z.of_nat i) as Hidx.
  { intros i r. apply idx_prepared. by rewrite sort_Strings_perm. }
  pose proof (writer_loop_in_order env rs Hidx (deliver rs) (Hdel rs)) as H.
  destruct (writer_loop env (deliver rs) _) as [st e]. destruct H as [-> _]. done.
Qed.

Lemma pack_in_order_inv env src zipPath archive e :
  pack_in_order env src zipPath = (Some archive, e) ->
  exists info walked,
    os_Stat env (Clean src) = inl info
    /\ WalkDir env (Clean src) = (walked, None)
    /\ finalize env (commit_in_order env
         (prepare_all env (Clean src) info (sort_Strings walked)) []) = (Some archive, e).
Proof.
  unfold pack_in_order.
  destruct (os_Stat env (Clean src)) as [info|?]; [|done].
  destruct (not_ErrExist _); [done|].
  destruct (WalkDir env (Clean src)) as [walked [?|]]; [done|].
  destruct (os_Create env zipPath); [done|]. eauto.
Qed.

Lemma finalize_inv env x archive e :
  finalize env x = (Some archive, e) ->
  x.1 = archive /\ (e = None -> x.2 = None).
Proof.
  destruct x as [z [e'|]]; simpl.
  - intros [= <- <-]. by split.
  - destruct (zw_Close env); intros [= <- <-]; by split.
Qed.

Lemma write_last_snoc (z : zipWriter) (h : FileHeader)
    (wr : list Byte.byte -> list Byte.byte * option error) :
  write_last (z ++ [(h, [])]) wr
  = (z ++ [(set_Size h (Z.of_nat (length (wr []).1)), (wr []).1)], (wr []).2).
Proof.
  unfold write_last. rewrite reverse_snoc. destruct (wr []) as [w' e'].
  by rewrite reverse_involutive.
Qed.

Lemma commit_ok env z r z' :
  commit env z r = (z', None) -> err r = None /\ z' = z ++ entry_of r.
Proof.
  unfold commit, writeOne, CreateHeader, entry_of, written_hdr.
  destruct (err r); [done|].
  destruct (hdr r) as [h|], (write r) as [wr|]; try done.
  - destruct (CreateHeader_err env z h); [done|].
    rewrite write_last_snoc. intros [= <- H]. done.
  - destruct (CreateHeader_err env z h); [done|]. by intros [= <-].
  - intros [= <-]. by rewrite app_nil_r.
Qed.

Lemma commit_headers env z r z' e :
  commit env z r = (z', e) ->
  z'.*1 = z.*1 \/ z'.*1 = z.*1 ++ option_list (written_hdr r).
Proof.
  unfold commit, writeOne, CreateHeader, written_hdr.
  destruct (err r); [intros [= <- _]; by left|].
  destruct (hdr r) as [h|], (write r) as [wr|]; simpl.
  - destruct (CreateHeader_err env z h); [intros [= <- _]; by left|].
    rewrite write_last_snoc. intros [= <- _]. right. by rewrite !fmap_app.
  - destruct (CreateHeader_err env z h); [intros [= <- _]; by left|].
    intros [= <- _]. right. by rewrite !fmap_app.
  - intros [= <- _]. by left.
  - intros [= <- _]. by left.
Qed.

Lemma entry_of_headers r : (entry_of r).*1 = option_list (written_hdr r).
Proof. unfold entry_of. by destruct (written_hdr r). Qed.

(** The headers in the container after an in-order commit are those of a
    prefix of the results, and of all of them when no error came up. *)
Lemma commit_in_order_headers env (rs : list result) : forall z z' e,
  commit_in_order env rs z = (z', e) ->
  exists k : nat, (k <= length rs)%nat
    /\ z'.*1 = z.*1 ++ omap written_hdr (take k rs)
    /\ (e = None -> k = length rs).
Proof.
  induction rs as [|r rs IH]; intros z z' e; simpl.
  - intros [= <- <-]. exists 0%nat. by rewrite app_nil_r.
  - destruct (commit env z r) as [z1 [e1|]] eqn:Hc.
    + intros [= <- <-]. destruct (commit_headers _ _ _ _ _ Hc) as [H|H].
      * exists 0%nat. rewrite H, app_nil_r. split; [lia|done].
      * exists 1%nat. rewrite H. split; [lia|]. split; [|done].
        simpl. by destruct (written_hdr r).
    + intros Hrest. destruct (IH _ _ _ Hrest) as (k & Hk & Hh & Hall).
      apply commit_ok in Hc as [_ ->].
      exists (S k). split; [lia|]. split; [|intros; f_equal; auto].
      rewrite Hh, fmap_app, entry_of_headers, <- app_assoc. simpl.
      by destruct (written_hdr r).
Qed.

Lemma idx_of_prefix (rs : list result) : forall off : nat,
  (forall (i : nat) (r : result), rs !! i = Some r -> idx r = Z.of_nat (off + i)) ->
  idx <$> rs = Z.of_nat <$> seq off (length rs).
Proof.
  induction rs as [|r rs IH]; intros off H; [done|]. simpl. f_equal.
  - rewrite (H 0%nat r eq_refl). f_equal. lia.
  - apply IH. intros i r' Hi. rewrite (H (S i) r' Hi). f_equal. lia.
Qed.

(** The sequence numbers of the first [k] results are [0], ..., [k-1]. *)
Lemma idx_take (rs : list result) (k : nat) :
  (forall (i : nat) (r : result), rs !! i = Some r -> idx r = Z.of_nat i) ->
  (k <= length rs)%nat ->
  idx <$> take k rs = Z.of_nat <$> seq 0 k.
Proof.
  intros Hidx Hk. rewrite (idx_of_prefix (take k rs) 0).
  - by rewrite length_take, Nat.min_l.
  - intros i r Hi. apply Hidx. by apply lookup_take_Some in Hi as [? _].
Qed.

(** The walk of a table whose paths are distinct lists each path once. *)
Lemma SimFS_walk_NoDup (tab : SimFS.table) (now : Z) (root : string) :
  NoDup tab.*1 -> NoDup (WalkDir (SimFS.env_of tab now) root).1.
Proof.
  intros Hnd. simpl. unfold SimFS.walk.
  destruct (SimFS.find tab root) as [[| |]|]; simpl;
    try apply NoDup_singleton; try apply NoDup_nil_2.
  by apply NoDup_filter.
Qed.

(** C1. For every source tree (a walk that lists each path once), whatever
    the order in which the workers deliver their results, the headers in
    the archive are those prepared for the lexicographically sorted paths,
    in that order, each with the number of bytes streamed into its entry
    as size: the committed sequence numbers are 0, 1, ..., k-1, each once,
    with k the number of paths when the run succeeds; the outcome is that
    of the in-order delivery. *)
Theorem ordered_commit_is_walk_order (env : Env) (deliver : list result -> list result)
    (src zipPath : string) (info : FileInfo) (walked : list string)
    (archive : zipWriter) (e : option error) :
  (forall l, deliver l ≡ₚ l) ->
  os_Stat env (Clean src) = inl info ->
  WalkDir env (Clean src) = (walked, None) ->
  NoDup walked ->
  ZipParallelAll env deliver src zipPath = (Some archive, e) ->
  Sorted String.le (sort_Strings walked)
  /\ sort_Strings walked ≡ₚ walked
  /\ (exists k : nat,
        (k <= length walked)%nat
        /\ archive.*1
           = omap written_hdr
               (take k (prepare_all env (Clean src) info (sort_Strings walked)))
        /\ idx <$> take k (prepare_all env (Clean src) info (sort_Strings walked))
           = Z.of_nat <$> seq 0 k
        /\ (e = None -> k = length walked))
  /\ ZipParallelAll env deliver src zipPath = ZipParallelAll env id src zipPath.
Proof.
  intros Hdel Hst Hwalk Hnd Hrun.
  split; [apply sort_Strings_sorted|]. split; [apply sort_Strings_perm|].
  assert (NoDup (WalkDir env (Clean src)).1) as Hnd' by by rewrite Hwalk.
  split.
  - rewrite (ZipParallelAll_in_order _ _ _ _ Hdel Hnd') in Hrun.
    apply pack_in_order_inv in Hrun as (info' & walked' & Hst' & Hwalk' & Hfin).
    assert (info' = info) as -> by congruence.
    assert (walked' = walked) as -> by congruence.
    set (rs := prepare_all env (Clean src) info (sort_Strings walked)) in *.
    destruct (commit_in_order env rs []) as [z e'] eqn:Hc.
    apply finalize_inv in Hfin as [Hz He]. simpl in *. subst z.
    apply commit_in_order_headers in Hc as (k & Hk & Hh & Hall).
    assert (length rs = length walked) as Hlen.
    { unfold rs, prepare_all. by rewrite length_fmap, sort_Strings_perm. }
    exists k. rewrite <- Hlen. split; [done|]. split; [done|]. split; [|by auto].
    apply idx_take; [|done]. intros i r. apply idx_prepared.
    by rewrite sort_Strings_perm.
  - rewrite !ZipParallelAll_in_order; done.
Qed.

(** The run of C1 on a tree of five paths whose results arrive in reverse. *)
Lemma ordered_commit_is_walk_order_witness :
  exists k : nat,
    (k <= 5)%nat
    /\ Name <$> (default [] (ZipParallelAll (SimFS.env_of SimFS.tree1 100)
                              (@reverse _) "/srv/t/" "out.zip").1).*1
       = Name <$> omap written_hdr (take k (prepare_all (SimFS.env_of SimFS.tree1 100) "/srv/t"
            (SimFS.info_of "/srv/t" (SimFS.Directory 0x1ED 10))
            ["/srv/t"; "/srv/t/a"; "/srv/t/d"; "/srv/t/d-e"; "/srv/t/d/b"]))
    /\ k = 5%nat.
Proof.
  pose proof (ordered_commit_is_walk_order (SimFS.env_of SimFS.tree1 100)
    (@reverse _) "/srv/t/" "out.zip"
    (SimFS.info_of "/srv/t" (SimFS.Directory 0x1ED 10))
    ["/srv/t"; "/srv/t/d"; "/srv/t/d/b"; "/srv/t/a"; "/srv/t/d-e"]
    (default [] (ZipParallelAll (SimFS.env_of SimFS.tree1 100)
                   (@reverse _) "/srv/t/" "out.zip").1) None) as H.
  destruct H as (_ & _ & (k & Hk & Hh & _ & Hall) & _).
  - intros l. apply reverse_Permutation.
  - vm_compute. reflexivity.
  - vm_compute. reflexivity.
  - refine (bool_decide_unpack _ _). vm_compute. reflexivity.
  - vm_compute. reflexivity.
  - exists k. split; [exact Hk|]. split; [|exact (Hall eq_refl)].
    rewrite Hh. reflexivity.
Defined.

(** ** Successful runs: the archive entry by entry *)

Lemma commit_in_order_ok env (rs : list result) : forall z z',
  commit_in_order env rs z = (z', None) ->
  z' = z ++ concat (entry_of <$> rs) /\ Forall (fun r => err r = None) rs.
Proof.
  induction rs as [|r rs IH]; intros z z'; simpl.
  - intros [= <-]. by rewrite app_nil_r.
  - destruct (commit env z r) as [z1 [e1|]] eqn:Hc; [done|].
    intros Hrest. apply commit_ok in Hc as [Herr ->].
    destruct (IH _ _ Hrest) as [-> Hall]. rewrite <- app_assoc. by split; [|constructor].
Qed.

Lemma commit_in_order_app env (l1 l2 : list result) : forall z,
  commit_in_order env (l1 ++ l2) z
  = match commit_in_order env l1 z with
    | (z', Some e) => (z', Some e)
    | (z', None) => commit_in_order env l2 z'
    end.
Proof.
  induction l1 as [|r l1 IH]; intros z; simpl; [done|].
  destruct (commit env z r) as [z1 [e1|]]; [done|]. apply IH.
Qed.

Lemma commit_in_order_no_err env (rs : list result) : forall z,
  Forall (fun r => err r = None) rs ->
  commit_in_order env rs z = write_in_order env rs z.
Proof.
  induction rs as [|r rs IH]; intros z Hall; [done|].
  apply Forall_cons in Hall as [Hr Hall]. simpl. unfold commit. rewrite Hr.
  destruct (writeOne env z r) as [z1 [e1|]]; [done|]. by apply IH.
Qed.

Lemma toZipPath_id (s : string) : toZipPath s = s.
Proof.
  unfold toZipPath. induction s as [|c s IH]; [done|]. simpl.
  case_bool_decide as Hc; simpl; rewrite IH; [by subst c|done].
Qed.

Lemma Base_nonempty (path : string) : Base path <> "".
Proof.
  unfold Base. case_bool_decide; [done|].
  destruct (rev (lastElem _)) as [|c l]; done.
Qed.

Lemma entry_of_prepare_erased env now1 now2 src baseDir paths p :
  erase_Modified <$> entry_of (prepare (with_clock env now1) src baseDir paths p)
  = erase_Modified <$> entry_of (prepare (with_clock env now2) src baseDir paths p).
Proof.
  unfold prepare. simpl. destruct (os_Stat env p) as [st|]; [|done].
  destruct (fi_IsDir st); [by destruct (negb _)|done].
Qed.

Lemma entry_of_prepare_same_clock env now1 now2 src baseDir paths p :
  now1 p = now2 p ->
  entry_of (prepare (with_clock env now1) src baseDir paths p)
  = entry_of (prepare (with_clock env now2) src baseDir paths p).
Proof.
  intros Hnow. unfold prepare. simpl. rewrite Hnow.
  destruct (os_Stat env p) as [st|]; [|done].
  destruct (fi_IsDir st); [by destruct (negb _)|done].
Qed.

Lemma concat_entries_ext {A} (f g : string -> list A) (l : list string) :
  (forall p, f p = g p) -> concat (f <$> l) = concat (g <$> l).
Proof. intros H. induction l as [|p l IH]; csimpl; [done|]. by rewrite H, IH. Qed.

Lemma fmap_concat_entries {A B} (h : A -> B) (f : string -> list A) (l : list string) :
  h <$> concat (f <$> l) = concat ((fun p => h <$> f p) <$> l).
Proof. induction l as [|p l IH]; csimpl; [done|]. by rewrite fmap_app, IH. Qed.

(** The archive of a successful run: the entries of the sorted paths. *)
Lemma successful_archive env deliver src zipPath archive :
  (forall l, deliver l ≡ₚ l) ->
  NoDup (WalkDir env (Clean src)).1 ->
  ZipParallelAll env deliver src zipPath = (Some archive, None) ->
  exists info walked,
    os_Stat env (Clean src) = inl info
    /\ WalkDir env (Clean src) = (walked, None)
    /\ archive = concat ((fun p => entry_of (prepare env (Clean src)
                     (if fi_IsDir info then Base (Clean src) else "")
                     (sort_Strings walked) p)) <$> sort_Strings walked).
Proof.
  intros Hdel Hnd Hrun. rewrite ZipParallelAll_in_order in Hrun by done.
  apply pack_in_order_inv in Hrun as (info & walked & Hst & Hwalk & Hfin).
  exists info, walked. split; [done|]. split; [done|].
  destruct (commit_in_order env _ []) as [z e'] eqn:Hc.
  apply finalize_inv in Hfin as [Hz He]. simpl in *. subst z.
  rewrite (He eq_refl) in Hc. apply commit_in_order_ok in Hc as [-> _].
  unfold prepare_all. by rewrite <- list_fmap_compose.
Qed.

(** ** C3: reproducibility *)

(** C3, as stated, fails: the same tree packed at two clock readings gives
    two successful runs whose archives differ. *)
Lemma pack_twice_differs :
  exists a1 a2 : zipWriter,
    ZipParallelAll (SimFS.env_of SimFS.tree1 100) id "/srv/t" "out.zip" = (Some a1, None)
    /\ ZipParallelAll (SimFS.env_of SimFS.tree1 200) id "/srv/t" "out.zip" = (Some a2, None)
    /\ a1 <> a2.
Proof.
  eexists. eexists. split; [vm_compute; reflexivity|].
  split; [vm_compute; reflexivity|]. discriminate.
Qed.

(** C3, amended. Two successful runs of the pack operation over the same
    source tree, whatever the delivery orders, produce archives with the
    same entries in the same order, equal in everything but the
    modification time written in each header, which is the clock reading
    of the run; the archives are identical when the readings agree. *)
Theorem pack_reproducible_up_to_clock (env : Env) (now1 now2 : string -> Z)
    (d1 d2 : list result -> list result) (src zipPath : string) (a1 a2 : zipWriter) :
  (forall l, d1 l ≡ₚ l) -> (forall l, d2 l ≡ₚ l) ->
  NoDup (WalkDir env (Clean src)).1 ->
  ZipParallelAll (with_clock env now1) d1 src zipPath = (Some a1, None) ->
  ZipParallelAll (with_clock env now2) d2 src zipPath = (Some a2, None) ->
  erase_Modified <$> a1 = erase_Modified <$> a2
  /\ ((forall p, now1 p = now2 p) -> a1 = a2).
Proof.
  intros Hd1 Hd2 Hnd H1 H2.
  apply successful_archive in H1 as (i1 & w1 & Hs1 & Hw1 & ->); [|done..].
  apply successful_archive in H2 as (i2 & w2 & Hs2 & Hw2 & ->); [|done..].
  simpl in *. assert (i2 = i1) as -> by congruence.
  assert (w2 = w1) as -> by congruence. split.
  - rewrite !fmap_concat_entries. apply concat_entries_ext.
    intros p. apply entry_of_prepare_erased.
  - intros Hnow. apply concat_entries_ext. intros p.
    by apply entry_of_prepare_same_clock.
Qed.

(** Two runs over the five paths of [tree1], delivered in order at clock
    100 and in reverse at clock 200. *)
Lemma pack_reproducible_up_to_clock_witness :
  erase_Modified <$>
    default [] (ZipParallelAll (SimFS.env_of SimFS.tree1 100) id "/srv/t" "out.zip").1
  = erase_Modified <$>
    default [] (ZipParallelAll (SimFS.env_of SimFS.tree1 200) (@reverse _)
                  "/srv/t" "out.zip").1.
Proof.
  refine (proj1 (pack_reproducible_up_to_clock (SimFS.env_of SimFS.tree1 0)
    (fun _ => 100) (fun _ => 200) id (@reverse _) "/srv/t" "out.zip" _ _ _ _ _ _ _)).
  - intros l. reflexivity.
  - intros l. apply reverse_Permutation.
  - refine (bool_decide_unpack _ _). vm_compute. reflexivity.
  - vm_compute. reflexivity.
  - vm_compute. reflexivity.
Defined.

(** ** C4: the root directory *)

(** A worker that prepares the root of a whole-directory request never
    sends the empty result: it sends a header named after the root. *)
Lemma prepare_root_directory env src paths st :
  os_Stat env src = inl st -> fi_IsDir st = true ->
  prepare env src (Base src) paths src
  = mkResult (indexOf paths src)
      (Some (mkFileHeader (Base src +:+ "/") Store (time_Now env src) 0 0)) None None.
Proof.
  intros Hst Hdir. unfold prepare, relInside. rewrite Hst, Hdir.
  rewrite (bool_decide_eq_false_2 (Base src = "")) by apply Base_nonempty.
  rewrite (bool_decide_eq_true_2 (src = src)) by done.
  rewrite (bool_decide_eq_false_2 (Base src = "")) by apply Base_nonempty.
  simpl. by rewrite toZipPath_id.
Qed.

(** Every directory that is prepared without error gets a header and no
    content function; when it has a header, the name ends with a separator. *)
Lemma prepare_directory env src baseDir paths p st :
  os_Stat env p = inl st -> fi_IsDir st = true ->
  write (prepare env src baseDir paths p) = None
  /\ forall h, hdr (prepare env src baseDir paths p) = Some h ->
       exists rel, Name h = rel +:+ "/" /\ Method h = Store.
Proof.
  intros Hst Hdir. unfold prepare. rewrite Hst, Hdir.
  destruct (negb _); simpl; split; try done.
  intros h [= <-]. simpl. eauto.
Qed.

(** C4 on the code. Packing the directory [/srv/t] writes an entry [t/]
    for the root itself, ahead of the entries of its content. *)
Theorem root_directory_entry_is_written :
  ZipParallelAll (SimFS.env_of SimFS.tree1 100) id "/srv/t" "out.zip"
  = (Some [ (mkFileHeader "t/" Store 100 0 0, []);
            (mkFileHeader "t/a" Deflate 100 0x1A4 1, [Byte.x61]);
            (mkFileHeader "t/d/" Store 100 0 0, []);
            (mkFileHeader "t/d-e" Deflate 100 0x1A4 0, []);
            (mkFileHeader "t/d/b" Deflate 100 0x180 2, [Byte.x62; Byte.x62]) ],
     None).
Proof. vm_compute. reflexivity. Qed.

(** ** C5: which error is returned *)

(** C5, as stated, fails. In [tree2] the only prepared entry that carries
    an error is the third (a dangling link), yet the pack operation returns
    the error of writing the second (an unreadable file). *)
Lemma write_error_precedes_prepared_error :
  err <$> prepare_all (SimFS.env_of SimFS.tree2 100) "/srv/u"
            (SimFS.info_of "/srv/u" (SimFS.Directory 0x1ED 10))
            ["/srv/u"; "/srv/u/a"; "/srv/u/b"]
  = [None; None; Some "stat /srv/u/b: no such file or directory"]
  /\ sort_Strings (WalkDir (SimFS.env_of SimFS.tree2 100) "/srv/u").1
     = ["/srv/u"; "/srv/u/a"; "/srv/u/b"]
  /\ ZipParallelAll (SimFS.env_of SimFS.tree2 100) id "/srv/u" "out.zip"
     = (Some [ (mkFileHeader "u/" Store 100 0 0, []);
               (mkFileHeader "u/a" Deflate 100 0 0, []) ],
        Some "open /srv/u/a: permission denied")
  /\ Some "open /srv/u/a: permission denied"
     <> Some "stat /srv/u/b: no such file or directory".
Proof. repeat split; try (vm_compute; reflexivity). discriminate. Qed.

(** C5, amended. When the prepared entry of sequence number [k] is the
    first that carries an error, the outcome is decided by the writes of
    the entries before it: if they all succeed, the pack operation returns
    that entry's error, in whatever order the results arrived, and the
    archive holds exactly the entries 0..k-1 in order; if one of them
    fails, that write error is returned instead. *)
Theorem earliest_error_is_returned (env : Env) (deliver : list result -> list result)
    (src zipPath : string) (info : FileInfo) (walked : list string)
    (k : nat) (r : result) (e : error) :
  (forall l, deliver l ≡ₚ l) ->
  os_Stat env (Clean src) = inl info ->
  not_ErrExist (os_MkdirAll env (Dir zipPath) perm_0o755) = None ->
  WalkDir env (Clean src) = (walked, None) ->
  NoDup walked ->
  os_Create env zipPath = None ->
  prepare_all env (Clean src) info (sort_Strings walked) !! k = Some r ->
  err r = Some e ->
  (forall (i : nat) (r' : result), (i < k)%nat ->
     prepare_all env (Clean src) info (sort_Strings walked) !! i = Some r' ->
     err r' = None) ->
  match write_in_order env
          (take k (prepare_all env (Clean src) info (sort_Strings walked))) [] with
  | (z, None) =>
      ZipParallelAll env deliver src zipPath = (Some z, Some e)
      /\ z = concat (entry_of <$>
                take k (prepare_all env (Clean src) info (sort_Strings walked)))
  | (z, Some e') => ZipParallelAll env deliver src zipPath = (Some z, Some e')
  end.
Proof.
  intros Hdel Hst Hmk Hwalk Hnd Hcr Hk He Hmin.
  rewrite ZipParallelAll_in_order by (by rewrite ?Hwalk).
  unfold pack_in_order. rewrite Hst, Hmk, Hwalk, Hcr.
  set (rs := prepare_all env (Clean src) info (sort_Strings walked)) in *.
  assert (Forall (fun r' => err r' = None) (take k rs)) as Hfirst.
  { apply Forall_lookup. intros i r' Hi. apply lookup_take_Some in Hi as [Hi Hlt]. eauto. }
  assert (commit_in_order env rs []
          = match write_in_order env (take k rs) [] with
            | (z, Some e') => (z, Some e')
            | (z, None) => (z, Some e)
            end) as ->.
  { rewrite <- (take_drop k rs) at 1. rewrite (drop_S _ _ _ Hk).
    rewrite commit_in_order_app, (commit_in_order_no_err _ _ _ Hfirst).
    destruct (write_in_order env (take k rs) []) as [z [e'|]]; [done|].
    simpl. unfold commit. by rewrite He. }
  destruct (write_in_order env (take k rs) []) as [z [e'|]] eqn:Hw; [done|].
  split; [done|].
  rewrite <- (commit_in_order_no_err _ _ _ Hfirst) in Hw.
  by apply commit_in_order_ok in Hw as [-> _].
Qed.

(** A tree whose second path is a dangling link: its error is returned
    after the root entry has been written. *)
Lemma earliest_error_is_returned_witness :
  ZipParallelAll (SimFS.env_of [("/srv/v", SimFS.Directory 0x1ED 1);
                                ("/srv/v/x", SimFS.Dangling);
                                ("/srv/v/y", SimFS.Dangling)] 100)
    (@reverse _) "/srv/v" "out.zip"
  = (Some [(mkFileHeader "v/" Store 100 0 0, [])],
     Some "stat /srv/v/x: no such file or directory").
Proof.
  pose proof (earliest_error_is_returned
    (SimFS.env_of [("/srv/v", SimFS.Directory 0x1ED 1);
                   ("/srv/v/x", SimFS.Dangling);
                   ("/srv/v/y", SimFS.Dangling)] 100)
    (@reverse _) "/srv/v" "out.zip"
    (SimFS.info_of "/srv/v" (SimFS.Directory 0x1ED 1))
    ["/srv/v"; "/srv/v/x"; "/srv/v/y"] 1
    (mkResult 1 None None (Some "stat /srv/v/x: no such file or directory"))
    "stat /srv/v/x: no such file or directory") as H.
  refine (proj1 (H _ _ _ _ _ _ _ _ _)).
  - intros l. apply reverse_Permutation.
  - vm_compute. reflexivity.
  - vm_compute. reflexivity.
  - vm_compute. reflexivity.
  - refine (bool_decide_unpack _ _). vm_compute. reflexivity.
  - vm_compute. reflexivity.
  - vm_compute. reflexivity.
  - reflexivity.
  - intros i r' Hi. assert (i = 0%nat) as -> by lia.
    vm_compute. intros [= <-]. reflexivity.
Defined.

(** ** C9: one file *)

Lemma chars_app (a b : string) : chars (a +:+ b) = chars a ++ chars b.
Proof. unfold chars. induction a as [|c a IH]; simpl; [done|]. by rewrite IH. Qed.

Lemma lastElem_plain (w rest : list ascii) :
  Forall (fun c => c <> Separator) w ->
  lastElem (w ++ Separator :: rest) = w.
Proof.
  induction 1 as [|c w Hc _ IH]; simpl.
  - unfold isSep. by rewrite ?bool_decide_eq_true_2.
  - unfold isSep. rewrite bool_decide_eq_false_2 by done. by rewrite IH.
Qed.

(** The base name of a path that ends in a plain element is that element,
    however many elements come before it. *)
Lemma Base_last_element (dir name : string) :
  name <> "" -> Forall (fun c => c <> Separator) (chars name) ->
  Base (dir +:+ PathSeparator +:+ name) = name.
Proof.
  intros Hne Hplain. unfold Base.
  rewrite bool_decide_eq_false_2 by (by destruct dir).
  rewrite !chars_app. change (chars PathSeparator) with [Separator].
  rewrite !rev_app_distr. simpl. rewrite <- app_assoc. simpl.
  assert (Forall (fun c => c <> Separator) (rev (chars name))) as Hrev.
  { apply Forall_forall. intros c Hc. rewrite Forall_forall in Hplain.
    apply Hplain. apply list_elem_of_In. apply in_rev. by apply list_elem_of_In. }
  destruct (rev (chars name)) as [|c w] eqn:Hw.
  { exfalso. apply Hne. apply (f_equal (@rev _)) in Hw. rewrite rev_involutive in Hw.
    simpl in Hw. unfold chars in Hw.
    rewrite <- (string_of_list_ascii_of_string name), Hw. done. }
  pose proof Hrev as Hrev'. apply Forall_cons in Hrev' as [Hc _].
  cbn [dropSeps app]. unfold isSep at 1. rewrite bool_decide_eq_false_2 by done.
  change (c :: w ++ Separator :: rev (chars dir))
    with ((c :: w) ++ Separator :: rev (chars dir)).
  rewrite lastElem_plain by done. rewrite <- Hw, rev_involutive.
  destruct (chars name) as [|c0 l0] eqn:Hn.
  { done. }
  change (String c0 (str l0)) with (str (c0 :: l0)).
  rewrite <- Hn. unfold str, chars. apply string_of_list_ascii_of_string.
Qed.

Lemma sort_Strings_singleton (p : string) : sort_Strings [p] = [p].
Proof. reflexivity. Qed.

(** C9. Packing a single file: a successful run leaves an archive of
    exactly one entry, a deflated file entry named by the base name of the
    source path, which is the last element of the path however deep the
    path is. *)
Theorem single_file_single_entry (env : Env) (deliver : list result -> list result)
    (src zipPath : string) (info : FileInfo) (archive : zipWriter) :
  (forall l, deliver l ≡ₚ l) ->
  os_Stat env (Clean src) = inl info ->
  fi_IsDir info = false ->
  WalkDir env (Clean src) = ([Clean src], None) ->
  ZipParallelAll env deliver src zipPath = (Some archive, None) ->
  exists (h : FileHeader) (data : list Byte.byte),
    archive = [(h, data)]
    /\ Name h = Base (Clean src)
    /\ Method h = Deflate
    /\ hMode h = mode_Perm (fi_Mode info)
    /\ (forall dir name : string,
          Clean src = dir +:+ PathSeparator +:+ name ->
          name <> "" -> Forall (fun c => c <> Separator) (chars name) ->
          Name h = name).
Proof.
  intros Hdel Hst Hfile Hwalk Hrun.
  apply successful_archive in Hrun as (info' & walked & Hst' & Hwalk' & ->);
    [|done|rewrite Hwalk; simpl; apply NoDup_singleton].
  assert (info' = info) as -> by congruence.
  assert (walked = [Clean src]) as -> by congruence.
  rewrite Hfile, sort_Strings_singleton. simpl.
  unfold prepare, relInside. rewrite Hst, Hfile. simpl.
  rewrite toZipPath_id. unfold entry_of. simpl.
  eexists _, _. split; [done|]. simpl.
  split; [done|]. split; [done|]. split; [done|].
  intros dir name Heq Hne Hplain. rewrite Heq. by apply Base_last_element.
Qed.

(** The file [/srv/t/d/b] of [tree1], three directories deep, packed alone. *)
Lemma single_file_single_entry_witness :
  exists (h : FileHeader) (data : list Byte.byte),
    (ZipParallelAll (SimFS.env_of SimFS.tree1 100) id "/srv/t/d/b" "b.zip").1
    = Some [(h, data)]
    /\ Name h = "b".
Proof.
  destruct (single_file_single_entry (SimFS.env_of SimFS.tree1 100) id
    "/srv/t/d/b" "b.zip"
    (SimFS.info_of "/srv/t/d/b" (SimFS.RegFile 0x180 12 [Byte.x62; Byte.x62]))
    (default [] (ZipParallelAll (SimFS.env_of SimFS.tree1 100) id
                   "/srv/t/d/b" "b.zip").1))
    as (h & data & Ha & Hn & _).
  - intros l. reflexivity.
  - vm_compute. reflexivity.
  - vm_compute. reflexivity.
  - vm_compute. reflexivity.
  - vm_compute. reflexivity.
  - exists h, data. split.
    + rewrite <- Ha. vm_compute. reflexivity.
    + rewrite Hn. vm_compute. reflexivity.
Defined.

End PackProofs.

(* ===================================================================== *)
(** * Properties of [ensureInside] and of the restore pool               *)
(* ===================================================================== *)

Module UnpackProofs.
Import Unpack.

Lemma HasPrefix_spec (s prefix : string) :
  HasPrefix s prefix = true <-> exists rest, s = prefix +:+ rest.
Proof.
  revert s. induction prefix as [|p prefix IH]; intros s; simpl.
  - destruct s; (split; [intros _; by eexists|done]).
  - destruct s as [|c s]; simpl; [split; [done|by intros [? ?]]|].
    case_bool_decide as Hc.
    + subst c. rewrite IH. split; intros [rest H]; exists rest; simpl in *;
        [by rewrite H|by injection H].
    + split; [done|]. intros [rest H]. simpl in H. by injection H.
Qed.

Lemma append_assoc (a b c : string) : (a +:+ b) +:+ c = a +:+ b +:+ c.
Proof.
  induction a as [|x a IH]; [done|].
  change (String x ((a +:+ b) +:+ c) = String x (a +:+ b +:+ c)). by rewrite IH.
Qed.

(** C7. [ensureInside] accepts exactly when the cleaned candidate is the cleaned
    root or starts with the cleaned root followed by the path separator;
    in every other case it returns the path-escape error. *)
Theorem ensureInside_accepts_iff (baseDir candidate : string) :
  (ensureInside baseDir candidate = None
   <-> (Clean candidate = Clean baseDir
        \/ exists rest, Clean candidate = Clean baseDir +:+ PathSeparator +:+ rest))
  /\ (ensureInside baseDir candidate <> None ->
      ensureInside baseDir candidate = Some ("zip slip detected: " +:+ candidate)).
Proof.
  unfold ensureInside. case_bool_decide as Heq.
  - split; [|done]. split; [by left|done].
  - destruct (HasPrefix _ _) eqn:Hp; simpl.
    + split; [|done]. split; [|done]. intros _. right.
      apply HasPrefix_spec in Hp as [rest Hp]. exists rest.
      by rewrite Hp, append_assoc.
    + split; [|done]. split; [done|]. intros [H|[rest H]]; [done|].
      assert (HasPrefix (Clean candidate) (Clean baseDir +:+ PathSeparator) = true)
        as Hp'; [|congruence].
      apply HasPrefix_spec. exists rest. by rewrite H, append_assoc.
Qed.

Section pool.
Context (env : Env) (destDir : string) (files : list File).

Local Abbreviation step := (pool_step env destDir files).
Local Abbreviation runs := (run env destDir files).

Lemma run_snoc (sched : list nat) (i : nat) (st : pool) :
  runs (sched ++ [i]) st = default (runs sched st) (step i (runs sched st)).
Proof. unfold run. by rewrite foldl_app. Qed.

Lemma count_holding_insert (l : list pc) : forall (i : nat) (p p' : pc),
  l !! i = Some p ->
  (count_holding (<[i := p']> l) + weight p = count_holding l + weight p')%nat.
Proof.
  unfold count_holding.
  induction l as [|q l IH]; intros [|i] p p' Hi; try done.
  - injection Hi as ->. csimpl. generalize (sum_list (weight <$> l)). intros. lia.
  - specialize (IH i p p' Hi). csimpl. simpl in IH.
    generalize dependent (sum_list (weight <$> <[i:=p']> l)).
    generalize (sum_list (weight <$> l)). intros. lia.
Qed.

Lemma count_running_le (l : list pc) : (count_running l <= count_holding l)%nat.
Proof.
  unfold count_running, count_holding. induction l as [|p l IH]; csimpl; [done|].
  revert IH. generalize (sum_list (weight <$> l)).
  generalize (sum_list ((fun p => if running p then 1 else 0)%nat <$> l)).
  intros a b IH. unfold weight. destruct p; simpl; lia.
Qed.

Lemma count_holding_lookup (l : list pc) : forall (i : nat) (p : pc),
  l !! i = Some p -> (weight p <= count_holding l)%nat.
Proof.
  unfold count_holding.
  induction l as [|q l IH]; intros [|i] p Hi; try done; csimpl.
  - injection Hi as ->. lia.
  - specialize (IH i p Hi). lia.
Qed.

Lemma running_holding (p : pc) : running p = true -> holding p = true.
Proof. by destruct p. Qed.

Lemma worker_step_running (i : nat) (f : File) (p : pc) (st : pool) :
  running p = true ->
  worker_step env destDir i f p st
  = Some ((wstep env destDir i f p).1,
          mkPool (sem st) (errOnce st) (pcs st)
            (ptrace st ++ ((fun o => (Some i, o)) <$> (wstep env destDir i f p).2))).
Proof.
  intros Hr. destruct p; try done; unfold worker_step;
    by destruct (wstep env destDir i f _).
Qed.

Lemma wstep_holding (i : nat) (f : File) (p : pc) :
  holding p = true -> holding (wstep env destDir i f p).1 = true.
Proof.
  destruct p; simpl; try done; unfold or_fail;
    repeat (case_match; simpl; try done).
Qed.

(** The permits taken are those of the workers between acquire and
    release, and never more than [NumCPU]. *)
Definition permit_inv (st : pool) : Prop :=
  sem st = count_holding (pcs st) /\ (sem st <= NumCPU env)%nat.

Lemma permit_inv_step (i : nat) (st st' : pool) :
  permit_inv st -> step i st = Some st' -> permit_inv st'.
Proof.
  intros [Hsem Hcap]. unfold pool_step.
  destruct (files !! i) as [f|]; [|done].
  destruct (pcs st !! i) as [p|] eqn:Hp; [|done].
  destruct (worker_step env destDir i f p st) as [[p' st1]|] eqn:Hw; [|done].
  intros [= <-]. unfold permit_inv. simpl.
  assert (pcs st1 = pcs st
          /\ (sem st1 + weight p = sem st + weight p')%nat
          /\ (sem st1 <= NumCPU env)%nat) as (Hpcs & Hs & Hc).
  { destruct (running p) eqn:Hr.
    - rewrite worker_step_running in Hw by done. injection Hw as <- <-. simpl.
      split; [done|]. split; [|done].
      pose proof (wstep_holding i f p (running_holding _ Hr)) as Hh.
      unfold weight. rewrite Hh, (running_holding _ Hr). lia.
    - destruct p; try done; simpl in Hw.
      + case_bool_decide; [|done]. injection Hw as <- <-. simpl.
        unfold weight; simpl. split; [done|]. lia.
      + injection Hw as <- <-. by simpl.
      + injection Hw as <- <-. simpl.
        pose proof (count_holding_lookup _ _ _ Hp) as Hc.
        unfold weight in *. simpl in *. split; [done|]. lia. }
  rewrite Hpcs. pose proof (count_holding_insert _ _ _ p' Hp). lia.
Qed.

Lemma count_holding_spawn : count_holding (pcs (spawn files)) = 0%nat.
Proof.
  simpl. unfold count_holding. induction files as [|f l IH]; csimpl; [done|].
  rewrite IH. by destruct (f_IsDir f).
Qed.

Lemma permit_inv_run (sched : list nat) : permit_inv (runs sched (spawn files)).
Proof.
  induction sched as [|i sched IH] using rev_ind.
  - unfold run. cbn [foldl]. split; [symmetry; apply count_holding_spawn|simpl; lia].
  - rewrite run_snoc. destruct (step i _) as [st'|] eqn:Hs; simpl; [|done].
    by eapply permit_inv_step.
Qed.

Lemma count_holding_finished (l : list pc) :
  forallb (fun p => match p with Finished => true | _ => false end) l = true ->
  count_holding l = 0%nat.
Proof.
  unfold count_holding. induction l as [|p l IH]; csimpl; [done|].
  intros [Hp Hl]%andb_prop. rewrite (IH Hl). by destruct p.
Qed.

(** Only a worker that holds a permit makes calls. *)
Lemma step_calls_holding (i : nat) (st st' : pool) :
  step i st = Some st' -> ptrace st' <> ptrace st ->
  exists p, pcs st !! i = Some p /\ holding p = true.
Proof.
  unfold pool_step. destruct (files !! i) as [f|]; [|done].
  destruct (pcs st !! i) as [p|] eqn:Hp; [|done].
  destruct (worker_step env destDir i f p st) as [[p' st1]|] eqn:Hw; [|done].
  intros [= <-] Hne. simpl in Hne. exists p. split; [done|].
  destruct p; try done; simpl in Hw.
  case_bool_decide; [|done]. by injection Hw as <- <-.
Qed.

(** ** What each worker has done so far *)

Lemma wops_app (i : nat) (tr1 tr2 : list (caller * op)) :
  wops i (tr1 ++ tr2) = wops i tr1 ++ wops i tr2.
Proof. unfold wops. by rewrite filter_app, fmap_app. Qed.

Lemma wops_tag_same (i : nat) (ops : list op) : wops i (tag i ops) = ops.
Proof.
  unfold wops, tag. induction ops as [|o ops IH]; [done|].
  rewrite fmap_cons, filter_cons_True by done. rewrite fmap_cons. simpl.
  f_equal. exact IH.
Qed.

Lemma wops_tag_other (i j : nat) (ops : list op) : i <> j -> wops i (tag j ops) = [].
Proof.
  intros Hne. unfold wops, tag. induction ops as [|o ops IH]; [done|].
  rewrite fmap_cons, filter_cons_False by (simpl; congruence). exact IH.
Qed.

Lemma elem_of_wops (i : nat) (o : op) (tr : list (caller * op)) :
  (Some i, o) ∈ tr <-> o ∈ wops i tr.
Proof.
  unfold wops. rewrite list_elem_of_fmap. split.
  - intros H. exists (Some i, o). split; [done|]. by apply list_elem_of_filter.
  - intros ([c o'] & -> & [Hc Hin]%list_elem_of_filter). simpl in *. by subst c.
Qed.

Lemma wstep_remaining (i : nat) (f : File) (p : pc) :
  running p = true ->
  remaining env destDir i f p
  = ((wstep env destDir i f p).2 ++ (remaining env destDir i f (wstep env destDir i f p).1).1,
     (remaining env destDir i f (wstep env destDir i f p).1).2).
Proof.
  destruct p; try done; intros _; simpl;
    repeat (unfold restore, from_Mkdir, from_Open, from_Create, from_Copy,
              from_Close, from_Chtimes, or_fail;
            simpl; try done; case_match);
    simpl; by simplify_eq.
Qed.

(** A worker that has left the restore body with an error has offered it
    to [errOnce]; before that, what remains to be done ends with the error
    of the whole body. *)
Definition progress_err (st : pool) (i : nat) (f : File) (p : pc) : Prop :=
  match p with
  | Releasing | Finished =>
      forall e, (restore env destDir i f).2 = Some e -> is_Some (errOnce st)
  | _ => (remaining env destDir i f p).2 = (restore env destDir i f).2
  end.

Definition pool_inv (st : pool) : Prop :=
  (forall c o, (c, o) ∈ ptrace st ->
     exists i f, c = Some i /\ files !! i = Some f /\ f_IsDir f = false)
  /\ (forall i f p, files !! i = Some f -> pcs st !! i = Some p ->
        if f_IsDir f then p = Finished
        else wops i (ptrace st) ++ (remaining env destDir i f p).1
               = (restore env destDir i f).1
             /\ progress_err st i f p)
  /\ (forall e, errOnce st = Some e ->
        exists i f, files !! i = Some f /\ f_IsDir f = false
                    /\ (restore env destDir i f).2 = Some e).

Lemma progress_err_of_remaining (st : pool) (i : nat) (f : File) (p : pc) :
  (remaining env destDir i f p).2 = (restore env destDir i f).2 ->
  progress_err st i f p.
Proof. destruct p; simpl; try done; intros <-; done. Qed.

Lemma progress_err_running (st : pool) (i : nat) (f : File) (p : pc) :
  running p = true -> progress_err st i f p ->
  (remaining env destDir i f p).2 = (restore env destDir i f).2.
Proof. by destruct p. Qed.

Lemma progress_err_mono (st st' : pool) (i : nat) (f : File) (p : pc) :
  (is_Some (errOnce st) -> is_Some (errOnce st')) ->
  progress_err st i f p -> progress_err st' i f p.
Proof. intros Hm. destruct p; simpl; try done; intros H e He; eauto. Qed.

Lemma pool_inv_step (j : nat) (st st' : pool) :
  pool_inv st -> step j st = Some st' -> pool_inv st'.
Proof.
  intros (Hev & Hw & Hslot). unfold pool_step.
  destruct (files !! j) as [fj|] eqn:Hfj; [|done].
  destruct (pcs st !! j) as [pj|] eqn:Hpj; [|done].
  destruct (worker_step env destDir j fj pj st) as [[p' st1]|] eqn:Hstep; [|done].
  intros [= <-].
  pose proof (Hw j fj pj Hfj Hpj) as Hj.
  destruct (f_IsDir fj) eqn:Hdir; [by subst pj|].
  destruct Hj as [Hops Herr].
  assert (j < length (pcs st))%nat as Hlt by (by eapply lookup_lt_Some).
  (* what the step changes *)
  assert (exists ops,
    pcs st1 = pcs st /\ ptrace st1 = ptrace st ++ tag j ops
    /\ (is_Some (errOnce st) -> is_Some (errOnce st1))
    /\ wops j (ptrace st) ++ ops ++ (remaining env destDir j fj p').1
        = (restore env destDir j fj).1
    /\ progress_err st1 j fj p'
    /\ (forall e, errOnce st1 = Some e ->
          errOnce st = Some e \/ (restore env destDir j fj).2 = Some e))
    as (ops & Hpcs & Htr & Hmono & Hops' & Herr' & Hslot').
  { destruct (running pj) eqn:Hr.
    - rewrite worker_step_running in Hstep by done. injection Hstep as <- <-.
      exists (wstep env destDir j fj pj).2. simpl.
      apply (progress_err_running _ _ _ _ Hr) in Herr.
      rewrite (wstep_remaining j fj pj Hr) in Hops, Herr.
      split; [done|]. split; [done|]. split; [done|]. split; [done|]. split; [|auto].
      by apply progress_err_of_remaining.
    - destruct pj; try done; simpl in Hstep.
      + case_bool_decide; [|done]. injection Hstep as <- <-. exists []. simpl.
        rewrite app_nil_r. repeat split; auto.
      + injection Hstep as <- <-. exists []. simpl in *. rewrite app_nil_r.
        split; [done|]. split; [done|]. split; [by destruct (errOnce st)|].
        split; [done|]. split; [intros _ _; by destruct (errOnce st)|].
        intros e0. destruct (errOnce st); simpl; [auto|]. intros [= <-]. by right.
      + injection Hstep as <- <-. exists []. simpl in *. rewrite app_nil_r.
        repeat split; auto. }
  simpl. rewrite Hpcs, Htr. split; [|split].
  - intros c o [Hin|Hin]%elem_of_app; [by eapply Hev|].
    apply list_elem_of_fmap in Hin as (o' & [= -> ->] & _). eauto.
  - intros i f p Hfi Hpi. simpl in Hpi |- *.
    destruct (decide (i = j)) as [->|Hne].
    + rewrite list_lookup_insert_eq in Hpi by done. injection Hpi as <-.
      assert (f = fj) as -> by congruence. rewrite Hdir.
      rewrite wops_app, wops_tag_same, <- app_assoc.
      split; [done|]. by eapply progress_err_mono; [|exact Herr'].
    + rewrite list_lookup_insert_ne in Hpi by done.
      pose proof (Hw i f p Hfi Hpi) as Hi.
      destruct (f_IsDir f); [done|]. destruct Hi as [Hi1 Hi2].
      rewrite wops_app, wops_tag_other, app_nil_r by done.
      split; [done|]. by eapply progress_err_mono; [|exact Hi2].
  - intros e He. simpl in He. destruct (Hslot' e He) as [Hold|Hnew]; [by apply Hslot|].
    eauto.
Qed.

Lemma pool_inv_spawn : pool_inv (spawn files).
Proof.
  split; [|split].
  - simpl. intros c o Hin. by apply elem_of_nil in Hin.
  - simpl. intros i f p Hf Hp. rewrite list_lookup_fmap, Hf in Hp.
    simpl in Hp. injection Hp as <-. destruct (f_IsDir f); [done|]. by simpl.
  - simpl. done.
Qed.

Lemma pool_inv_run (sched : list nat) : pool_inv (runs sched (spawn files)).
Proof.
  induction sched as [|i sched IH] using rev_ind.
  - apply pool_inv_spawn.
  - rewrite run_snoc. destruct (step i _) as [st'|] eqn:Hs; simpl; [|done].
    by eapply pool_inv_step.
Qed.

(** ** Every schedule can be completed *)

Lemma sum_rank_insert (l : list pc) : forall (i : nat) (p p' : pc),
  l !! i = Some p ->
  (sum_list (rank <$> <[i := p']> l) + rank p = sum_list (rank <$> l) + rank p')%nat.
Proof.
  induction l as [|q l IH]; intros [|i] p p' Hi; try done.
  - injection Hi as ->. csimpl. generalize (sum_list (rank <$> l)). intros. lia.
  - specialize (IH i p p' Hi). csimpl. simpl in IH.
    generalize dependent (sum_list (rank <$> <[i:=p']> l)).
    generalize (sum_list (rank <$> l)). intros. lia.
Qed.

Lemma wstep_rank (i : nat) (f : File) (p : pc) :
  running p = true -> (rank (wstep env destDir i f p).1 < rank p)%nat.
Proof.
  destruct p; try done; intros _; simpl; unfold or_fail;
    repeat case_match; simpl; lia.
Qed.

Lemma step_measure (i : nat) (st st' : pool) :
  step i st = Some st' ->
  (measure st' < measure st)%nat /\ length (pcs st') = length (pcs st).
Proof.
  unfold pool_step. destruct (files !! i) as [f|]; [|done].
  destruct (pcs st !! i) as [p|] eqn:Hp; [|done].
  destruct (worker_step env destDir i f p st) as [[p' st1]|] eqn:Hw; [|done].
  intros [= <-]. unfold measure. simpl.
  assert (pcs st1 = pcs st /\ (rank p' < rank p)%nat) as [-> Hlt].
  { destruct (running p) eqn:Hr.
    - rewrite worker_step_running in Hw by done. injection Hw as <- <-.
      split; [done|]. by apply wstep_rank.
    - destruct p; try done; simpl in Hw.
      + case_bool_decide; [|done]. injection Hw as <- <-. simpl. split; [done|lia].
      + injection Hw as <- <-. simpl. split; [done|lia].
      + injection Hw as <- <-. simpl. split; [done|lia]. }
  rewrite length_insert. split; [|done].
  pose proof (sum_rank_insert _ _ _ p' Hp). lia.
Qed.

(** A pool in which some worker has not finished can move: a worker that
    holds a permit is never blocked, and when nobody holds one a permit is
    free for a waiting worker. *)
Lemma pool_can_step (st : pool) :
  (0 < NumCPU env)%nat -> permit_inv st -> length (pcs st) = length files ->
  all_finished st = false ->
  exists i st', step i st = Some st'.
Proof.
  intros Hcpu [Hsem _] Hlen Hfin.
  assert (forall i p, pcs st !! i = Some p ->
            (holding p = true \/ (p = Spawned /\ sem st = 0%nat)) ->
            exists st', step i st = Some st') as Hmove.
  { intros i p Hp Hcase. unfold pool_step.
    destruct (files !! i) as [f|] eqn:Hf.
    2:{ apply lookup_ge_None in Hf. apply lookup_lt_Some in Hp. lia. }
    rewrite Hp. destruct (running p) eqn:Hr.
    { rewrite worker_step_running by done. eauto. }
    destruct p; try done; simpl.
    - destruct Hcase as [?|[_ H0]]; [done|].
      rewrite bool_decide_eq_true_2 by lia. eauto.
    - eauto.
    - eauto.
    - by destruct Hcase as [?|[? _]]. }
  destruct (existsb holding (pcs st)) eqn:Hex.
  - apply existsb_exists in Hex as (p & Hin & Hh).
    apply list_elem_of_In, list_elem_of_lookup in Hin as [i Hi].
    destruct (Hmove i p Hi (or_introl Hh)) as [st' Hst']. eauto.
  - assert (forall p, p ∈ pcs st -> holding p = false) as Hnone.
    { intros p Hin. destruct (holding p) eqn:Hh; [|done].
      assert (existsb holding (pcs st) = true); [|congruence].
      apply existsb_exists. exists p. split; [by apply list_elem_of_In|done]. }
    assert (count_holding (pcs st) = 0%nat) as Hzero.
    { unfold count_holding. clear -Hnone.
      induction (pcs st) as [|q l IH]; [done|]. csimpl.
      rewrite IH by (intros; apply Hnone; by right).
      unfold weight. rewrite Hnone by left. done. }
    unfold all_finished in Hfin.
    assert (exists p, p ∈ pcs st /\ p <> Finished) as (p & Hin & Hp).
    { clear -Hfin. induction (pcs st) as [|q l IH]; [done|]. simpl in Hfin.
      destruct q; simpl in Hfin;
        try (eexists; split; [left|done]).
      destruct (IH Hfin) as (p & ? & ?). exists p. split; [by right|done]. }
    apply list_elem_of_lookup in Hin as [i Hi].
    assert (p = Spawned) as ->.
    { pose proof (Hnone p (list_elem_of_lookup_2 _ _ _ Hi)). by destruct p. }
    destruct (Hmove i Spawned Hi) as [st' Hst']; [|eauto].
    right. split; [done|]. congruence.
Qed.

Lemma run_cons (i : nat) (sched : list nat) (st : pool) :
  runs (i :: sched) st = runs sched (default st (step i st)).
Proof. done. Qed.

Lemma run_app (s1 s2 : list nat) (st : pool) :
  runs (s1 ++ s2) st = runs s2 (runs s1 st).
Proof. unfold run. by rewrite foldl_app. Qed.

Lemma pool_completes (n : nat) : forall st : pool,
  (measure st <= n)%nat ->
  (0 < NumCPU env)%nat -> permit_inv st -> length (pcs st) = length files ->
  exists sched, all_finished (runs sched st) = true.
Proof.
  induction n as [|n IH]; intros st Hm Hcpu Hinv Hlen;
    destruct (all_finished st) eqn:Hfin; try (by exists []).
  - destruct (pool_can_step st Hcpu Hinv Hlen Hfin) as (i & st' & Hs).
    apply step_measure in Hs as [? _]. lia.
  - destruct (pool_can_step st Hcpu Hinv Hlen Hfin) as (i & st' & Hs).
    pose proof (step_measure _ _ _ Hs) as [Hlt Hlen'].
    destruct (IH st') as [sched Hsched]; [lia|done|by eapply permit_inv_step|congruence|].
    exists (i :: sched). by rewrite run_cons, Hs.
Qed.

Lemma length_pcs_run (sched : list nat) :
  length (pcs (runs sched (spawn files))) = length files.
Proof.
  induction sched as [|i sched IH] using rev_ind.
  - simpl. by rewrite length_fmap.
  - rewrite run_snoc. destruct (step i _) as [st'|] eqn:Hs; simpl; [|done].
    apply step_measure in Hs as [_ ->]. done.
Qed.

(** However far the workers have got, they can all be brought to the end:
    [wg.Wait()] returns. *)
Lemma schedule_can_finish (sched : list nat) :
  (0 < NumCPU env)%nat ->
  exists more, all_finished (runs (sched ++ more) (spawn files)) = true.
Proof.
  intros Hcpu.
  destruct (pool_completes (measure (runs sched (spawn files)))
              (runs sched (spawn files))) as [more Hmore];
    [done|done|apply permit_inv_run|apply length_pcs_run|].
  exists more. by rewrite run_app.
Qed.

(** ** The calls of a restore body and of the directory pass *)

(** Membership in a list written out follows from membership in a shorter one. *)
Ltac member_of_list :=
  let H := fresh in
  intros H; apply list_elem_of_In in H; apply list_elem_of_In;
  simpl in *; tauto.

Lemma restore_ops (i : nat) (f : File) (o : op) :
  o ∈ (restore env destDir i f).1 ->
  ensureInside destDir (target destDir f) = None /\ o ∈ restore_calls destDir f.
Proof.
  unfold restore, from_Mkdir, from_Open, from_Create, from_Copy, from_Close,
    from_Chtimes, restore_calls.
  destruct (ensureInside _ _); simpl; [by intros ?%elem_of_nil|].
  intros Hin. split; [done|]. revert Hin.
  destruct (fails env (Some i) (opMkdir destDir f)); simpl; [member_of_list|].
  destruct (fails env (Some i) (opOpen f)); simpl; [member_of_list|].
  destruct (fails env (Some i) (opCreate destDir f)); simpl; [member_of_list|].
  destruct (fails env (Some i) (opCopy destDir f)); simpl; [member_of_list|].
  destruct (fails env (Some i) (opClose destDir f)); simpl; member_of_list.
Qed.

Lemma restore_ok (i : nat) (f : File) :
  (restore env destDir i f).2 = None ->
  (restore env destDir i f).1 = restore_calls destDir f.
Proof.
  unfold restore, from_Mkdir, from_Open, from_Create, from_Copy, from_Close,
    from_Chtimes, restore_calls.
  destruct (ensureInside _ _); simpl; [done|].
  destruct (fails env (Some i) (opMkdir destDir f)); simpl; [done|].
  destruct (fails env (Some i) (opOpen f)); simpl; [done|].
  destruct (fails env (Some i) (opCreate destDir f)); simpl; [done|].
  destruct (fails env (Some i) (opCopy destDir f)); simpl; [done|].
  destruct (fails env (Some i) (opClose destDir f)); simpl; done.
Qed.

Lemma restore_refused (i : nat) (f : File) :
  ensureInside destDir (target destDir f) <> None ->
  (restore env destDir i f).1 = [] /\ (restore env destDir i f).2 <> None.
Proof. unfold restore. by destruct (ensureInside _ _). Qed.

Lemma restore_err_no_faults (i : nat) (f : File) (e : error) :
  (forall c o, fails env c o = None) ->
  (restore env destDir i f).2 = Some e ->
  ensureInside destDir (target destDir f) = Some e.
Proof.
  intros Hnf. unfold restore, from_Mkdir, from_Open, from_Create, from_Copy,
    from_Close, from_Chtimes.
  rewrite !Hnf. by destruct (ensureInside _ _).
Qed.

Lemma ensureInside_Some (baseDir candidate : string) (e : error) :
  ensureInside baseDir candidate = Some e -> e = "zip slip detected: " +:+ candidate.
Proof.
  unfold ensureInside. case_bool_decide; [done|].
  destruct (negb _); [|done]. by intros [= <-].
Qed.

(** What the pass over the directory entries adds to the calls: one
    [MkdirAll] for each directory entry that [ensureInside] accepted. *)
Lemma prepass_calls (l : list File) : forall (i : nat) (tr tr' : list (caller * op))
    (r : option error),
  prepass env destDir i l tr = (tr', r) ->
  exists more, tr' = tr ++ more
    /\ forall c o, (c, o) ∈ more ->
         exists k f, c = Some (i + k)%nat /\ l !! k = Some f /\ f_IsDir f = true
           /\ ensureInside destDir (target destDir f) = None
           /\ o = OpMkdirAll (target destDir f) perm_0o755.
Proof.
  induction l as [|f l IH]; intros i tr tr' r; simpl.
  - intros [= <- <-]. exists []. rewrite app_nil_r. split; [done|].
    intros c o Hin. by apply elem_of_nil in Hin.
  - destruct (f_IsDir f) eqn:Hdir.
    + fold (target destDir f). destruct (ensureInside destDir (target destDir f)) eqn:Hg.
      { intros [= <- <-]. exists []. rewrite app_nil_r. split; [done|].
        intros c o Hin. by apply elem_of_nil in Hin. }
      assert (forall c o, (c, o) ∈ [(Some i, OpMkdirAll (target destDir f) perm_0o755)] ->
                exists k g, c = Some (i + k)%nat /\ (f :: l) !! k = Some g
                  /\ f_IsDir g = true
                  /\ ensureInside destDir (target destDir g) = None
                  /\ o = OpMkdirAll (target destDir g) perm_0o755) as Hhere.
      { intros c o [= -> ->]%list_elem_of_singleton. exists 0%nat, f.
        rewrite Nat.add_0_r. done. }
      destruct (not_ErrExist _).
      { intros [= <- <-]. eauto. }
      intros Hrest. apply IH in Hrest as (more & -> & Hmore).
      exists ((Some i, OpMkdirAll (target destDir f) perm_0o755) :: more).
      split; [by rewrite <- app_assoc|].
      intros c o [Hin|Hin]%elem_of_cons.
      * apply Hhere. rewrite Hin. by apply list_elem_of_singleton.
      * destruct (Hmore c o Hin) as (k & g & -> & Hk & Hrest).
        exists (S k), g. split; [f_equal; lia|done].
    + intros Hrest. apply IH in Hrest as (more & -> & Hmore).
      exists more. split; [done|]. intros c o Hin.
      destruct (Hmore c o Hin) as (k & g & -> & Hk & Hg).
      exists (S k), g. split; [f_equal; lia|done].
Qed.

(** A pass that ends without error has found every directory entry inside
    the destination. *)
Lemma prepass_accepts (l : list File) : forall (i : nat) (tr tr' : list (caller * op)),
  prepass env destDir i l tr = (tr', None) ->
  forall k f, l !! k = Some f -> f_IsDir f = true ->
    ensureInside destDir (target destDir f) = None.
Proof.
  induction l as [|f l IH]; intros i tr tr'; simpl; [done|].
  destruct (f_IsDir f) eqn:Hdir.
  - fold (target destDir f). destruct (ensureInside destDir (target destDir f)) eqn:Hg; [done|].
    destruct (not_ErrExist _); [done|]. intros Hrest [|k] g; simpl.
    + by intros [= <-] _.
    + by eapply IH.
  - intros Hrest [|k] g; simpl.
    + intros [= <-]. congruence.
    + by eapply IH.
Qed.

(** With no failing call, an error of the pass comes from [ensureInside]. *)
Lemma prepass_err_no_faults (l : list File) : forall (i : nat)
    (tr tr' : list (caller * op)) (e : error),
  (forall c o, fails env c o = None) ->
  prepass env destDir i l tr = (tr', Some e) ->
  exists f, f ∈ l /\ ensureInside destDir (target destDir f) = Some e.
Proof.
  induction l as [|f l IH]; intros i tr tr' e Hnf; simpl; [done|].
  destruct (f_IsDir f) eqn:Hdir.
  - fold (target destDir f). destruct (ensureInside destDir (target destDir f)) eqn:Hg.
    + intros [= <- <-]. exists f. split; [left|done].
    + rewrite Hnf. simpl. intros Hrest.
      destruct (IH _ _ _ _ Hnf Hrest) as (g & ? & ?). exists g. split; [by right|done].
  - intros Hrest.
    destruct (IH _ _ _ _ Hnf Hrest) as (g & ? & ?). exists g. split; [by right|done].
Qed.

End pool.

(** ** The shape of a run of [UnzipParallelAll] *)

Lemma unzip_shape env sched zipPath destDir files tr out :
  OpenReader env zipPath = inl files ->
  UnzipParallelAll env sched zipPath destDir = (tr, out) ->
  (exists e, not_ErrExist (fails env None (OpMkdirAll destDir perm_0o755)) = Some e
     /\ tr = [rootCall destDir] /\ out = Returned (Some e))
  \/ (not_ErrExist (fails env None (OpMkdirAll destDir perm_0o755)) = None
      /\ exists tr0 e, prepass env destDir 0 files [rootCall destDir] = (tr0, Some e)
           /\ tr = tr0 /\ out = Returned (Some e))
  \/ (not_ErrExist (fails env None (OpMkdirAll destDir perm_0o755)) = None
      /\ exists tr0, prepass env destDir 0 files [rootCall destDir] = (tr0, None)
           /\ tr = tr0 ++ ptrace (run env destDir files sched (spawn files))
           /\ out = if all_finished (run env destDir files sched (spawn files))
                    then Returned (errOnce (run env destDir files sched (spawn files)))
                    else Waiting).
Proof.
  intros Hopen. unfold UnzipParallelAll, rootCall. rewrite Hopen.
  cbv zeta. cbn [snd].
  destruct (not_ErrExist (fails env None (OpMkdirAll destDir perm_0o755))) as [e|].
  { intros [= <- <-]. left. eauto. }
  destruct (prepass env destDir 0 files _) as [tr0 [e|]] eqn:Hp.
  { intros [= <- <-]. right. left. split; [done|]. by exists tr0, e. }
  destruct (all_finished _) eqn:Hfin; intros [= <- <-]; right; right;
    (split; [done|]); by exists tr0.
Qed.

(** Every call of a run is the creation of the destination root, the
    creation of a directory entry that [ensureInside] accepted, or a call of the
    restore body of a file entry. *)
Lemma unzip_trace_events env sched zipPath destDir files tr out c o :
  OpenReader env zipPath = inl files ->
  UnzipParallelAll env sched zipPath destDir = (tr, out) ->
  (c, o) ∈ tr ->
  (c, o) = rootCall destDir
  \/ (exists i f, c = Some i /\ files !! i = Some f /\ f_IsDir f = true
        /\ ensureInside destDir (target destDir f) = None
        /\ o = OpMkdirAll (target destDir f) perm_0o755)
  \/ (exists i f, c = Some i /\ files !! i = Some f /\ f_IsDir f = false
        /\ o ∈ (restore env destDir i f).1).
Proof.
  intros Hopen Hrun Hin.
  assert (forall tr0 r, prepass env destDir 0 files [rootCall destDir] = (tr0, r) ->
            (c, o) ∈ tr0 ->
            (c, o) = rootCall destDir
            \/ (exists i f, c = Some i /\ files !! i = Some f /\ f_IsDir f = true
                  /\ ensureInside destDir (target destDir f) = None
                  /\ o = OpMkdirAll (target destDir f) perm_0o755)) as Hpre.
  { intros tr0 r Hp Hin0. apply prepass_calls in Hp as (more & -> & Hmore).
    apply elem_of_app in Hin0 as [Hin0|Hin0].
    - left. by apply list_elem_of_singleton in Hin0.
    - right. destruct (Hmore _ _ Hin0) as (k & f & -> & ?). eauto. }
  destruct (unzip_shape _ _ _ _ _ _ _ Hopen Hrun)
    as [(e & _ & -> & _)|[(_ & tr0 & e & Hp & -> & _)|(_ & tr0 & Hp & -> & _)]].
  - left. by apply list_elem_of_singleton in Hin.
  - destruct (Hpre _ _ Hp Hin) as [?|?]; auto.
  - apply elem_of_app in Hin as [Hin|Hin].
    { destruct (Hpre _ _ Hp Hin) as [?|?]; auto. }
    right. right.
    destruct (pool_inv_run env destDir files sched) as (Hev & Hw & _).
    destruct (Hev _ _ Hin) as (i & f & -> & Hf & Hdir). exists i, f.
    split; [done|]. split; [done|]. split; [done|].
    pose proof (length_pcs_run env destDir files sched) as Hlen.
    destruct (lookup_lt_is_Some_2 (pcs (run env destDir files sched (spawn files))) i)
      as [p Hp'].
    { rewrite Hlen. by eapply lookup_lt_Some. }
    specialize (Hw i f p Hf Hp'). rewrite Hdir in Hw. destruct Hw as [<- _].
    apply elem_of_app. left. by apply elem_of_wops.
Qed.

(** When all workers have finished, each has made exactly the calls of its
    restore body, has offered its error if it had one, and the error kept
    is one of theirs. *)
Lemma finished_pool env destDir files sched :
  all_finished (run env destDir files sched (spawn files)) = true ->
  (forall i f, files !! i = Some f -> f_IsDir f = false ->
     wops i (ptrace (run env destDir files sched (spawn files)))
       = (restore env destDir i f).1
     /\ (forall e, (restore env destDir i f).2 = Some e ->
          is_Some (errOnce (run env destDir files sched (spawn files)))))
  /\ (forall e, errOnce (run env destDir files sched (spawn files)) = Some e ->
        exists i f, files !! i = Some f /\ f_IsDir f = false
                    /\ (restore env destDir i f).2 = Some e).
Proof.
  intros Hfin.
  destruct (pool_inv_run env destDir files sched) as (_ & Hw & Hslot).
  split; [|done]. intros i f Hf Hdir.
  pose proof (length_pcs_run env destDir files sched) as Hlen.
  destruct (lookup_lt_is_Some_2 (pcs (run env destDir files sched (spawn files))) i)
    as [p Hp].
  { rewrite Hlen. by eapply lookup_lt_Some. }
  assert (p = Finished) as ->.
  { unfold all_finished in Hfin. rewrite forallb_forall in Hfin.
    specialize (Hfin p). destruct p; try done;
      by (discriminate Hfin; apply list_elem_of_In; eapply list_elem_of_lookup_2). }
  specialize (Hw i f Finished Hf Hp). rewrite Hdir in Hw.
  destruct Hw as [Hops Herr]. simpl in Hops. rewrite app_nil_r in Hops. done.
Qed.

(** Under any schedule extended far enough, [UnzipParallelAll] returns. *)
Lemma unzip_returns env sched zipPath destDir :
  (0 < NumCPU env)%nat ->
  exists more tr r,
    UnzipParallelAll env (sched ++ more) zipPath destDir = (tr, Returned r).
Proof.
  intros Hcpu. unfold UnzipParallelAll.
  destruct (OpenReader env zipPath) as [files|e]; [|by exists [], [], (Some e)].
  cbv zeta.
  destruct (not_ErrExist _) as [e|]; [by eexists [], _, _|].
  destruct (prepass _ _ _ _ _) as [tr0 [e|]]; [by eexists [], _, _|].
  destruct (schedule_can_finish env destDir files sched Hcpu) as [more Hmore].
  exists more. rewrite Hmore. eauto.
Qed.

Lemma wops_none (i : nat) (tr : list (caller * op)) :
  (forall o, (Some i, o) ∉ tr) -> wops i tr = [].
Proof.
  intros Hno. destruct (wops i tr) as [|o l] eqn:Hw; [done|]. exfalso.
  apply (Hno o). apply elem_of_wops. rewrite Hw. left.
Qed.

Lemma prepass_no_file_calls env destDir files tr0 r i f :
  prepass env destDir 0 files [rootCall destDir] = (tr0, r) ->
  files !! i = Some f -> f_IsDir f = false -> wops i tr0 = [].
Proof.
  intros Hpre Hf Hdir. apply wops_none. intros o Hin.
  apply prepass_calls in Hpre as (more & -> & Hmore).
  apply elem_of_app in Hin as [Hin|Hin].
  - by apply list_elem_of_singleton in Hin.
  - destruct (Hmore _ _ Hin) as (k & g & [= ->] & Hg & Hgd & _).
    simpl in Hg. congruence.
Qed.

(** A sequential pass that ends without error has created every directory
    entry. *)
Lemma prepass_creates env destDir (l : list File) : forall (i : nat)
    (tr tr' : list (caller * op)),
  prepass env destDir i l tr = (tr', None) ->
  forall k f, l !! k = Some f -> f_IsDir f = true ->
    (Some (i + k)%nat, OpMkdirAll (Join destDir (f_Name f)) perm_0o755) ∈ tr'
    /\ not_ErrExist (fails env (Some (i + k)%nat)
                       (OpMkdirAll (Join destDir (f_Name f)) perm_0o755)) = None.
Proof.
  induction l as [|g l IH]; intros i tr tr'; simpl; [by intros _ k f ?|].
  destruct (f_IsDir g) eqn:Hg.
  - destruct (ensureInside _ _); [done|].
    destruct (not_ErrExist _) eqn:Hmk; [done|].
    intros Hrest [|k] f Hf Hdir; simpl in Hf.
    + injection Hf as <-. rewrite Nat.add_0_r. split; [|done].
      apply (prepass_calls env destDir) in Hrest as (more & -> & _).
      apply elem_of_app. left. apply elem_of_app. right. left.
    + replace (i + S k)%nat with (S i + k)%nat by lia. by eapply IH.
  - intros Hrest [|k] f Hf Hdir; simpl in Hf; [congruence|].
    replace (i + S k)%nat with (S i + k)%nat by lia. by eapply IH.
Qed.

(** A restore body that ends without error was accepted by [ensureInside]
    and none of its calls before the setting of the time failed. *)
Lemma restore_no_error env destDir i f :
  (restore env destDir i f).2 = None ->
  ensureInside destDir (target destDir f) = None
  /\ fails env (Some i) (opMkdir destDir f) = None
  /\ fails env (Some i) (opOpen f) = None
  /\ fails env (Some i) (opCreate destDir f) = None
  /\ fails env (Some i) (opCopy destDir f) = None
  /\ fails env (Some i) (opClose destDir f) = None.
Proof.
  unfold restore, from_Mkdir, from_Open, from_Create, from_Copy, from_Close,
    from_Chtimes.
  destruct (ensureInside _ _); [done|].
  destruct (fails env (Some i) (opMkdir destDir f)); [done|].
  destruct (fails env (Some i) (opOpen f)); [done|].
  destruct (fails env (Some i) (opCreate destDir f)); [done|].
  destruct (fails env (Some i) (opCopy destDir f)); [done|].
  destruct (fails env (Some i) (opClose destDir f)); done.
Qed.

(** A worker that has reached the creation of its file has created the
    parent directory before, with success. *)
Lemma restore_parent_first env destDir i f (done_ops : list op) :
  done_ops `prefix_of` (restore env destDir i f).1 ->
  (exists o, o ∈ done_ops /\ o <> opMkdir destDir f) ->
  (exists more, done_ops = opMkdir destDir f :: more)
  /\ fails env (Some i) (opMkdir destDir f) = None.
Proof.
  unfold restore, from_Mkdir.
  destruct (ensureInside _ _).
  { intros [k Hk] (o & Ho & _). simpl in Hk. destruct done_ops; [|done].
    by apply elem_of_nil in Ho. }
  destruct (fails env (Some i) (opMkdir destDir f)); simpl.
  - intros [k Hk] (o & Ho & Hne). destruct done_ops as [|o1 [|o2 l]]; simpl in Hk.
    + by apply elem_of_nil in Ho.
    + injection Hk as <- _. apply list_elem_of_singleton in Ho. congruence.
    + done.
  - intros [k Hk] (o & Ho & _). destruct done_ops as [|o1 l]; simpl in Hk.
    + by apply elem_of_nil in Ho.
    + injection Hk as -> _. split; [by eexists|done].
Qed.

(** C8. In every state the pool can reach, under any schedule and for any
    number of entries: the workers between the acquire and the release of
    a permit are as many as the permits taken, at most [NumCPU], so at most
    [NumCPU] workers are inside the restore steps; a call on the
    destination tree is only made by a worker that holds a permit; and
    when all workers have finished, by whatever exit, every permit has been
    given back. *)
Theorem permits_bound_running_workers (env : Env) (destDir : string)
    (files : list File) (sched : list nat) :
  count_holding (pcs (run env destDir files sched (spawn files)))
    = sem (run env destDir files sched (spawn files))
  /\ (sem (run env destDir files sched (spawn files)) <= NumCPU env)%nat
  /\ (count_running (pcs (run env destDir files sched (spawn files)))
      <= NumCPU env)%nat
  /\ (forall i : nat,
        ptrace (run env destDir files (sched ++ [i]) (spawn files))
          <> ptrace (run env destDir files sched (spawn files)) ->
        exists p, pcs (run env destDir files sched (spawn files)) !! i = Some p
                  /\ holding p = true)
  /\ (all_finished (run env destDir files sched (spawn files)) = true ->
      sem (run env destDir files sched (spawn files)) = 0%nat).
Proof.
  destruct (permit_inv_run env destDir files sched) as [Hsem Hcap].
  split; [done|]. split; [done|]. split; [|split].
  - pose proof (count_running_le (pcs (run env destDir files sched (spawn files)))).
    lia.
  - intros i. rewrite run_snoc.
    destruct (pool_step env destDir files i _) as [st'|] eqn:Hs; simpl; [|done].
    intros Hne. by eapply step_calls_holding.
  - intros Hfin. rewrite Hsem. by apply count_holding_finished.
Qed.

(** ** C2: entries that leave the destination *)

(** C2 on the code.  With the destination [..], the entry [../evil] has
    the target [../../evil], a file in the parent directory of the
    destination: relative to the destination it is [../evil].
    [ensureInside] accepts it all the same, because the cleaned target
    begins with the cleaned destination followed by a separator, [../];
    the file is created and written outside the destination, and the
    operation returns no error. *)
Theorem dotdot_destination_lets_entry_escape :
  Join ".." "../evil" = "../../evil"
  /\ Rel ".." "../../evil" = ("../evil", None)
  /\ Dir "../../evil" = Join ".." ".."
  /\ ensureInside ".." (Join ".." "../evil") = None
  /\ UnzipParallelAll (SimZip.env_of SimZip.arch_evil 1 []) (SimZip.round_robin 1 12)
       "a.zip" ".."
     = ([ (None, OpMkdirAll ".." 0x1ED);
          (Some 0%nat, OpMkdirAll "../.." 0x1ED);
          (Some 0%nat, OpOpenEntry "../evil");
          (Some 0%nat, OpOpenFile "../../evil" 0x241 0x1A4);
          (Some 0%nat, OpCopy "../../evil" [Byte.x62]);
          (Some 0%nat, OpClose "../../evil");
          (Some 0%nat, OpChtimes "../../evil" 9) ],
        Returned None).
Proof. repeat split; vm_compute; reflexivity. Qed.

(** A name with a parent-directory segment need not leave the destination:
    [a/../b] stays inside, the entry is unpacked to [out/b] and the
    operation returns no error. *)
Lemma dotdot_inside_is_unpacked :
  ".." ∈ segments "a/../b"
  /\ UnzipParallelAll (SimZip.env_of SimZip.arch_dotdot_inside 1 [])
       (SimZip.round_robin 1 12) "a.zip" "out"
     = ([ (None, OpMkdirAll "out" 0x1ED);
          (Some 0%nat, OpMkdirAll "out" 0x1ED);
          (Some 0%nat, OpOpenEntry "a/../b");
          (Some 0%nat, OpOpenFile "out/b" 0x241 0x1A4);
          (Some 0%nat, OpCopy "out/b" [Byte.x61]);
          (Some 0%nat, OpClose "out/b");
          (Some 0%nat, OpChtimes "out/b" 9) ],
        Returned None).
Proof.
  split; [|vm_compute; reflexivity].
  refine (bool_decide_unpack _ _). vm_compute. reflexivity.
Qed.

(** X17. When the archive holds an entry whose destination path, joined
    to the root and cleaned, is refused by [ensureInside] (as [../evil] is
    for the destination [out]), then under every schedule: no call at all
    is made for that entry; every call made for an entry is made after
    [ensureInside] accepted that entry's path, and is the creation of that
    path as a directory or one of the calls of the restore body on it; the
    operation, once it returns, returns an error, and the refusal of some
    entry when no call fails; and every schedule can be extended so that
    the operation returns. *)
Theorem escaping_entry_is_refused (env : Env) (sched : list nat)
    (zipPath destDir : string) (files : list File) (k : nat) (f : File) :
  OpenReader env zipPath = inl files ->
  files !! k = Some f ->
  ensureInside destDir (Join destDir (f_Name f)) <> None ->
  (forall tr out, UnzipParallelAll env sched zipPath destDir = (tr, out) ->
     (forall o, (Some k, o) ∉ tr)
     /\ (forall j o, (Some j, o) ∈ tr ->
          exists g, files !! j = Some g
            /\ ensureInside destDir (Join destDir (f_Name g)) = None
            /\ (o = OpMkdirAll (Join destDir (f_Name g)) perm_0o755
                \/ o ∈ restore_calls destDir g))
     /\ (forall r, out = Returned r ->
          r <> None
          /\ ((forall c o, fails env c o = None) ->
              exists g, g ∈ files
                /\ ensureInside destDir (Join destDir (f_Name g)) <> None
                /\ r = Some ("zip slip detected: " +:+ Join destDir (f_Name g)))))
  /\ ((0 < NumCPU env)%nat ->
      exists more tr r,
        UnzipParallelAll env (sched ++ more) zipPath destDir = (tr, Returned r)).
Proof.
  intros Hopen Hk Hesc. split; [|by apply unzip_returns].
  intros tr out Hrun.
  assert (forall j o, (Some j, o) ∈ tr ->
            exists g, files !! j = Some g
              /\ ensureInside destDir (Join destDir (f_Name g)) = None
              /\ (o = OpMkdirAll (Join destDir (f_Name g)) perm_0o755
                  \/ o ∈ restore_calls destDir g)) as Hcalls.
  { intros j o Hin.
    destruct (unzip_trace_events _ _ _ _ _ _ _ _ _ Hopen Hrun Hin)
      as [Hroot|[(i & g & [= ->] & Hg & _ & Hgate & ->)|(i & g & [= ->] & Hg & _ & Hop)]].
    - discriminate Hroot.
    - exists g. auto.
    - apply restore_ops in Hop as [Hgate Hop]. exists g. auto. }
  split; [|split; [done|]].
  - intros o Hin. destruct (Hcalls k o Hin) as (g & Hg & Hgate & _).
    assert (g = f) as -> by congruence. done.
  - intros r ->.
    destruct (unzip_shape _ _ _ _ _ _ _ Hopen Hrun)
      as [(e & Hroot & _ & [= ->])|[(_ & tr0 & e & Hp & _ & [= ->])
                                   |(_ & tr0 & Hp & _ & Hout)]].
    + split; [done|]. intros Hnf. by rewrite Hnf in Hroot.
    + split; [done|]. intros Hnf.
      destruct (prepass_err_no_faults _ _ _ _ _ _ _ Hnf Hp) as (g & Hin & Hg).
      exists g. split; [done|]. unfold target in Hg. split; [congruence|].
      f_equal. by apply ensureInside_Some in Hg.
    + destruct (all_finished _) eqn:Hfin; [|done]. injection Hout as ->.
      destruct (finished_pool _ _ _ _ Hfin) as [Hdone Hslot].
      destruct (f_IsDir f) eqn:Hdir.
      { exfalso. apply Hesc. by eapply prepass_accepts. }
      destruct (restore_refused env destDir k f Hesc) as [_ Hfail].
      destruct (Hdone k f Hk Hdir) as [_ Hoffer].
      destruct (restore env destDir k f).2 as [e|] eqn:He; [|done].
      destruct (Hoffer e eq_refl) as [e' He']. rewrite He'. split; [done|].
      intros Hnf. destruct (Hslot e' He') as (i & g & Hg & _ & Hr).
      apply (restore_err_no_faults _ _ _ _ _ Hnf) in Hr. unfold target in Hr.
      exists g. split; [by eapply list_elem_of_lookup_2|]. split; [congruence|].
      f_equal. by apply ensureInside_Some in Hr.
Qed.

(** An archive with [ok.txt] and [../evil], unpacked into [out] by one
    worker at a time: an error is returned and no call is made for the
    second entry. *)
Lemma escaping_entry_is_refused_witness :
  Some "zip slip detected: evil" <> (None : option error)
  /\ forall o, (Some 1%nat, o) ∉ SimZip.trace_slip.
Proof.
  destruct (escaping_entry_is_refused (SimZip.env_of SimZip.arch_slip 1 [])
    (SimZip.round_robin 2 14) "a.zip" "out" SimZip.arch_slip 1
    (SimZip.fileEntry "../evil" 0x1A4 [Byte.x62])) as [H _].
  - reflexivity.
  - reflexivity.
  - vm_compute. discriminate.
  - destruct (H SimZip.trace_slip (Returned (Some "zip slip detected: evil")))
      as (Hnone & _ & Hret); [vm_compute; reflexivity|].
    split; [exact (proj1 (Hret _ eq_refl))|exact Hnone].
Defined.

(** ** C6: which error the unpack operation returns *)

(** C6, as stated, fails. A directory entry that leaves the destination
    makes the operation return an error from the sequential pass: no
    restore worker has failed, none has even started, and the file entry
    [a.txt], whose own restore does not fail, is not restored. *)
Lemma prepass_error_without_worker_failure :
  UnzipParallelAll (SimZip.env_of SimZip.arch_slip_dir 1 []) (SimZip.round_robin 2 12)
    "a.zip" "out"
  = ([(None, OpMkdirAll "out" 0x1ED)], Returned (Some "zip slip detected: evil"))
  /\ (restore (SimZip.env_of SimZip.arch_slip_dir 1 []) "out" 1
        (SimZip.fileEntry "a.txt" 0x1A4 [Byte.x61])).2 = None
  /\ f_IsDir <$> SimZip.arch_slip_dir = [true; false].
Proof. repeat split; vm_compute; reflexivity. Qed.

(** C6, amended. When the archive opens, the destination root is created
    and the sequential pass over the directory entries ends without error,
    the unpack operation, once all workers have finished, returns an error
    exactly when the restore of at least one file entry fails; the error
    returned is the error of one of those restores; and each file entry has
    had exactly the calls of its own restore made, all six of them when its
    restore does not fail.  Every schedule can be extended so that the
    operation returns.  (An error in opening the archive, creating the root
    or in the sequential pass is returned at once, with no worker started.) *)
Theorem unzip_error_iff_worker_failed (env : Env) (sched : list nat)
    (zipPath destDir : string) (files : list File) (tr0 : list (caller * op)) :
  OpenReader env zipPath = inl files ->
  not_ErrExist (fails env None (OpMkdirAll destDir perm_0o755)) = None ->
  prepass env destDir 0 files [rootCall destDir] = (tr0, None) ->
  (forall tr r, UnzipParallelAll env sched zipPath destDir = (tr, Returned r) ->
     (r <> None <->
        exists i f, files !! i = Some f /\ f_IsDir f = false
                    /\ (restore env destDir i f).2 <> None)
     /\ (forall e, r = Some e ->
          exists i f, files !! i = Some f /\ f_IsDir f = false
                      /\ (restore env destDir i f).2 = Some e)
     /\ (forall i f, files !! i = Some f -> f_IsDir f = false ->
          wops i tr = (restore env destDir i f).1
          /\ ((restore env destDir i f).2 = None ->
              wops i tr = restore_calls destDir f)))
  /\ ((0 < NumCPU env)%nat ->
      exists more tr r,
        UnzipParallelAll env (sched ++ more) zipPath destDir = (tr, Returned r)).
Proof.
  intros Hopen Hroot Hpre. split; [|by apply unzip_returns].
  intros tr r Hrun.
  destruct (unzip_shape _ _ _ _ _ _ _ Hopen Hrun)
    as [(e & Hroot' & _)|[(_ & tr1 & e & Hp & _)|(_ & tr1 & Hp & -> & Hout)]];
    [congruence|congruence|].
  assert (tr1 = tr0) as -> by congruence.
  destruct (all_finished _) eqn:Hfin; [|done]. injection Hout as ->.
  destruct (finished_pool _ _ _ _ Hfin) as [Hdone Hslot].
  split; [|split; [done|]].
  - split.
    + destruct (errOnce _) as [e|] eqn:He; [|done]. intros _.
      destruct (Hslot e eq_refl) as (i & f & Hf & Hdir & Hr).
      exists i, f. by rewrite Hr.
    + intros (i & f & Hf & Hdir & Hr). destruct (Hdone i f Hf Hdir) as [_ Hoffer].
      destruct (restore env destDir i f).2 as [e|] eqn:He; [|done].
      destruct (Hoffer e eq_refl) as [e' ->]. done.
  - intros i f Hf Hdir. destruct (Hdone i f Hf Hdir) as [Hops _].
    assert (wops i tr0 = []) as Hnone.
    { apply wops_none. intros o Hin.
      apply prepass_calls in Hpre as (more & -> & Hmore).
      apply elem_of_app in Hin as [Hin|Hin].
      - by apply list_elem_of_singleton in Hin.
      - destruct (Hmore _ _ Hin) as (k & g & [= ->] & Hg & Hgd & _).
        simpl in Hg. congruence. }
    rewrite wops_app, Hnone, Hops. split; [done|]. apply restore_ok.
Qed.

(** [arch1] unpacked on two processors when the destination file of its
    last entry cannot be created: that error is returned and the other
    file entry is restored in full. *)
Lemma unzip_error_iff_worker_failed_witness :
  wops 1 SimZip.trace_denied
  = restore_calls "out" (SimZip.fileEntry "t/a" 0x1A4 [Byte.x61])
  /\ exists i f, SimZip.arch1 !! i = Some f /\ f_IsDir f = false
       /\ (restore SimZip.env_denied "out" i f).2
          = Some "open out/t/d/b: permission denied".
Proof.
  destruct (unzip_error_iff_worker_failed SimZip.env_denied (SimZip.round_robin 3 12)
    "a.zip" "out" SimZip.arch1
    [(None, OpMkdirAll "out" 0x1ED); (Some 0%nat, OpMkdirAll "out/t" 0x1ED)])
    as [H _].
  - reflexivity.
  - vm_compute. reflexivity.
  - vm_compute. reflexivity.
  - destruct (H SimZip.trace_denied (Some "open out/t/d/b: permission denied"))
      as (_ & Herr & Hops); [vm_compute; reflexivity|].
    split.
    + refine (proj2 (Hops 1%nat _ _ _) _); [reflexivity|vm_compute; reflexivity..].
    + exact (Herr _ eq_refl).
Defined.

(** ** C10: permission bits and times *)

(** C10. Every directory is created, and with the permission bits 0o755.
    In every run the first call is the creation of the destination root
    with 0o755; every directory creation made (the root, a directory
    entry, the parent of a file entry) asks for 0o755; the permission bits
    and the modification time recorded in the archive only appear in the
    creation and the time stamping of the destination file of a file
    entry; the only call made for a directory entry is its creation with
    0o755; and a file entry that has made any call beyond the creation of
    its parent directory has made that creation first, with 0o755 and with
    success.  In a run that returns no error, nothing is left out: the
    root was created (or existed), every directory entry was created with
    0o755 (or existed), and every file entry made its six calls, the first
    of them the creation of its parent directory with 0o755, with its own
    permission bits in the creation of the file and its own time in the
    time stamping, none of the first five failing. *)
Theorem directories_created_with_0o755 (env : Env) (sched : list nat)
    (zipPath destDir : string) (files : list File)
    (tr : list (caller * op)) (out : outcome) :
  OpenReader env zipPath = inl files ->
  UnzipParallelAll env sched zipPath destDir = (tr, out) ->
  (exists rest, tr = (None, OpMkdirAll destDir perm_0o755) :: rest)
  /\ (forall c o, (c, o) ∈ tr ->
        match o with
        | OpMkdirAll _ perm => perm = perm_0o755
        | OpOpenFile path _ perm =>
            exists i f, c = Some i /\ files !! i = Some f /\ f_IsDir f = false
              /\ path = Join destDir (f_Name f) /\ perm = f_Mode f
        | OpChtimes path mtime =>
            exists i f, c = Some i /\ files !! i = Some f /\ f_IsDir f = false
              /\ path = Join destDir (f_Name f) /\ mtime = f_Modified f
        | _ => True
        end
        /\ (forall i f, c = Some i -> files !! i = Some f -> f_IsDir f = true ->
              o = OpMkdirAll (Join destDir (f_Name f)) perm_0o755))
  /\ (forall i f o, files !! i = Some f -> f_IsDir f = false ->
        (Some i, o) ∈ tr ->
        o <> OpMkdirAll (Dir (Join destDir (f_Name f))) perm_0o755 ->
        (exists more,
           wops i tr = OpMkdirAll (Dir (Join destDir (f_Name f))) perm_0o755 :: more)
        /\ fails env (Some i)
             (OpMkdirAll (Dir (Join destDir (f_Name f))) perm_0o755) = None)
  /\ (out = Returned None ->
      not_ErrExist (fails env None (OpMkdirAll destDir perm_0o755)) = None
      /\ (forall i f, files !! i = Some f -> f_IsDir f = true ->
            (Some i, OpMkdirAll (Join destDir (f_Name f)) perm_0o755) ∈ tr
            /\ not_ErrExist (fails env (Some i)
                  (OpMkdirAll (Join destDir (f_Name f)) perm_0o755)) = None)
      /\ (forall i f, files !! i = Some f -> f_IsDir f = false ->
            wops i tr
            = [ OpMkdirAll (Dir (Join destDir (f_Name f))) perm_0o755;
                OpOpenEntry (f_Name f);
                OpOpenFile (Join destDir (f_Name f)) O_CREATE_WRONLY_TRUNC (f_Mode f);
                OpCopy (Join destDir (f_Name f)) (f_data f);
                OpClose (Join destDir (f_Name f));
                OpChtimes (Join destDir (f_Name f)) (f_Modified f) ]
            /\ fails env (Some i)
                 (OpMkdirAll (Dir (Join destDir (f_Name f))) perm_0o755) = None
            /\ fails env (Some i)
                 (OpOpenFile (Join destDir (f_Name f)) O_CREATE_WRONLY_TRUNC (f_Mode f))
               = None
            /\ fails env (Some i) (OpOpenEntry (f_Name f)) = None
            /\ fails env (Some i) (OpCopy (Join destDir (f_Name f)) (f_data f)) = None
            /\ fails env (Some i) (OpClose (Join destDir (f_Name f))) = None)).
Proof.
  intros Hopen Hrun.
  assert (forall i f, files !! i = Some f -> f_IsDir f = false ->
            wops i tr `prefix_of` (restore env destDir i f).1) as Hprefix.
  { intros i f Hf Hdir.
    destruct (unzip_shape _ _ _ _ _ _ _ Hopen Hrun)
      as [(e & _ & -> & _)|[(_ & tr0 & e & Hp & -> & _)|(_ & tr0 & Hp & -> & _)]].
    - rewrite wops_none; [apply prefix_nil|].
      intros o Hin. by apply list_elem_of_singleton in Hin.
    - rewrite (prepass_no_file_calls _ _ _ _ _ _ _ Hp Hf Hdir). apply prefix_nil.
    - rewrite wops_app, (prepass_no_file_calls _ _ _ _ _ _ _ Hp Hf Hdir). simpl.
      destruct (pool_inv_run env destDir files sched) as (_ & Hw & _).
      pose proof (length_pcs_run env destDir files sched) as Hlen.
      destruct (lookup_lt_is_Some_2 (pcs (run env destDir files sched (spawn files))) i)
        as [p Hp'].
      { rewrite Hlen. by eapply lookup_lt_Some. }
      specialize (Hw i f p Hf Hp'). rewrite Hdir in Hw. destruct Hw as [<- _].
      by eexists. }
  split; [|split; [|split]].
  - destruct (unzip_shape _ _ _ _ _ _ _ Hopen Hrun)
      as [(e & _ & -> & _)|[(_ & tr0 & e & Hp & -> & _)|(_ & tr0 & Hp & -> & _)]].
    + by eexists.
    + apply prepass_calls in Hp as (more & -> & _). by eexists.
    + apply prepass_calls in Hp as (more & -> & _). by eexists.
  - intros c o Hin.
    destruct (unzip_trace_events _ _ _ _ _ _ _ _ _ Hopen Hrun Hin)
      as [[= -> ->]|[(i & f & -> & Hf & Hdir & _ & ->)|(i & f & -> & Hf & Hdir & Hop)]].
    + split; [done|]. by intros i f [=].
    + split; [done|]. intros i' f' [= <-] Hf' _. unfold target.
      assert (f' = f) as -> by congruence. done.
    + split; [|intros i' f' [= <-] Hf' Hdir'; congruence].
      apply restore_ops in Hop as [_ Hop]. unfold restore_calls in Hop.
      repeat (apply elem_of_cons in Hop as [->|Hop]); try done.
      * exists i, f. done.
      * exists i, f. done.
      * by apply elem_of_nil in Hop.
  - intros i f o Hf Hdir Hin Hne.
    apply (restore_parent_first env destDir i f (wops i tr)); [by apply Hprefix|].
    exists o. split; [by apply elem_of_wops|done].
  - intros ->.
    destruct (unzip_shape _ _ _ _ _ _ _ Hopen Hrun)
      as [(e & _ & _ & [=])|[(_ & tr0 & e & _ & _ & [=])|(Hroot & tr0 & Hp & -> & Hout)]].
    destruct (all_finished _) eqn:Hfin; [|done]. injection Hout as Hslot.
    destruct (finished_pool _ _ _ _ Hfin) as [Hdone _].
    split; [done|]. split.
    + intros i f Hf Hdir.
      destruct (prepass_creates _ _ _ _ _ _ Hp i f Hf Hdir) as [Hin Hok].
      split; [|done]. apply elem_of_app. by left.
    + intros i f Hf Hdir. destruct (Hdone i f Hf Hdir) as [Hops Hoffer].
      assert ((restore env destDir i f).2 = None) as Hnone.
      { destruct (restore env destDir i f).2 as [e|] eqn:He; [|done].
        destruct (Hoffer e eq_refl) as [e' He']. congruence. }
      rewrite wops_app, (prepass_no_file_calls _ _ _ _ _ _ _ Hp Hf Hdir), Hops.
      rewrite (restore_ok _ _ _ _ Hnone).
      apply restore_no_error in Hnone as (_ & ? & ? & ? & ? & ?).
      split; [done|]. done.
Qed.

(** [arch1] unpacked while the time of neither file can be set: the
    directory entry [t/] is created, and the entry [t/d/b] makes its six
    calls, the first of them the creation of [out/t/d]. *)
Lemma directories_created_with_0o755_witness :
  (Some 0%nat, OpMkdirAll "out/t" 0x1ED) ∈ SimZip.trace_times
  /\ wops 2 SimZip.trace_times
     = [ OpMkdirAll "out/t/d" 0x1ED; OpOpenEntry "t/d/b";
         OpOpenFile "out/t/d/b" 0x241 0x180; OpCopy "out/t/d/b" [Byte.x62];
         OpClose "out/t/d/b"; OpChtimes "out/t/d/b" 9 ].
Proof.
  destruct (directories_created_with_0o755 SimZip.env_times (SimZip.round_robin 3 12)
    "a.zip" "out" SimZip.arch1 SimZip.trace_times (Returned None))
    as (_ & _ & _ & Hall).
  - reflexivity.
  - vm_compute. reflexivity.
  - destruct (Hall eq_refl) as (_ & Hdirs & Hfiles). split.
    + exact (proj1 (Hdirs 0%nat (SimZip.dirEntry "t/") eq_refl eq_refl)).
    + exact (proj1 (Hfiles 2%nat (SimZip.fileEntry "t/d/b" 0x180 [Byte.x62])
                      eq_refl eq_refl)).
Defined.

End UnpackProofs.

(* ===================================================================== *)
(** * Further properties of the packer                                   *)
(* ===================================================================== *)

Module PackMore.
Import Pack.

(** ** [indexOf] *)

Lemma indexOf_from_absent (arr : list string) : forall (k : Z) (x : string),
  x ∉ arr -> indexOf_from k arr x = -1.
Proof.
  induction arr as [|v arr IH]; intros k x Hx; simpl; [done|].
  apply not_elem_of_cons in Hx as [Hne Hx].
  rewrite bool_decide_eq_false_2 by done. by apply IH.
Qed.

Lemma indexOf_from_first (arr : list string) : forall (k : Z) (x : string),
  x ∈ arr ->
  exists i : nat, indexOf_from k arr x = k + Z.of_nat i
    /\ arr !! i = Some x
    /\ forall j : nat, (j < i)%nat -> arr !! j <> Some x.
Proof.
  induction arr as [|v arr IH]; intros k x Hx; [by apply elem_of_nil in Hx|].
  simpl. case_bool_decide as Hv.
  - exists 0%nat. split; [lia|]. split; [by subst|]. intros j Hj. lia.
  - apply elem_of_cons in Hx as [->|Hx]; [done|].
    destruct (IH (k + 1) x Hx) as (i & Hi & Hlk & Hfirst).
    exists (S i). split; [lia|]. split; [done|].
    intros [|j] Hj; simpl; [congruence|]. apply Hfirst. lia.
Qed.

(** X1. [indexOf] returns -1 exactly for a string that is not in the
    slice; for one that is, it returns the position of its first
    occurrence, a valid index. *)
Theorem indexOf_first_occurrence (arr : list string) (x : string) :
  (indexOf arr x = -1 <-> x ∉ arr)
  /\ (x ∈ arr ->
      exists i : nat, indexOf arr x = Z.of_nat i
        /\ (i < length arr)%nat
        /\ arr !! i = Some x
        /\ forall j : nat, (j < i)%nat -> arr !! j <> Some x).
Proof.
  unfold indexOf. split.
  - split; [|apply indexOf_from_absent].
    intros Hm Hin. destruct (indexOf_from_first arr 0 x Hin) as (i & Hi & _). lia.
  - intros Hin. destruct (indexOf_from_first arr 0 x Hin) as (i & Hi & Hlk & Hfirst).
    exists i. split; [lia|]. split; [by eapply lookup_lt_Some|done].
Qed.

(** ** Where the errors of the packer come from *)

Lemma drain_go_error env (fuel : nat) : forall st st' e,
  drain_go env fuel st = (st', Some e) ->
  exists k r z, pending st !! k = Some r /\ commit env z r = (zw st', Some e).
Proof.
  induction fuel as [|fuel IH]; intros st st' e; simpl; [done|].
  destruct (pending st !! next st) as [r2|] eqn:Hr2; [|done].
  destruct (commit env (zw st) r2) as [z1 [e1|]] eqn:Hc.
  - intros [= <- <-]. exists (next st), r2, (zw st). by split.
  - intros Hrest. apply IH in Hrest as (k & r & z & Hk & Hf). simpl in Hk.
    apply lookup_delete_Some in Hk as [_ Hk]. eauto.
Qed.

Lemma drain_go_pending env (fuel : nat) : forall st st' e k r,
  drain_go env fuel st = (st', e) ->
  pending st' !! k = Some r -> pending st !! k = Some r.
Proof.
  induction fuel as [|fuel IH]; intros st st' e k r; simpl; [by intros [= <- _]|].
  destruct (pending st !! next st) as [r2|] eqn:Hr2; [|by intros [= <- _]].
  destruct (commit env (zw st) r2) as [z1 [e1|]] eqn:Hc; [by intros [= <- _]|].
  intros Hrest Hk. eapply IH in Hrest; [|done]. simpl in Hrest.
  by apply lookup_delete_Some in Hrest as [_ ?].
Qed.

Lemma writer_loop_error env (arrival : list result) : forall st st' e,
  writer_loop env arrival st = (st', Some e) ->
  exists r z, (r ∈ arrival \/ exists k, pending st !! k = Some r)
              /\ commit env z r = (zw st', Some e).
Proof.
  induction arrival as [|r arrival IH]; intros st st' e; cbn [writer_loop].
  - destruct (drain env st) as [st1 [e1|]] eqn:Hd.
    + intros [= <- <-]. apply drain_go_error in Hd as (k & r & z & Hk & Hf). eauto 6.
    + intros Hd2. apply drain_go_error in Hd2 as (k & r & z & Hk & Hf).
      exists r, z. split; [|done]. right. exists k. by eapply drain_go_pending.
  - destruct (drain env st) as [st1 [e1|]] eqn:Hd.
    { intros [= <- <-]. apply drain_go_error in Hd as (k & r' & z & Hk & Hf). eauto 6. }
    pose proof (fun k r => drain_go_pending _ _ _ _ _ k r Hd) as Hsub.
    case_bool_decide.
    + destruct (commit env (zw st1) r) as [z1 [e1|]] eqn:Hc.
      { intros [= <- <-]. exists r, (zw st1). split; [left; left|done]. }
      destruct (drain env (mkW (next st1 + 1) (pending st1) z1)) as [st2 [e2|]] eqn:Hd2.
      { intros [= <- <-]. apply drain_go_error in Hd2 as (k & r' & z & Hk & Hf).
        exists r', z. split; [right; exists k; by apply Hsub|done]. }
      intros Hrest. apply IH in Hrest as (r' & z & [Hin|[k Hk]] & Hf).
      * exists r', z. split; [left; by right|done].
      * exists r', z. split; [|done]. right. exists k. apply Hsub.
        by eapply (drain_go_pending _ _ _ _ _ k r' Hd2).
    + intros Hrest. apply IH in Hrest as (r' & z & [Hin|[k Hk]] & Hf).
      * exists r', z. split; [left; by right|done].
      * simpl in Hk. apply lookup_insert_Some in Hk as [[_ <-]|[_ Hk]].
        -- exists r, z. split; [left; left|done].
        -- exists r', z. split; [right; exists k; by apply Hsub|done].
Qed.

Lemma prepared_commit_error env src baseDir paths p z z' e :
  commit env z (prepare env src baseDir paths p) = (z', Some e) ->
  os_Stat env p = inr e
  \/ os_Open env p = inr e
  \/ (exists f, os_Open env p = inl f /\ f.2 = Some e)
  \/ (exists h, hdr (prepare env src baseDir paths p) = Some h
                /\ z' = z /\ CreateHeader_err env z h = Some e).
Proof.
  unfold commit, writeOne, CreateHeader, prepare.
  destruct (os_Stat env p) as [st|e0] eqn:Hst; simpl.
  2:{ intros [= _ <-]. by left. }
  destruct (fi_IsDir st); simpl.
  - destruct (negb _); simpl; [|done].
    destruct (CreateHeader_err env z _) as [e1|] eqn:Hh; [|done].
    intros [= <- <-]. do 3 right. eauto.
  - destruct (CreateHeader_err env z _) as [e1|] eqn:Hh.
    { intros [= <- <-]. do 3 right. eauto. }
    rewrite PackProofs.write_last_snoc. unfold writeFn.
    destruct (os_Open env p) as [f|e1] eqn:Hop; simpl.
    + intros [= _ Hrd]. do 2 right. left. eauto.
    + intros [= _ <-]. right. by left.
Qed.

Lemma prepared_write_has_header env src baseDir paths p :
  write (prepare env src baseDir paths p) <> None ->
  hdr (prepare env src baseDir paths p) <> None.
Proof.
  unfold prepare. destruct (os_Stat env p) as [st|e]; [|done].
  destruct (fi_IsDir st); [by destruct (negb _)|done].
Qed.

Lemma not_ErrExist_inv (r : option error) (e : error) :
  not_ErrExist r = Some e -> r = Some e /\ errors_Is e ErrExist = false.
Proof.
  destruct r as [e0|]; simpl; [|done].
  destruct (errors_Is e0 ErrExist) eqn:His; simpl; [done|]. by intros [= <-].
Qed.

(** X2. The packer makes up no error of its own.  Whatever error
    [ZipParallelAll] returns was handed to it by a call it made with the
    arguments of this run: the [os.Stat] of the cleaned source, the
    [os.MkdirAll] of the directory of the archive (and then it is not
    [ErrExist]), the walk of the source, the [os.Create] of the archive,
    for a path that the walk collected its [os.Stat], the opening or the
    reading of that file, or the [CreateHeader] of the header prepared for
    it on the container that the run leaves behind, or one of the two
    closings.  The results may reach the writing loop in any order, more
    than once or not at all.  And among the results the loop is given, a
    content function never comes without a header, so [writeOne] never
    calls [CreateHeader] on a nil header. *)
Theorem pack_error_comes_from_a_call (env : Env)
    (deliver : list result -> list result) (src zipPath : string) :
  (forall l r, r ∈ deliver l -> r ∈ l) ->
  (forall archive e,
     ZipParallelAll env deliver src zipPath = (archive, Some e) ->
     call_error env src zipPath archive e)
  /\ (forall info paths r,
        r ∈ deliver (prepare_all env (Clean src) info paths) ->
        write r <> None -> hdr r <> None).
Proof.
  intros Hdel. split.
  2:{ intros info paths r Hin. apply Hdel in Hin. unfold prepare_all in Hin.
      apply list_elem_of_fmap in Hin as (p & -> & _).
      apply prepared_write_has_header. }
  intros archive e. unfold ZipParallelAll, call_error. cbv zeta.
  generalize (Clean src). intros src'.
  destruct (os_Stat env src') as [info|e0] eqn:Hst.
  2:{ intros [= _ <-]. by left. }
  destruct (not_ErrExist _) as [e0|] eqn:Hmk.
  { intros [= _ <-]. right. left. by apply not_ErrExist_inv. }
  destruct (WalkDir env src') as [walked [e1|]] eqn:Hwalk.
  { intros [= _ <-]. do 2 right. by left. }
  destruct (os_Create env zipPath) as [e1|] eqn:Hcr.
  { intros [= _ <-]. do 3 right. by left. }
  destruct (writer_loop env _ _) as [st [e1|]] eqn:Hloop; simpl.
  - intros [= <- <-]. apply writer_loop_error in Hloop as (r & z & [Hin|[k Hk]] & Hf).
    2:{ simpl in Hk. by rewrite lookup_empty in Hk. }
    apply Hdel in Hin. unfold prepare_all in Hin.
    apply list_elem_of_fmap in Hin as (p & -> & Hp).
    rewrite PackProofs.sort_Strings_perm in Hp.
    do 4 right. left. exists p. split; [done|].
    apply prepared_commit_error in Hf as [?|[?|[?|(h & Hh & Hz & Hc)]]]; auto.
    do 3 right. exists info, (zw st), h. by subst z.
  - destruct (zw_Close env) as [e1|] eqn:Hzc.
    { intros [= _ <-]. do 5 right. by left. }
    intros [= _ Hoc]. do 6 right. done.
Qed.

(** [tree2], whose file [/srv/u/a] cannot be opened. *)
Lemma pack_error_comes_from_a_call_witness :
  call_error (SimFS.env_of SimFS.tree2 100) "/srv/u" "out.zip"
    (Some [ (mkFileHeader "u/" Store 100 0 0, []);
            (mkFileHeader "u/a" Deflate 100 0 0, []) ])
    "open /srv/u/a: permission denied".
Proof.
  refine (proj1 (pack_error_comes_from_a_call (SimFS.env_of SimFS.tree2 100)
    (@reverse _) "/srv/u" "out.zip" _) _ _ _).
  - intros l r Hin. exact (proj1 (elem_of_reverse _ _) Hin).
  - vm_compute. reflexivity.
Defined.

(** ** Where the entries of the archive come from *)

Lemma land_perm_bounds (m : Z) : 0 <= mode_Perm m <= 0x1FF.
Proof.
  unfold mode_Perm, ModePerm.
  assert (Z.land m 0x1FF = m mod 512) as ->
    by (change 512 with (2 ^ 9); rewrite <- (Z.land_ones m 9) by lia; reflexivity).
  pose proof (Z.mod_pos_bound m 512). lia.
Qed.

Lemma commit_entry env z r z' e :
  commit env z r = (z', e) -> z' = z \/ z' = z ++ entry_of r.
Proof.
  unfold commit, writeOne, CreateHeader, entry_of, written_hdr.
  destruct (err r); [intros [= <- _]; by left|].
  destruct (hdr r) as [h|], (write r) as [wr|]; simpl.
  - destruct (CreateHeader_err env z h); [intros [= <- _]; by left|].
    rewrite PackProofs.write_last_snoc. intros [= <- _]. by right.
  - destruct (CreateHeader_err env z h); [intros [= <- _]; by left|].
    intros [= <- _]. by right.
  - intros [= <- _]. by left.
  - intros [= <- _]. by left.
Qed.

(** An entry is in the container at the start, or it is the entry of a
    result that is pending or still to arrive. *)
Definition entry_from (st : wstate) (arrival : list result)
    (x : FileHeader * list Byte.byte) : Prop :=
  x ∈ zw st
  \/ exists r, (r ∈ arrival \/ exists k, pending st !! k = Some r) /\ x ∈ entry_of r.

Lemma commit_entry_from env z r z' e x :
  commit env z r = (z', e) -> x ∈ z' -> x ∈ z \/ x ∈ entry_of r.
Proof.
  intros Hc Hx. apply commit_entry in Hc as [->| ->]; [by left|].
  by apply elem_of_app in Hx.
Qed.

Lemma drain_go_entries env (fuel : nat) : forall st st' e x,
  drain_go env fuel st = (st', e) -> x ∈ zw st' -> entry_from st [] x.
Proof.
  induction fuel as [|fuel IH]; intros st st' e x; simpl; [intros [= <- _]; by left|].
  destruct (pending st !! next st) as [r2|] eqn:Hr2; [|intros [= <- _]; by left].
  destruct (commit env (zw st) r2) as [z1 [e1|]] eqn:Hc.
  - intros [= <- _] Hx. simpl in Hx.
    destruct (commit_entry_from _ _ _ _ _ _ Hc Hx) as [?|?]; [by left|].
    right. exists r2. split; [right; eauto|done].
  - intros Hrest Hx. destruct (IH _ _ _ _ Hrest Hx) as [Hz|(r & [Hin|[k Hk]] & Hr)].
    + simpl in Hz. destruct (commit_entry_from _ _ _ _ _ _ Hc Hz) as [?|?]; [by left|].
      right. exists r2. split; [right; eauto|done].
    + by apply elem_of_nil in Hin.
    + simpl in Hk. apply lookup_delete_Some in Hk as [_ Hk].
      right. exists r. split; [right; eauto|done].
Qed.

Lemma entry_from_mono (st st1 : wstate) (arrival arrival1 : list result) x :
  (forall y, y ∈ zw st1 -> entry_from st arrival y) ->
  (forall r, r ∈ arrival1 -> r ∈ arrival \/ exists k, pending st !! k = Some r) ->
  (forall k r, pending st1 !! k = Some r ->
     r ∈ arrival \/ exists k', pending st !! k' = Some r) ->
  entry_from st1 arrival1 x -> entry_from st arrival x.
Proof.
  intros Hz Ha Hp [Hx|(r & [Hin|[k Hk]] & Hr)]; [by apply Hz| |].
  - right. exists r. split; [by apply Ha|done].
  - right. exists r. split; [by eapply Hp|done].
Qed.

Lemma writer_loop_entries env (arrival : list result) : forall st st' e x,
  writer_loop env arrival st = (st', e) -> x ∈ zw st' -> entry_from st arrival x.
Proof.
  induction arrival as [|r arrival IH]; intros st st' e x; cbn [writer_loop].
  - destruct (drain env st) as [st1 [e1|]] eqn:Hd.
    + intros [= <- _]. by eapply drain_go_entries.
    + intros Hd2 Hx. apply (drain_go_entries _ _ _ _ _ _ Hd2) in Hx.
      revert Hx. apply entry_from_mono.
      * intros y. by eapply drain_go_entries.
      * by intros r0 ?%elem_of_nil.
      * intros k r0 Hk. right. exists k. by eapply drain_go_pending.
  - destruct (drain env st) as [st1 [e1|]] eqn:Hd.
    { intros [= <- _] Hx. apply (drain_go_entries _ _ _ _ _ _ Hd) in Hx.
      revert Hx. apply entry_from_mono; [by left|by intros r0 ?%elem_of_nil|eauto]. }
    assert (forall y, entry_from st1 (r :: arrival) y -> entry_from st (r :: arrival) y)
      as Hback.
    { intros y. apply entry_from_mono.
      - intros y' Hy'. apply (drain_go_entries _ _ _ _ _ _ Hd) in Hy'.
        revert Hy'. apply entry_from_mono; [by left|by intros r0 ?%elem_of_nil|eauto].
      - intros r0 ?. by left.
      - intros k r0 Hk. right. exists k. by eapply drain_go_pending. }
    case_bool_decide.
    + destruct (commit env (zw st1) r) as [z1 [e1|]] eqn:Hc.
      { intros [= <- _] Hx. simpl in Hx. apply Hback.
        destruct (commit_entry_from _ _ _ _ _ _ Hc Hx) as [?|?]; [by left|].
        right. exists r. split; [left; left|done]. }
      assert (forall y, y ∈ z1 -> entry_from st1 (r :: arrival) y) as Hz1.
      { intros y Hy. destruct (commit_entry_from _ _ _ _ _ _ Hc Hy) as [?|?]; [by left|].
        right. exists r. split; [left; left|done]. }
      destruct (drain env (mkW (next st1 + 1) (pending st1) z1)) as [st2 [e2|]] eqn:Hd2.
      { intros [= <- _] Hx. apply Hback.
        apply (drain_go_entries _ _ _ _ _ _ Hd2) in Hx. revert Hx.
        apply entry_from_mono; [done|by intros r0 ?%elem_of_nil|eauto]. }
      intros Hrest Hx. apply Hback. apply (IH _ _ _ _ Hrest) in Hx. revert Hx.
      apply entry_from_mono.
      * intros y Hy. apply (drain_go_entries _ _ _ _ _ _ Hd2) in Hy. revert Hy.
        apply entry_from_mono; [done|by intros r0 ?%elem_of_nil|eauto].
      * intros r0 ?. left. by right.
      * intros k r0 Hk. right. exists k.
        by apply (drain_go_pending _ _ _ _ _ k r0 Hd2).
    + intros Hrest Hx. apply Hback. apply (IH _ _ _ _ Hrest) in Hx. revert Hx.
      apply entry_from_mono.
      * intros y Hy. by left.
      * intros r0 ?. left. by right.
      * intros k r0 Hk. simpl in Hk.
        apply lookup_insert_Some in Hk as [[_ <-]|[_ Hk]]; [left; left|eauto].
Qed.

Lemma append_empty_r (s : string) : s +:+ "" = s.
Proof.
  induction s as [|c s IH]; [done|].
  change (String c (s +:+ "") = String c s). by rewrite IH.
Qed.

Lemma prepared_entry env src baseDir paths p h data :
  (h, data) ∈ entry_of (prepare env src baseDir paths p) ->
  exists st, os_Stat env p = inl st
    /\ Modified h = time_Now env p
    /\ UncompressedSize64 h = Z.of_nat (length data)
    /\ 0 <= hMode h <= 0x1FF
    /\ Name h = toZipPath (relInside src baseDir p) +:+ (if fi_IsDir st then "/" else "")
    /\ (if fi_IsDir st then Method h = Store /\ data = []
        else Method h = Deflate /\ hMode h = mode_Perm (fi_Mode st)
             /\ match os_Open env p with
                | inl f => data = f.1
                | inr _ => data = []
                end).
Proof.
  unfold entry_of, written_hdr, prepare.
  destruct (os_Stat env p) as [st|e]; [|by intros ?%elem_of_nil].
  destruct (fi_IsDir st) eqn:Hdir.
  - destruct (negb _); simpl; [|by intros ?%elem_of_nil].
    intros [= -> ->]%list_elem_of_singleton. exists st. rewrite Hdir. simpl.
    split; [done|]. split; [done|]. split; [done|]. split; [lia|]. done.
  - simpl. intros [= -> ->]%list_elem_of_singleton. exists st. rewrite Hdir. simpl.
    split; [done|]. split; [done|]. split; [done|].
    split; [apply land_perm_bounds|]. split; [|split; [done|]]; [|split; [done|]].
    + by rewrite append_empty_r.
    + unfold writeFn. by destruct (os_Open env p).
Qed.

(** X3. The archive holds nothing but what was prepared for the collected
    paths.  In whatever order, and however often, the results reach the
    writing loop, every entry of the archive that [ZipParallelAll] leaves
    behind, with or without an error, belongs to a path [p] that the walk
    collected and whose [os.Stat] succeeded: its name is the relative name
    of [p] in slash form (with a final [/] for a directory), its time is
    the clock reading taken for [p], its size is the number of bytes it
    holds, its permission bits lie within [0o777]; a directory entry has
    the method [Store] and no content; a file entry has the method
    [Deflate], the permission bits of the file and the bytes that the
    opened file delivered, or none if it could not be opened. *)
Theorem archive_entries_come_from_paths (env : Env)
    (deliver : list result -> list result) (src zipPath : string)
    (archive : zipWriter) (e : option error) (h : FileHeader)
    (data : list Byte.byte) :
  (forall l r, r ∈ deliver l -> r ∈ l) ->
  ZipParallelAll env deliver src zipPath = (Some archive, e) ->
  (h, data) ∈ archive ->
  exists info p st,
    os_Stat env (Clean src) = inl info
    /\ p ∈ (WalkDir env (Clean src)).1
    /\ os_Stat env p = inl st
    /\ Modified h = time_Now env p
    /\ UncompressedSize64 h = Z.of_nat (length data)
    /\ 0 <= hMode h <= 0x1FF
    /\ Name h = toZipPath (relInside (Clean src)
                             (if fi_IsDir info then Base (Clean src) else "") p)
                +:+ (if fi_IsDir st then "/" else "")
    /\ (if fi_IsDir st then Method h = Store /\ data = []
        else Method h = Deflate /\ hMode h = mode_Perm (fi_Mode st)
             /\ match os_Open env p with
                | inl f => data = f.1
                | inr _ => data = []
                end).
Proof.
  intros Hdel. unfold ZipParallelAll. cbv zeta.
  generalize (Clean src). intros src'.
  destruct (os_Stat env src') as [info|e0] eqn:Hst; [|done].
  destruct (not_ErrExist _); [done|].
  destruct (WalkDir env src') as [walked [e1|]] eqn:Hwalk; [done|].
  destruct (os_Create env zipPath); [done|].
  destruct (writer_loop env _ _) as [st e1] eqn:Hloop.
  intros Hfin Hx.
  assert (archive = zw st) as ->.
  { unfold finalize in Hfin. destruct e1; [congruence|].
    destruct (zw_Close env); congruence. }
  destruct (writer_loop_entries _ _ _ _ _ _ Hloop Hx) as [Hz|(r & [Hin|[k Hk]] & Hr)].
  - by apply elem_of_nil in Hz.
  - apply Hdel in Hin. unfold prepare_all in Hin.
    apply list_elem_of_fmap in Hin as (p & -> & Hp).
    rewrite PackProofs.sort_Strings_perm in Hp.
    apply prepared_entry in Hr as (st0 & ? & ? & ? & ? & ? & ?).
    exists info, p, st0. done.
  - simpl in Hk. by rewrite lookup_empty in Hk.
Qed.

(** The entry of [/srv/u/a], which could not be opened, in what is left of
    the archive of [tree2]. *)
Lemma archive_entries_come_from_paths_witness :
  exists p st,
    os_Stat (SimFS.env_of SimFS.tree2 100) p = inl st
    /\ UncompressedSize64 (mkFileHeader "u/a" Deflate 100 0 0) = Z.of_nat (length (@nil Byte.byte))
    /\ Name (mkFileHeader "u/a" Deflate 100 0 0)
       = toZipPath (relInside "/srv/u" "u" p) +:+ (if fi_IsDir st then "/" else "").
Proof.
  destruct (archive_entries_come_from_paths (SimFS.env_of SimFS.tree2 100)
    (@reverse _) "/srv/u" "out.zip"
    [ (mkFileHeader "u/" Store 100 0 0, []);
      (mkFileHeader "u/a" Deflate 100 0 0, []) ]
    (Some "open /srv/u/a: permission denied")
    (mkFileHeader "u/a" Deflate 100 0 0) [])
    as (info & p & st & Hinfo & _ & Hst & _ & Hsize & _ & Hname & _).
  - intros l r Hin. exact (proj1 (elem_of_reverse _ _) Hin).
  - vm_compute. reflexivity.
  - right. left.
  - exists p, st. split; [exact Hst|]. split; [exact Hsize|].
    assert (info = SimFS.info_of "/srv/u" (SimFS.Directory 0x1ED 10)) as ->
      by (vm_compute in Hinfo; by injection Hinfo as <-).
    exact Hname.
Defined.

(** ** The container only grows *)

Lemma commit_prefix env z r z' e : commit env z r = (z', e) -> z `prefix_of` z'.
Proof.
  unfold commit, writeOne, CreateHeader.
  destruct (err r); [by intros [= <- _]|].
  destruct (hdr r) as [h|], (write r) as [wr|]; simpl.
  - destruct (CreateHeader_err env z h); [by intros [= <- _]|].
    rewrite PackProofs.write_last_snoc. intros [= <- _]. by eexists.
  - destruct (CreateHeader_err env z h); [by intros [= <- _]|].
    intros [= <- _]. by eexists.
  - by intros [= <- _].
  - by intros [= <- _].
Qed.

Lemma drain_go_prefix env (fuel : nat) : forall st st' e,
  drain_go env fuel st = (st', e) -> zw st `prefix_of` zw st'.
Proof.
  induction fuel as [|fuel IH]; intros st st' e; simpl; [by intros [= <- _]|].
  destruct (pending st !! next st) as [r2|]; [|by intros [= <- _]].
  destruct (commit env (zw st) r2) as [z1 [e1|]] eqn:Hc.
  - intros [= <- _]. simpl. by eapply commit_prefix.
  - intros Hrest. apply IH in Hrest. simpl in Hrest.
    etrans; [by eapply commit_prefix|done].
Qed.

(** X4. The writing loop only ever appends to the container: from any
    state and for any values received, the entries that were in the
    container when the loop started are still there, unchanged and in the
    same positions, when it ends, with or without an error. *)
Theorem container_is_append_only (env : Env) (arrival : list result) (st : wstate) :
  zw st `prefix_of` zw (writer_loop env arrival st).1.
Proof.
  revert st. induction arrival as [|r arrival IH]; intros st; cbn [writer_loop].
  - destruct (drain env st) as [st1 [e|]] eqn:Hd; simpl.
    + by eapply drain_go_prefix.
    + destruct (drain env st1) as [st2 e2] eqn:Hd2. simpl.
      etrans; [by eapply drain_go_prefix|by eapply drain_go_prefix].
  - destruct (drain env st) as [st1 [e|]] eqn:Hd; simpl.
    { by eapply drain_go_prefix. }
    apply drain_go_prefix in Hd. case_bool_decide.
    + destruct (commit env (zw st1) r) as [z1 [e1|]] eqn:Hc; simpl.
      { etrans; [done|by eapply commit_prefix]. }
      apply commit_prefix in Hc.
      destruct (drain env (mkW (next st1 + 1) (pending st1) z1)) as [st2 [e2|]] eqn:Hd2;
        apply drain_go_prefix in Hd2; simpl in *.
      * etrans; [done|]. etrans; done.
      * etrans; [done|]. etrans; [done|]. etrans; [done|]. apply IH.
    + etrans; [done|]. apply (IH (mkW _ _ _)).
Qed.

(** ** What a successful packing has stored *)

Lemma commit_write_ok env z r z' :
  commit env z r = (z', None) ->
  forall wr, write r = Some wr -> (wr []).2 = None.
Proof.
  unfold commit, writeOne, CreateHeader. destruct (err r); [done|].
  destruct (hdr r) as [h|], (write r) as [wr0|]; simpl; try done.
  - destruct (CreateHeader_err env z h); [done|].
    rewrite PackProofs.write_last_snoc. by intros [= _ ?] wr [= <-].
Qed.

Lemma commit_in_order_success env (rs : list result) : forall z z' r,
  commit_in_order env rs z = (z', None) -> r ∈ rs ->
  err r = None
  /\ (forall wr, write r = Some wr -> (wr []).2 = None)
  /\ (forall x, x ∈ entry_of r -> x ∈ z').
Proof.
  induction rs as [|r0 rs IH]; intros z z' r; simpl; [by intros _ ?%elem_of_nil|].
  destruct (commit env z r0) as [z1 [e|]] eqn:Hc; [done|].
  intros Hrest Hin. apply elem_of_cons in Hin as [->|Hin]; [|by eapply IH].
  pose proof (commit_write_ok _ _ _ _ Hc) as Hw.
  apply PackProofs.commit_ok in Hc as [He ->].
  apply PackProofs.commit_in_order_ok in Hrest as [-> _].
  split; [done|]. split; [done|]. intros x Hx.
  apply elem_of_app. left. apply elem_of_app. by right.
Qed.

Lemma pack_success_commits env deliver src zipPath archive :
  (forall l, deliver l ≡ₚ l) ->
  NoDup (WalkDir env (Clean src)).1 ->
  ZipParallelAll env deliver src zipPath = (Some archive, None) ->
  exists info walked,
    os_Stat env (Clean src) = inl info
    /\ WalkDir env (Clean src) = (walked, None)
    /\ commit_in_order env
         (prepare_all env (Clean src) info (sort_Strings walked)) [] = (archive, None).
Proof.
  intros Hdel Hnd Hrun. rewrite PackProofs.ZipParallelAll_in_order in Hrun by done.
  apply PackProofs.pack_in_order_inv in Hrun as (info & walked & Hst & Hwalk & Hfin).
  exists info, walked. split; [done|]. split; [done|].
  destruct (commit_in_order env _ []) as [z e'] eqn:Hc.
  apply PackProofs.finalize_inv in Hfin as [Hz He]. simpl in *. subst z.
  by rewrite (He eq_refl).
Qed.

(** X5. When the packing returns no error, every path that was collected
    could be read: its [os.Stat] succeeded, and if it is a file, it was
    opened, read to its end without error, and the archive holds an entry
    with exactly the bytes read, under a header with the method [Deflate],
    the number of those bytes as size (not the size that [os.Stat] gave,
    should the two differ), the permission bits of the file and the clock
    reading as its time. *)
Theorem successful_pack_stores_every_file (env : Env)
    (deliver : list result -> list result) (src zipPath : string)
    (archive : zipWriter) (p : string) :
  (forall l, deliver l ≡ₚ l) ->
  NoDup (WalkDir env (Clean src)).1 ->
  ZipParallelAll env deliver src zipPath = (Some archive, None) ->
  p ∈ (WalkDir env (Clean src)).1 ->
  exists st, os_Stat env p = inl st
    /\ (fi_IsDir st = false ->
        exists h data,
          os_Open env p = inl (data, None)
          /\ (h, data) ∈ archive
          /\ Method h = Deflate
          /\ UncompressedSize64 h = Z.of_nat (length data)
          /\ hMode h = mode_Perm (fi_Mode st)
          /\ Modified h = time_Now env p).
Proof.
  intros Hdel Hnd Hrun Hp.
  destruct (pack_success_commits _ _ _ _ _ Hdel Hnd Hrun)
    as (info & walked & Hst & Hwalk & Hc).
  rewrite Hwalk in Hp. simpl in Hp.
  set (baseDir := if fi_IsDir info then Base (Clean src) else "") in *.
  destruct (commit_in_order_success _ _ _ _
              (prepare env (Clean src) baseDir (sort_Strings walked) p) Hc)
    as (Herr & Hwr & Hent).
  { unfold prepare_all. apply list_elem_of_fmap. exists p. split; [done|].
    by rewrite PackProofs.sort_Strings_perm. }
  revert Herr Hwr Hent. unfold prepare, entry_of, written_hdr.
  destruct (os_Stat env p) as [st|e]; [|done]. intros _ Hwr Hent.
  exists st. split; [done|]. intros Hfile. rewrite Hfile in Hwr, Hent.
  simpl in Hwr, Hent. specialize (Hwr _ eq_refl). unfold writeFn in Hwr, Hent.
  destruct (os_Open env p) as [[data rd]|e]; [|done].
  simpl in Hwr, Hent. subst rd. eexists _, data. split; [done|].
  split; [apply Hent; left|done].
Qed.

(** The file [/srv/t/d/b] in the archive of [tree1]. *)
Lemma successful_pack_stores_every_file_witness :
  exists st, os_Stat (SimFS.env_of SimFS.tree1 100) "/srv/t/d/b" = inl st
    /\ exists h, (h, [Byte.x62; Byte.x62]) ∈ SimFS.archive1 /\ hMode h = 0x180.
Proof.
  destruct (successful_pack_stores_every_file (SimFS.env_of SimFS.tree1 100)
    (@reverse _) "/srv/t" "out.zip" SimFS.archive1 "/srv/t/d/b")
    as (st & Hst & Hfile).
  - intros l. apply reverse_Permutation.
  - refine (bool_decide_unpack _ _). vm_compute. reflexivity.
  - vm_compute. reflexivity.
  - apply list_elem_of_In. vm_compute. tauto.
  - exists st. split; [exact Hst|].
    assert (st = SimFS.info_of "/srv/t/d/b" (SimFS.RegFile 0x180 12 [Byte.x62; Byte.x62]))
      as -> by (vm_compute in Hst; by injection Hst as <-).
    destruct Hfile as (h & data & Hopen & Hin & _ & _ & Hmode & _); [reflexivity|].
    assert (data = [Byte.x62; Byte.x62]) as ->
      by (vm_compute in Hopen; by injection Hopen as <-).
    exists h. split; [exact Hin|]. rewrite Hmode. reflexivity.
Defined.

(** X6. A directory is always given an entry of its own at the root of
    its archive: when the source is a directory that the walk hands over,
    a packing that returns no error has written the entry named after the
    last element of the source, followed by [/], with the method [Store],
    no permission bits and no content.  (The branch of the worker that
    sends a result without header for the root is not taken: the
    relative name of the root is that last element, never empty.) *)
Theorem root_entry_in_directory_archive (env : Env)
    (deliver : list result -> list result) (src zipPath : string)
    (info : FileInfo) (archive : zipWriter) :
  (forall l, deliver l ≡ₚ l) ->
  NoDup (WalkDir env (Clean src)).1 ->
  os_Stat env (Clean src) = inl info -> fi_IsDir info = true ->
  Clean src ∈ (WalkDir env (Clean src)).1 ->
  ZipParallelAll env deliver src zipPath = (Some archive, None) ->
  (mkFileHeader (Base (Clean src) +:+ "/") Store (time_Now env (Clean src)) 0 0, [])
    ∈ archive.
Proof.
  intros Hdel Hnd Hst Hdir Hp Hrun.
  destruct (pack_success_commits _ _ _ _ _ Hdel Hnd Hrun)
    as (info' & walked & Hst' & Hwalk & Hc).
  assert (info' = info) as -> by congruence.
  rewrite Hwalk in Hp. simpl in Hp. unfold prepare_all in Hc. rewrite Hdir in Hc.
  destruct (commit_in_order_success _ _ _ _
              (prepare env (Clean src) (Base (Clean src)) (sort_Strings walked)
                 (Clean src)) Hc)
    as (_ & _ & Hent).
  { apply list_elem_of_fmap. exists (Clean src).
    split; [done|]. by rewrite PackProofs.sort_Strings_perm. }
  apply Hent. rewrite (PackProofs.prepare_root_directory _ _ _ _ Hst Hdir).
  unfold entry_of. simpl. left.
Qed.

(** The folder [/srv/t] of [tree1]. *)
Lemma root_entry_in_directory_archive_witness :
  (mkFileHeader "t/" Store 100 0 0, []) ∈ SimFS.archive1.
Proof.
  refine (root_entry_in_directory_archive (SimFS.env_of SimFS.tree1 100) (@reverse _)
    "/srv/t" "out.zip" (SimFS.info_of "/srv/t" (SimFS.Directory 0x1ED 10))
    SimFS.archive1 _ _ _ _ _ _).
  - intros l. apply reverse_Permutation.
  - refine (bool_decide_unpack _ _). vm_compute. reflexivity.
  - vm_compute. reflexivity.
  - vm_compute. reflexivity.
  - vm_compute. left.
  - vm_compute. reflexivity.
Defined.

End PackMore.

(* ===================================================================== *)
(** * Further properties of the unpacker                                 *)
(* ===================================================================== *)

Module UnpackMore.
Import Unpack UnpackProofs.

(** ** The shared state only moves forward *)

Lemma worker_step_forward env destDir i f p st p' st' :
  worker_step env destDir i f p st = Some (p', st') ->
  p <> Finished
  /\ pcs st' = pcs st
  /\ ptrace st `prefix_of` ptrace st'
  /\ (forall e, errOnce st = Some e -> errOnce st' = Some e).
Proof.
  destruct p; simpl;
    try (destruct (ensureInside _ _));
    try (destruct (fails _ _ _));
    try case_bool_decide;
    intros [= <- <-]; simpl;
    (split; [done|]); (split; [done|]);
    (split; [first [reflexivity | by apply prefix_app_r]|]); try done.
  intros e0 ->. done.
Qed.

Lemma pool_step_forward env destDir files i st st' :
  pool_step env destDir files i st = Some st' ->
  ptrace st `prefix_of` ptrace st'
  /\ (forall e, errOnce st = Some e -> errOnce st' = Some e)
  /\ (forall j, pcs st !! j = Some Finished -> pcs st' !! j = Some Finished).
Proof.
  unfold pool_step.
  destruct (files !! i) as [f|]; [|done].
  destruct (pcs st !! i) as [p|] eqn:Hp; [|done].
  destruct (worker_step env destDir i f p st) as [[p' st1]|] eqn:Hw; [|done].
  intros [= <-]. simpl.
  apply worker_step_forward in Hw as (Hnf & Hpcs & Htr & Herr).
  split; [done|]. split; [done|].
  intros j Hj. rewrite Hpcs. destruct (decide (j = i)) as [->|Hne].
  - congruence.
  - by rewrite list_lookup_insert_ne.
Qed.

Lemma run_forward env destDir files (more : list nat) : forall st,
  ptrace st `prefix_of` ptrace (run env destDir files more st)
  /\ (forall e, errOnce st = Some e -> errOnce (run env destDir files more st) = Some e)
  /\ (forall j, pcs st !! j = Some Finished ->
        pcs (run env destDir files more st) !! j = Some Finished).
Proof.
  induction more as [|i more IH]; intros st; [done|].
  rewrite run_cons.
  destruct (pool_step env destDir files i st) as [st1|] eqn:Hs; simpl; [|apply IH].
  apply pool_step_forward in Hs as (Htr & Herr & Hfin).
  destruct (IH st1) as (Htr' & Herr' & Hfin').
  split; [by etrans|]. split; [by auto|by auto].
Qed.

(** X7. Whatever the workers do next, nothing already done is undone:
    the calls made so far stay, in their order, at the head of the calls
    made later; an error once put into the one-slot channel [errOnce] is
    never replaced by a later one; and a worker that has finished does not
    start again. *)
Theorem pool_moves_forward (env : Env) (destDir : string) (files : list File)
    (sched more : list nat) (st : pool) :
  ptrace (run env destDir files sched st)
    `prefix_of` ptrace (run env destDir files (sched ++ more) st)
  /\ (forall e, errOnce (run env destDir files sched st) = Some e ->
        errOnce (run env destDir files (sched ++ more) st) = Some e)
  /\ (forall j, pcs (run env destDir files sched st) !! j = Some Finished ->
        pcs (run env destDir files (sched ++ more) st) !! j = Some Finished).
Proof. rewrite run_app. apply run_forward. Qed.

(** ** The calls of one worker *)

Lemma restore_prefix_calls env destDir i f :
  (restore env destDir i f).1 `prefix_of` restore_calls destDir f.
Proof.
  unfold restore, from_Mkdir, from_Open, from_Create, from_Copy, from_Close,
    from_Chtimes, restore_calls.
  destruct (ensureInside _ _); [by eexists|].
  destruct (fails env (Some i) (opMkdir destDir f)); [by eexists|].
  destruct (fails env (Some i) (opOpen f)); [by eexists|].
  destruct (fails env (Some i) (opCreate destDir f)); [by eexists|].
  destruct (fails env (Some i) (opCopy destDir f)); [by eexists|].
  destruct (fails env (Some i) (opClose destDir f)); by eexists.
Qed.

(** X8. In every state the pool reaches, finished or not, the calls a
    file entry has made so far are an initial segment of the calls of its
    restore body, which are themselves an initial segment of the six calls
    [MkdirAll], [Open], [OpenFile], [Copy], [Close], [Chtimes]: a worker
    makes each call at most once and in this order, whatever the other
    workers do in between. *)
Theorem worker_calls_in_body_order (env : Env) (destDir : string)
    (files : list File) (sched : list nat) (i : nat) (f : File) :
  files !! i = Some f -> f_IsDir f = false ->
  wops i (ptrace (run env destDir files sched (spawn files)))
    `prefix_of` (restore env destDir i f).1
  /\ wops i (ptrace (run env destDir files sched (spawn files)))
       `prefix_of` restore_calls destDir f.
Proof.
  intros Hf Hdir.
  destruct (pool_inv_run env destDir files sched) as (_ & Hw & _).
  pose proof (length_pcs_run env destDir files sched) as Hlen.
  destruct (lookup_lt_is_Some_2 (pcs (run env destDir files sched (spawn files))) i)
    as [p Hp].
  { rewrite Hlen. by eapply lookup_lt_Some. }
  specialize (Hw i f p Hf Hp). rewrite Hdir in Hw. destruct Hw as [Hops _].
  assert (wops i (ptrace (run env destDir files sched (spawn files)))
            `prefix_of` (restore env destDir i f).1) as Hpre.
  { rewrite <- Hops. by eexists. }
  split; [done|]. etrans; [done|]. apply restore_prefix_calls.
Qed.

(** The entry [t/a] of [arch1] after three steps of its worker. *)
Lemma worker_calls_in_body_order_witness :
  wops 1 (ptrace (run (SimZip.env_of SimZip.arch1 2 []) "out" SimZip.arch1
                    [1; 2; 1; 1]%nat (spawn SimZip.arch1)))
    `prefix_of` restore_calls "out" (SimZip.fileEntry "t/a" 0x1A4 [Byte.x61]).
Proof.
  refine (proj2 (worker_calls_in_body_order (SimZip.env_of SimZip.arch1 2 []) "out"
    SimZip.arch1 [1; 2; 1; 1]%nat 1 (SimZip.fileEntry "t/a" 0x1A4 [Byte.x61]) _ _));
    reflexivity.
Defined.

(** ** Runs that have returned *)

(** A run that has returned either stopped before the workers, with an
    error and no call of a file entry, or let every worker run its restore
    body to the end. *)
Lemma unzip_file_entry_calls env sched zipPath destDir files tr r :
  OpenReader env zipPath = inl files ->
  UnzipParallelAll env sched zipPath destDir = (tr, Returned r) ->
  (r <> None
   /\ (not_ErrExist (fails env None (OpMkdirAll destDir perm_0o755)) <> None
       \/ (prepass env destDir 0 files [rootCall destDir]).2 <> None)
   /\ forall i f, files !! i = Some f -> f_IsDir f = false -> wops i tr = [])
  \/ ((forall i f, files !! i = Some f -> f_IsDir f = false ->
         wops i tr = (restore env destDir i f).1)
      /\ (forall e, r = Some e ->
            exists i f, files !! i = Some f /\ f_IsDir f = false
                        /\ (restore env destDir i f).2 = Some e)).
Proof.
  intros Hopen Hrun.
  destruct (unzip_shape _ _ _ _ _ _ _ Hopen Hrun)
    as [(e & Hroot & -> & [= ->])|[(_ & tr1 & e & Hp & -> & [= ->])
       |(_ & tr1 & Hp & -> & Hout)]].
  - left. split; [done|]. split; [left; by rewrite Hroot|]. intros i f _ _.
    apply wops_none. intros o Hin. by apply list_elem_of_singleton in Hin.
  - left. split; [done|]. split; [right; by rewrite Hp|]. intros i f Hf Hdir.
    by eapply prepass_no_file_calls.
  - right. destruct (all_finished _) eqn:Hfin; [|done]. injection Hout as ->.
    destruct (finished_pool _ _ _ _ Hfin) as [Hdone Hslot]. split; [|done].
    intros i f Hf Hdir. destruct (Hdone i f Hf Hdir) as [Hops _].
    by rewrite wops_app, (prepass_no_file_calls _ _ _ _ _ _ _ Hp Hf Hdir), Hops.
Qed.

Lemma prepass_no_error env destDir (l : list File) : forall i tr,
  (forall f, f ∈ l -> ensureInside destDir (Join destDir (f_Name f)) = None) ->
  (forall c path perm, fails env c (OpMkdirAll path perm) = None) ->
  (prepass env destDir i l tr).2 = None.
Proof.
  induction l as [|f l IH]; intros i tr Hin Hmk; simpl; [done|].
  destruct (f_IsDir f).
  - rewrite (Hin f) by left. rewrite Hmk. simpl. apply IH; [|done].
    intros g Hg. apply Hin. by right.
  - apply IH; [|done]. intros g Hg. apply Hin. by right.
Qed.

Lemma restore_only_time_fails env destDir i f :
  (forall c o, (forall path t, o <> OpChtimes path t) -> fails env c o = None) ->
  ensureInside destDir (Join destDir (f_Name f)) = None ->
  (restore env destDir i f).2 = None.
Proof.
  intros Hfails Hin. unfold restore, target. rewrite Hin.
  unfold from_Mkdir, from_Open, from_Create, from_Copy, from_Close, from_Chtimes,
    opMkdir, opOpen, opCreate, opCopy, opClose.
  by rewrite !Hfails.
Qed.

(** X9. The result of [os.Chtimes] is dropped: when every entry passes the
    check of [ensureInside] and no call other than the setting of a time
    fails, the unpacking returns no error, however many of the time
    settings fail, and every file entry has had its six calls made, the
    failed time setting included. *)
Theorem time_stamp_failures_are_ignored (env : Env) (sched : list nat)
    (zipPath destDir : string) (files : list File)
    (tr : list (caller * op)) (r : option error) :
  OpenReader env zipPath = inl files ->
  (forall c o, (forall path t, o <> OpChtimes path t) -> fails env c o = None) ->
  (forall f, f ∈ files -> ensureInside destDir (Join destDir (f_Name f)) = None) ->
  UnzipParallelAll env sched zipPath destDir = (tr, Returned r) ->
  r = None
  /\ forall i f, files !! i = Some f -> f_IsDir f = false ->
       wops i tr = restore_calls destDir f.
Proof.
  intros Hopen Hfails Hin Hrun.
  assert (forall i f, files !! i = Some f -> (restore env destDir i f).2 = None) as Hok.
  { intros i f Hf. apply restore_only_time_fails; [done|].
    apply Hin. by eapply list_elem_of_lookup_2. }
  destruct (unzip_file_entry_calls _ _ _ _ _ _ _ Hopen Hrun)
    as [(_ & [Hroot|Hpre] & _)|[Hops Herr]].
  - by rewrite Hfails in Hroot.
  - rewrite prepass_no_error in Hpre; [done|done|]. intros c path perm. by apply Hfails.
  - split.
    + destruct r as [e|]; [|done]. destruct (Herr e eq_refl) as (i & f & Hf & _ & He).
      rewrite (Hok i f Hf) in He. done.
    + intros i f Hf Hdir. rewrite (Hops i f Hf Hdir). apply restore_ok. by eapply Hok.
Qed.

(** [arch1] unpacked while the time of neither file can be set. *)
Lemma time_stamp_failures_are_ignored_witness :
  (None : option error) = None
  /\ wops 1 SimZip.trace_times
     = restore_calls "out" (SimZip.fileEntry "t/a" 0x1A4 [Byte.x61]).
Proof.
  destruct (time_stamp_failures_are_ignored SimZip.env_times (SimZip.round_robin 3 12)
    "a.zip" "out" SimZip.arch1 SimZip.trace_times None) as [_ Hops].
  - reflexivity.
  - intros c o Ho. unfold SimZip.env_times, SimZip.env_of. cbn [fails List.find].
    repeat (case_bool_decide as Heq;
            [exfalso; cbn [fst] in Heq; injection Heq as _ <-; by eapply Ho
            |clear Heq]).
    done.
  - intros f Hf. unfold SimZip.arch1 in Hf.
    repeat (apply elem_of_cons in Hf as [->|Hf]); [vm_compute; reflexivity..|].
    by apply elem_of_nil in Hf.
  - vm_compute. reflexivity.
  - split; [reflexivity|]. apply (Hops 1%nat); reflexivity.
Defined.

(** ** A destination file that was opened is closed *)

Lemma restore_after_create env destDir i f :
  opCreate destDir f ∈ (restore env destDir i f).1 ->
  fails env (Some i) (opCreate destDir f) = None ->
  (restore env destDir i f).1
  = [opMkdir destDir f; opOpen f; opCreate destDir f; opCopy destDir f;
     opClose destDir f]
    ++ match fails env (Some i) (opCopy destDir f),
             fails env (Some i) (opClose destDir f) with
       | None, None => [opChtimes destDir f]
       | _, _ => []
       end.
Proof.
  unfold restore, from_Mkdir, from_Open, from_Create, from_Copy, from_Close,
    from_Chtimes.
  destruct (ensureInside _ _); [by intros ?%elem_of_nil|].
  destruct (fails env (Some i) (opMkdir destDir f)).
  { intros Hin. apply list_elem_of_singleton in Hin. discriminate Hin. }
  destruct (fails env (Some i) (opOpen f)).
  { intros Hin. repeat (apply elem_of_cons in Hin as [Hin|Hin]; [discriminate Hin|]).
    by apply elem_of_nil in Hin. }
  intros _ ->.
  destruct (fails env (Some i) (opCopy destDir f)); [done|].
  destruct (fails env (Some i) (opClose destDir f)); done.
Qed.

(** X10. No destination file is left open: in a run that has returned, a
    file entry whose destination file was opened with success has made
    the calls [MkdirAll], [Open], [OpenFile], [Copy], [Close] in this
    order, so the file has been closed exactly once, also when the copy
    failed; the time is set after that, and only when both the copy and
    the closing succeeded. *)
Theorem opened_file_is_closed (env : Env) (sched : list nat)
    (zipPath destDir : string) (files : list File)
    (tr : list (caller * op)) (r : option error) (i : nat) (f : File) :
  OpenReader env zipPath = inl files ->
  UnzipParallelAll env sched zipPath destDir = (tr, Returned r) ->
  files !! i = Some f -> f_IsDir f = false ->
  opCreate destDir f ∈ wops i tr ->
  fails env (Some i) (opCreate destDir f) = None ->
  wops i tr
  = [opMkdir destDir f; opOpen f; opCreate destDir f; opCopy destDir f;
     opClose destDir f]
    ++ match fails env (Some i) (opCopy destDir f),
             fails env (Some i) (opClose destDir f) with
       | None, None => [opChtimes destDir f]
       | _, _ => []
       end.
Proof.
  intros Hopen Hrun Hf Hdir Hin Hcreate.
  destruct (unzip_file_entry_calls _ _ _ _ _ _ _ Hopen Hrun)
    as [(_ & _ & Hnone)|[Hops _]].
  - rewrite (Hnone i f Hf Hdir) in Hin. by apply elem_of_nil in Hin.
  - rewrite (Hops i f Hf Hdir) in Hin |- *. by apply restore_after_create.
Qed.

(** [arch1] unpacked while the copy into [out/t/a] fails. *)
Lemma opened_file_is_closed_witness :
  wops 1 SimZip.trace_copy
  = [ OpMkdirAll "out/t" 0x1ED; OpOpenEntry "t/a";
      OpOpenFile "out/t/a" 0x241 0x1A4; OpCopy "out/t/a" [Byte.x61];
      OpClose "out/t/a" ].
Proof.
  refine (opened_file_is_closed SimZip.env_copy (SimZip.round_robin 3 12)
    "a.zip" "out" SimZip.arch1 SimZip.trace_copy (Some "write out/t/a: disk full")
    1 (SimZip.fileEntry "t/a" 0x1A4 [Byte.x61]) _ _ _ _ _ _).
  - reflexivity.
  - vm_compute. reflexivity.
  - reflexivity.
  - reflexivity.
  - vm_compute. right. right. left.
  - vm_compute. reflexivity.
Defined.

(** ** The order of the directory creations *)

Lemma prepass_dir_calls env destDir (l : list File) : forall i tr tr' r,
  prepass env destDir i l tr = (tr', r) ->
  exists k : nat, (k <= length l)%nat
    /\ tr' = tr ++ dir_calls destDir i (take k l)
    /\ (r = None -> k = length l).
Proof.
  induction l as [|f l IH]; intros i tr tr' r; simpl.
  { intros [= <- <-]. exists 0%nat. by rewrite app_nil_r. }
  destruct (f_IsDir f) eqn:Hdir.
  - destruct (ensureInside _ _).
    { intros [= <- <-]. exists 0%nat. simpl. rewrite app_nil_r.
      split; [lia|done]. }
    destruct (not_ErrExist _).
    { intros [= <- <-]. exists 1%nat. simpl. rewrite Hdir. simpl.
      split; [lia|done]. }
    intros Hrest. apply IH in Hrest as (k & Hk & -> & Hall).
    exists (S k). simpl. rewrite Hdir. rewrite <- app_assoc.
    split; [lia|]. split; [done|]. intros Hr. by rewrite Hall.
  - intros Hrest. apply IH in Hrest as (k & Hk & -> & Hall).
    exists (S k). simpl. rewrite Hdir. simpl.
    split; [lia|]. split; [done|]. intros Hr. by rewrite Hall.
Qed.

(** X11. The calls of a run come in three parts: the creation of the
    destination root; then the creations of the directory entries, one
    call each, in the order of the archive, up to the first one that is
    refused or fails; then, only when every directory entry has been
    created, the calls of the workers, all of them made for file entries. *)
Theorem directories_first_in_archive_order (env : Env) (sched : list nat)
    (zipPath destDir : string) (files : list File)
    (tr : list (caller * op)) (out : outcome) :
  OpenReader env zipPath = inl files ->
  UnzipParallelAll env sched zipPath destDir = (tr, out) ->
  exists (k : nat) (wcalls : list (caller * op)),
    (k <= length files)%nat
    /\ tr = rootCall destDir :: dir_calls destDir 0 (take k files) ++ wcalls
    /\ (forall c o, (c, o) ∈ wcalls ->
          exists i f, c = Some i /\ files !! i = Some f /\ f_IsDir f = false)
    /\ (wcalls <> [] -> k = length files).
Proof.
  intros Hopen Hrun.
  destruct (unzip_shape _ _ _ _ _ _ _ Hopen Hrun)
    as [(e & _ & -> & _)|[(_ & tr0 & e & Hp & -> & _)|(_ & tr0 & Hp & -> & _)]].
  - exists 0%nat, []. simpl. split; [lia|]. split; [done|].
    split; [by intros c o ?%elem_of_nil|done].
  - apply prepass_dir_calls in Hp as (k & Hk & -> & _).
    exists k, []. rewrite app_nil_r. split; [done|]. split; [done|].
    split; [by intros c o ?%elem_of_nil|done].
  - apply prepass_dir_calls in Hp as (k & Hk & -> & Hall).
    exists k, (ptrace (run env destDir files sched (spawn files))).
    split; [done|]. split; [done|]. split; [|by intros _; apply Hall].
    destruct (pool_inv_run env destDir files sched) as (Hev & _).
    intros c o Hin. exact (Hev c o Hin).
Qed.

(** [arch1] with the destination file of its last entry impossible to
    create: the root, the directory [t/], then the workers. *)
Lemma directories_first_in_archive_order_witness :
  exists (k : nat) (wcalls : list (caller * op)),
    (k <= 3)%nat
    /\ SimZip.trace_denied
       = rootCall "out" :: dir_calls "out" 0 (take k SimZip.arch1) ++ wcalls.
Proof.
  destruct (directories_first_in_archive_order SimZip.env_denied
    (SimZip.round_robin 3 12) "a.zip" "out" SimZip.arch1 SimZip.trace_denied
    (Returned (Some "open out/t/d/b: permission denied")))
    as (k & wcalls & Hk & Htr & _).
  - reflexivity.
  - vm_compute. reflexivity.
  - exists k, wcalls. split; [exact Hk|exact Htr].
Defined.

(** ** Where the errors of the unpacker come from *)

Lemma not_ErrExist_Some (r : option error) (e : error) :
  not_ErrExist r = Some e -> r = Some e.
Proof. destruct r as [e0|]; simpl; [|done]. by destruct (negb _). Qed.

Lemma prepass_error_origin env destDir (l : list File) : forall i tr tr' e,
  prepass env destDir i l tr = (tr', Some e) ->
  (exists c o, (c, o) ∈ tr' /\ fails env c o = Some e)
  \/ (exists f, f ∈ l /\ ensureInside destDir (Join destDir (f_Name f)) = Some e).
Proof.
  induction l as [|f l IH]; intros i tr tr' e; simpl; [done|].
  destruct (f_IsDir f).
  - destruct (ensureInside _ _) as [e0|] eqn:Hin.
    { intros [= _ <-]. right. exists f. split; [left|done]. }
    destruct (not_ErrExist _) as [e0|] eqn:Hmk.
    { intros [= <- <-]. left. apply not_ErrExist_Some in Hmk.
      eexists _, _. split; [|done]. apply elem_of_app. right. left. }
    intros Hrest. apply IH in Hrest as [?|(g & ? & ?)]; [by left|].
    right. exists g. split; [by right|done].
  - intros Hrest. apply IH in Hrest as [?|(g & ? & ?)]; [by left|].
    right. exists g. split; [by right|done].
Qed.

Lemma restore_error_origin env destDir i f e :
  (restore env destDir i f).2 = Some e ->
  ensureInside destDir (Join destDir (f_Name f)) = Some e
  \/ exists o, o ∈ (restore env destDir i f).1 /\ fails env (Some i) o = Some e.
Proof.
  unfold restore, from_Mkdir, from_Open, from_Create, from_Copy, from_Close,
    from_Chtimes, target.
  destruct (ensureInside _ _) as [e0|]; [by left|].
  destruct (fails env (Some i) (opMkdir destDir f)) as [e0|] eqn:H1; simpl.
  { intros [= <-]. right. eexists. split; [|done]. left. }
  destruct (fails env (Some i) (opOpen f)) as [e0|] eqn:H2; simpl.
  { intros [= <-]. right. eexists. split; [|done]. right. left. }
  destruct (fails env (Some i) (opCreate destDir f)) as [e0|] eqn:H3; simpl.
  { intros [= <-]. right. eexists. split; [|done]. do 2 right. left. }
  destruct (fails env (Some i) (opCopy destDir f)) as [e0|] eqn:H4; simpl.
  { intros [= <-]. right. eexists. split; [|done]. do 3 right. left. }
  destruct (fails env (Some i) (opClose destDir f)) as [e0|] eqn:H5; simpl; [|done].
  intros [= <-]. right. eexists. split; [|done]. do 4 right. left.
Qed.

(** X12. The unpacker returns only errors it was given: the error of
    opening the archive, the error of a call that is among the calls made
    and that failed, or the refusal of [ensureInside] for an entry of the
    archive.  So a run in which the archive opens, no call fails and no
    entry is refused returns no error. *)
Theorem unzip_error_comes_from_a_call (env : Env) (sched : list nat)
    (zipPath destDir : string) (tr : list (caller * op)) (e : error) :
  UnzipParallelAll env sched zipPath destDir = (tr, Returned (Some e)) ->
  OpenReader env zipPath = inr e
  \/ (exists c o, (c, o) ∈ tr /\ fails env c o = Some e)
  \/ (exists files f, OpenReader env zipPath = inl files /\ f ∈ files
        /\ ensureInside destDir (Join destDir (f_Name f)) = Some e
        /\ e = "zip slip detected: " +:+ Join destDir (f_Name f)).
Proof.
  intros Hrun. destruct (OpenReader env zipPath) as [files|e0] eqn:Hopen.
  2:{ left. unfold UnzipParallelAll in Hrun. rewrite Hopen in Hrun. congruence. }
  right.
  destruct (unzip_shape _ _ _ _ _ _ _ Hopen Hrun)
    as [(e1 & Hroot & -> & [= ->])|[(_ & tr1 & e1 & Hp & -> & [= ->])
       |(_ & tr1 & Hp & -> & Hout)]].
  - left. apply not_ErrExist_Some in Hroot. eexists _, _. split; [left|done].
  - apply prepass_error_origin in Hp as [?|(f & Hf & Hin)]; [by left|].
    right. exists files, f. split; [done|]. split; [done|]. split; [done|].
    by apply ensureInside_Some in Hin.
  - destruct (all_finished _) eqn:Hfin; [|done]. injection Hout as Hslot.
    destruct (finished_pool _ _ _ _ Hfin) as [Hdone Herr].
    destruct (Herr e (eq_sym Hslot)) as (i & f & Hf & Hdir & Hr).
    apply restore_error_origin in Hr as [Hin|(o & Ho & Hfail)].
    + right. exists files, f. split; [done|].
      split; [by eapply list_elem_of_lookup_2|]. split; [done|].
      by apply ensureInside_Some in Hin.
    + left. exists (Some i), o. split; [|done]. apply elem_of_app. right.
      apply elem_of_wops. destruct (Hdone i f Hf Hdir) as [-> _]. done.
Qed.

(** [arch1] with the destination file of its last entry impossible to
    create. *)
Lemma unzip_error_comes_from_a_call_witness :
  exists c o, (c, o) ∈ SimZip.trace_denied
    /\ fails SimZip.env_denied c o = Some "open out/t/d/b: permission denied".
Proof.
  destruct (unzip_error_comes_from_a_call SimZip.env_denied (SimZip.round_robin 3 12)
    "a.zip" "out" SimZip.trace_denied "open out/t/d/b: permission denied")
    as [Hopen|[Hcall|(files & f & _ & _ & _ & Hslip)]].
  - vm_compute. reflexivity.
  - discriminate Hopen.
  - exact Hcall.
  - exfalso. revert Hslip. generalize (Join "out" (f_Name f)). intros t Hslip.
    discriminate Hslip.
Defined.

(** ** [ensureInside] when the destination is [.] or [/] *)

(** How a cleaned path can begin. *)
Definition firstSep (out : list ascii) : bool :=
  match out with c :: _ => isSep c | [] => false end.
Definition firstDot (out : list ascii) : bool :=
  match out with c :: _ => isDot c | [] => false end.
Definition slashSlash (out : list ascii) : bool :=
  match out with c :: d :: _ => isSep c && isSep d | _ => false end.
Definition dotSlash (out : list ascii) : bool :=
  match out with c :: d :: _ => isDot c && isSep d | _ => false end.
Definition isDotOnly (out : list ascii) : bool :=
  match out with [c] => isDot c | _ => false end.

Lemma clean_loop_cons rooted inElem c rest dotdot out :
  clean_loop rooted inElem (c :: rest) dotdot out
  = if inElem then
      if isSep c then clean_loop rooted false rest dotdot out
      else clean_loop rooted true rest dotdot (out ++ [c])
    else if isSep c then clean_loop rooted false rest dotdot out
    else if isDot c && atElemEnd rest then clean_loop rooted false rest dotdot out
    else
      match rest with
      | d :: rest' =>
          if isDot c && isDot d && atElemEnd rest' then
            if bool_decide (dotdot < length out)%nat then
              clean_loop rooted false rest' dotdot (backtrack out dotdot)
            else if negb rooted then
              clean_loop rooted false rest'
                (length ((if bool_decide (0 < length out)%nat
                          then out ++ [Separator] else out) ++ ["."%char; "."%char]))
                ((if bool_decide (0 < length out)%nat
                  then out ++ [Separator] else out) ++ ["."%char; "."%char])
            else clean_loop rooted false rest' dotdot out
          else
            clean_loop rooted true rest dotdot
              ((if (rooted && negb (bool_decide (length out = 1%nat)))
                   || (negb rooted && negb (bool_decide (length out = 0%nat)))
                then out ++ [Separator] else out) ++ [c])
      | [] =>
          clean_loop rooted true rest dotdot
            ((if (rooted && negb (bool_decide (length out = 1%nat)))
                 || (negb rooted && negb (bool_decide (length out = 0%nat)))
              then out ++ [Separator] else out) ++ [c])
      end.
Proof. destruct rest; reflexivity. Qed.

Lemma backtrack_go_spec (out : list ascii) (dotdot : nat) (w : nat) :
  (backtrack_go out dotdot w <= w)%nat
  /\ ((dotdot <= w)%nat -> (dotdot <= backtrack_go out dotdot w)%nat)
  /\ (backtrack_go out dotdot w = 0%nat
      \/ (backtrack_go out dotdot w <= dotdot)%nat
      \/ isSep (nth (backtrack_go out dotdot w) out Separator) = true).
Proof.
  induction w as [|w IH]; simpl; [split; [lia|split; [lia|by left]]|].
  case_bool_decide as Hlt; simpl.
  - destruct (isSep (nth (S w) out Separator)) eqn:Hsep; simpl.
    + split; [lia|]. split; [lia|]. right. right. done.
    + destruct IH as (H1 & H2 & H3). split; [lia|]. split; [lia|done].
  - split; [lia|]. split; [lia|]. right. left. lia.
Qed.

(** The invariant of the loop of [Clean] on a rooted path. *)
Definition rooted_inv (inElem : bool) (out : list ascii) : Prop :=
  slashSlash out = false /\ firstDot out = false /\ (inElem = true -> out <> []).

Lemma take_heads (k : nat) (out : list ascii) :
  (firstSep out = false -> firstSep (take k out) = false)
  /\ (firstDot out = false -> firstDot (take k out) = false)
  /\ (slashSlash out = false -> slashSlash (take k out) = false)
  /\ (dotSlash out = false -> dotSlash (take k out) = false).
Proof. destruct k as [|[|k]], out as [|x [|y o]]; simpl; done. Qed.

Ltac heads out :=
  destruct out as [|? [|? ?]]; simpl in *;
  repeat match goal with
         | H : ?b = false |- context [?b] => rewrite H
         | H : ?b = true |- context [?b] => rewrite H
         end;
  rewrite ?andb_false_r, ?andb_true_r; simpl; try done.

Lemma clean_loop_rooted (n : nat) : forall rest inElem dotdot out,
  (length rest <= n)%nat -> rooted_inv inElem out ->
  rooted_inv false (clean_loop true inElem rest dotdot out).
Proof.
  induction n as [|n IH]; intros rest inElem dotdot out Hlen (Hss & Hfd & Hne).
  { destruct rest; [|simpl in Hlen; lia]. simpl. done. }
  destruct rest as [|c rest]; [done|]. simpl in Hlen.
  rewrite clean_loop_cons.
  destruct inElem.
  { destruct (isSep c) eqn:Hc.
    - apply IH; [lia|done].
    - apply IH; [lia|]. specialize (Hne eq_refl). split; [|split].
      + heads out.
      + heads out.
      + intros _ Heq. by destruct out. }
  destruct (isSep c) eqn:Hc; [apply IH; [lia|done]|].
  destruct (isDot c && atElemEnd rest) eqn:Hdot; [apply IH; [lia|done]|].
  assert (rooted_inv true
            ((if (true && negb (bool_decide (length out = 1%nat)))
                 || (negb true && negb (bool_decide (length out = 0%nat)))
              then out ++ [Separator] else out) ++ [c])) as Hreal.
  { split; [|split].
    - heads out.
    - heads out.
    - intros _ Heq. by apply app_nil in Heq as [_ ?]. }
  destruct rest as [|d rest]; [apply IH; [simpl; lia|done]|].
  destruct (isDot c && isDot d && atElemEnd rest).
  - simpl in Hlen. destruct (bool_decide (dotdot < length out)%nat).
    + apply IH; [lia|]. unfold backtrack. split; [|split; [|done]].
      * by apply take_heads.
      * by apply take_heads.
    + simpl. apply IH; [lia|done].
  - apply IH; [simpl in *; lia|done].
Qed.

(** The invariant of the loop of [Clean] on a path that is not rooted. *)
Definition unrooted_inv (inElem : bool) (rest : list ascii) (dotdot : nat)
    (out : list ascii) : Prop :=
  firstSep out = false /\ dotSlash out = false
  /\ (isDotOnly out = true -> inElem = true /\ atElemEnd rest = false)
  /\ (inElem = true -> out <> [])
  /\ (dotdot = 0 \/ 2 <= dotdot)%nat.

Lemma backtrack_not_dot (out : list ascii) (dotdot : nat) :
  dotSlash out = false -> (dotdot = 0 \/ 2 <= dotdot)%nat ->
  (dotdot < length out)%nat -> isDotOnly (backtrack out dotdot) = false.
Proof.
  intros Hds Hdd Hlt. unfold backtrack.
  destruct (backtrack_go_spec out dotdot (length out - 1)) as (Hle & Hge & Hstop).
  destruct (backtrack_go out dotdot (length out - 1)) as [|[|k]]; [done| |].
  - destruct out as [|x [|y o]]; simpl in *; [done|lia|].
    destruct Hstop as [?|[?|Hsep]]; [lia|lia|].
    rewrite Hsep, andb_true_r in Hds. done.
  - destruct out as [|x [|y o]]; simpl in *; [done|lia|done].
Qed.

Lemma clean_loop_unrooted (n : nat) : forall rest inElem dotdot out,
  (length rest <= n)%nat -> unrooted_inv inElem rest dotdot out ->
  firstSep (clean_loop false inElem rest dotdot out) = false
  /\ dotSlash (clean_loop false inElem rest dotdot out) = false.
Proof.
  induction n as [|n IH]; intros rest inElem dotdot out Hlen (Hfs & Hds & Hdot1 & Hne & Hdd).
  { destruct rest; [|simpl in Hlen; lia]. simpl. done. }
  destruct rest as [|c rest]; [done|]. simpl in Hlen.
  rewrite clean_loop_cons.
  destruct inElem.
  { specialize (Hne eq_refl). destruct (isSep c) eqn:Hc.
    - apply IH; [lia|]. split; [done|]. split; [done|]. split; [|done].
      intros Hd. destruct (Hdot1 Hd) as [_ Hend]. simpl in Hend. congruence.
    - apply IH; [lia|]. split; [|split; [|split; [|split; [|done]]]].
      + heads out.
      + heads out.
      + heads out.
      + intros _ Heq. by destruct out. }
  assert (isDotOnly out = false) as Hnd.
  { destruct (isDotOnly out); [|done]. by destruct Hdot1. }
  assert (unrooted_inv false rest dotdot out) as Hsame.
  { split; [done|]. split; [done|]. split; [by rewrite Hnd|done]. }
  destruct (isSep c) eqn:Hc; [apply IH; [lia|done]|].
  destruct (isDot c && atElemEnd rest) eqn:Hdot; [apply IH; [lia|done]|].
  assert (unrooted_inv true rest dotdot
            ((if (false && negb (bool_decide (length out = 1%nat)))
                 || (negb false && negb (bool_decide (length out = 0%nat)))
              then out ++ [Separator] else out) ++ [c])) as Hreal.
  { split; [|split; [|split; [|split; [|done]]]].
    - heads out.
    - heads out.
    - destruct out as [|x [|y o]]; simpl; try done.
      intros Hd. rewrite Hd in Hdot. done.
    - intros _ Heq. by apply app_nil in Heq as [_ ?]. }
  destruct rest as [|d rest]; [apply IH; [simpl; lia|done]|].
  destruct (isDot c && isDot d && atElemEnd rest).
  - simpl in Hlen. destruct (bool_decide (dotdot < length out)%nat) eqn:Hlt.
    + apply bool_decide_eq_true in Hlt. apply IH; [lia|]. split; [|split; [|split]].
      * unfold backtrack. by apply take_heads.
      * unfold backtrack. by apply take_heads.
      * by rewrite backtrack_not_dot.
      * done.
    + simpl. apply IH; [lia|]. split; [|split; [|split; [|split]]].
      * heads out.
      * heads out.
      * heads out.
      * done.
      * right. rewrite length_app. simpl. lia.
  - apply IH; [simpl in *; lia|done].
Qed.

Lemma HasPrefix_dotSlash (out : list ascii) : HasPrefix (str out) "./" = dotSlash out.
Proof.
  destruct out as [|x [|y o]]; simpl; [done|by case_bool_decide|].
  unfold isDot, isSep, Separator.
  repeat case_bool_decide; simpl; try done; by destruct (str o).
Qed.

Lemma HasPrefix_slashSlash (out : list ascii) : HasPrefix (str out) "//" = slashSlash out.
Proof.
  destruct out as [|x [|y o]]; simpl; [done|by case_bool_decide|].
  unfold isSep, Separator.
  repeat case_bool_decide; simpl; try done; by destruct (str o).
Qed.

Lemma firstSep_slashSlash (out : list ascii) : firstSep out = false -> slashSlash out = false.
Proof. destruct out as [|x [|y o]]; simpl; try done. by intros ->. Qed.

Lemma firstDot_dotSlash (out : list ascii) : firstDot out = false -> dotSlash out = false.
Proof. destruct out as [|x [|y o]]; simpl; try done. by intros ->. Qed.

(** A cleaned path begins neither with [./] nor with [//]. *)
Lemma Clean_heads (path : string) :
  HasPrefix (Clean path) "./" = false /\ HasPrefix (Clean path) "//" = false.
Proof.
  unfold Clean. destruct (chars path) as [|c l]; [done|].
  cbv zeta. destruct (isSep c) eqn:Hc; cbn [tail].
  - destruct (clean_loop_rooted (length l) l false 1 [Separator]) as (Hss & Hfd & _);
      [done|done|].
    destruct (clean_loop true false l 1 [Separator]) as [|x o] eqn:Hout; [done|].
    rewrite HasPrefix_dotSlash, HasPrefix_slashSlash.
    split; [by apply firstDot_dotSlash|done].
  - destruct (clean_loop_unrooted (length (c :: l)) (c :: l) false 0 []) as (Hfs & Hds).
    { done. }
    { split; [done|]. split; [done|]. split; [done|]. split; [done|by left]. }
    destruct (clean_loop false false (c :: l) 0 []) as [|x o] eqn:Hout; [done|].
    rewrite HasPrefix_dotSlash, HasPrefix_slashSlash.
    split; [done|by apply firstSep_slashSlash].
Qed.

Lemma refused_at_dot_or_root (baseDir candidate : string) :
  Clean baseDir = "." \/ Clean baseDir = "/" ->
  Clean candidate <> Clean baseDir ->
  ensureInside baseDir candidate = Some ("zip slip detected: " +:+ candidate).
Proof.
  intros Hbase Hne. unfold ensureInside.
  rewrite bool_decide_eq_false_2 by done.
  destruct (Clean_heads candidate) as [Hdot Hroot].
  assert (HasPrefix (Clean candidate) (Clean baseDir +:+ PathSeparator) = false) as ->.
  { destruct Hbase as [-> | ->]; done. }
  done.
Qed.

(** X13. When the destination cleans to [.] or to [/], the check accepts
    the destination itself and nothing else: the prefix it looks for is
    [./] or [//], and no cleaned path begins so.  An entry [a.txt] unpacked
    into [.] has the target [a.txt], which is refused. *)
Theorem ensureInside_dot_or_root (baseDir candidate : string) :
  Clean baseDir = "." \/ Clean baseDir = "/" ->
  (ensureInside baseDir candidate = None <-> Clean candidate = Clean baseDir).
Proof.
  intros Hbase. split.
  - intros Hacc. destruct (decide (Clean candidate = Clean baseDir)) as [|Hne]; [done|].
    by rewrite (refused_at_dot_or_root _ _ Hbase Hne) in Hacc.
  - intros Heq. unfold ensureInside. by rewrite bool_decide_eq_true_2.
Qed.

(** The destination [.] and the entry [a.txt]. *)
Lemma ensureInside_dot_or_root_witness :
  ensureInside "." (Join "." "a.txt") <> None.
Proof.
  intros Hacc.
  apply (ensureInside_dot_or_root "." (Join "." "a.txt")) in Hacc.
  - vm_compute in Hacc. discriminate Hacc.
  - left. reflexivity.
Defined.

(** X14. Unpacking into the current directory, or into the root, does not
    work: when the destination cleans to [.] or to [/], an entry whose
    target is not the destination itself has no call made for it, and the
    run, once it returns, returns an error. *)
Theorem unpacking_into_dot_fails (env : Env) (sched : list nat)
    (zipPath destDir : string) (files : list File) (k : nat) (f : File)
    (tr : list (caller * op)) (r : option error) :
  OpenReader env zipPath = inl files ->
  Clean destDir = "." \/ Clean destDir = "/" ->
  files !! k = Some f ->
  Clean (Join destDir (f_Name f)) <> Clean destDir ->
  UnzipParallelAll env sched zipPath destDir = (tr, Returned r) ->
  r <> None /\ wops k tr = [].
Proof.
  intros Hopen Hbase Hf Hne Hrun.
  assert (ensureInside destDir (target destDir f) <> None) as Hrefused.
  { unfold target. by rewrite (refused_at_dot_or_root _ _ Hbase Hne). }
  split.
  - destruct (unzip_shape _ _ _ _ _ _ _ Hopen Hrun)
      as [(e & _ & _ & [= ->])|[(_ & tr1 & e & _ & _ & [= ->])
         |(_ & tr1 & Hp & -> & Hout)]]; [done|done|].
    destruct (all_finished _) eqn:Hfin; [|done]. injection Hout as ->.
    destruct (f_IsDir f) eqn:Hdir.
    { by pose proof (prepass_accepts _ _ _ _ _ _ Hp k f Hf Hdir). }
    destruct (finished_pool _ _ _ _ Hfin) as [Hdone _].
    destruct (Hdone k f Hf Hdir) as [_ Hoffer].
    destruct (restore_refused env destDir k f Hrefused) as [_ Herr].
    destruct (restore env destDir k f).2 as [e|]; [|done].
    destruct (Hoffer e eq_refl) as [e' ->]. done.
  - apply wops_none. intros o Hin.
    destruct (unzip_trace_events _ _ _ _ _ _ _ _ _ Hopen Hrun Hin)
      as [[=]|[(i & g & [= <-] & Hg & _ & Hacc & _)|(i & g & [= <-] & Hg & _ & Hop)]].
    + congruence.
    + apply restore_ops in Hop as [Hacc _]. congruence.
Qed.

(** [arch_slip] unpacked into [.]: the entry [ok.txt] is refused too. *)
Lemma unpacking_into_dot_fails_witness :
  Some "zip slip detected: ok.txt" <> (None : option error)
  /\ wops 0 [(None, OpMkdirAll "." 0x1ED)] = [].
Proof.
  refine (unpacking_into_dot_fails (SimZip.env_of SimZip.arch_slip 1 [])
    (SimZip.round_robin 2 12) "a.zip" "." SimZip.arch_slip 0
    (SimZip.fileEntry "ok.txt" 0x1A4 [Byte.x61])
    [(None, OpMkdirAll "." 0x1ED)] (Some "zip slip detected: ok.txt") _ _ _ _ _).
  - reflexivity.
  - left. reflexivity.
  - reflexivity.
  - vm_compute. discriminate.
  - vm_compute. reflexivity.
Defined.

End UnpackMore.

(* ===================================================================== *)
(** * The default names of the commands [zip] and [unzip]                *)
(* ===================================================================== *)

Module CmdProofs.
Import Cmd.

Definition plain (l : list ascii) : Prop := Forall (fun c => c <> Separator) l.

Lemma isSep_false (c : ascii) : c <> Separator -> isSep c = false.
Proof. intros Hc. unfold isSep. by case_bool_decide. Qed.

Lemma str_chars (s : string) : str (chars s) = s.
Proof. apply string_of_list_ascii_of_string. Qed.

Lemma chars_str (l : list ascii) : chars (str l) = l.
Proof. apply list_ascii_of_string_of_list_ascii. Qed.

Lemma length_chars (s : string) : String.length s = length (chars s).
Proof. induction s as [|c s IH]; simpl; [done|by rewrite IH]. Qed.

Lemma lastElem_is_plain (l : list ascii) : plain (lastElem l).
Proof.
  induction l as [|c l IH]; simpl; [constructor|].
  destruct (isSep c) eqn:Hc; [constructor|]. constructor; [|done].
  intros ->. by vm_compute in Hc.
Qed.

Lemma lastElem_of_plain (l : list ascii) : plain l -> lastElem l = l.
Proof.
  induction 1 as [|c l Hc _ IH]; simpl; [done|]. by rewrite isSep_false, IH.
Qed.

Lemma dropLastElem_of_plain (l : list ascii) : plain l -> dropLastElem l = [].
Proof.
  induction 1 as [|c l Hc _ IH]; simpl; [done|]. by rewrite isSep_false.
Qed.

Lemma dropSeps_of_plain (l : list ascii) : plain l -> dropSeps l = l.
Proof. destruct 1 as [|c l Hc _]; simpl; [done|]. by rewrite isSep_false. Qed.

(** [Base] gives the root or a name with no separator in it. *)
Lemma Base_shape (path : string) :
  Base path = PathSeparator \/ (Base path <> "" /\ plain (chars (Base path))).
Proof.
  unfold Base. case_bool_decide; [right; split; [done|]|].
  { repeat constructor; done. }
  pose proof (lastElem_is_plain (dropSeps (rev (chars path)))) as Hplain.
  apply Forall_rev in Hplain.
  destruct (rev (lastElem (dropSeps (rev (chars path))))) as [|c e]; [by left|].
  right. split; [done|]. by rewrite chars_str.
Qed.

Lemma Base_of_plain (s : string) : s <> "" -> plain (chars s) -> Base s = s.
Proof.
  intros Hne Hplain. unfold Base. rewrite bool_decide_eq_false_2 by done.
  apply Forall_rev in Hplain as Hrev.
  rewrite dropSeps_of_plain, lastElem_of_plain, rev_involutive by done.
  destruct (chars s) as [|c l] eqn:Hs.
  - destruct s; [done|discriminate Hs].
  - by rewrite <- Hs, str_chars.
Qed.

Lemma Dir_of_plain (s : string) : plain (chars s) -> Dir s = ".".
Proof.
  intros Hplain. unfold Dir. apply Forall_rev in Hplain.
  by rewrite dropLastElem_of_plain.
Qed.

Lemma HasPrefix_app (l k : list ascii) : HasPrefix (str (l ++ k)) (str l) = true.
Proof.
  induction l as [|c l IH]; simpl; [by destruct (str k)|].
  by rewrite bool_decide_eq_true_2.
Qed.

Lemma TrimSuffix_app (b suffix : string) : TrimSuffix (b +:+ suffix) suffix = b.
Proof.
  unfold TrimSuffix, HasSuffix.
  rewrite PackProofs.chars_app, rev_app_distr, HasPrefix_app.
  rewrite !length_chars, PackProofs.chars_app, length_app.
  replace (length (chars b) + length (chars suffix) - length (chars suffix))%nat
    with (length (chars b)) by lia.
  by rewrite take_app_length, str_chars.
Qed.

Lemma Ext_zip (b : string) : Ext (b +:+ ".zip") = ".zip".
Proof. unfold Ext. by rewrite PackProofs.chars_app, rev_app_distr. Qed.

Lemma ext_go_no_dot (l acc : list ascii) :
  Forall (fun c => c <> "."%char) l -> ext_go l acc = [].
Proof.
  intros Hl. revert acc. induction Hl as [|c l Hc _ IH]; intros acc; simpl; [done|].
  destruct (isSep c); [done|]. unfold isDot. by rewrite bool_decide_eq_false_2.
Qed.

Lemma Ext_no_dot (s : string) : Forall (fun c => c <> "."%char) (chars s) -> Ext s = "".
Proof. intros Hs. unfold Ext. by rewrite ext_go_no_dot by by apply Forall_rev. Qed.

Lemma plain_zip (b : string) : plain (chars b) -> plain (chars (b +:+ ".zip")).
Proof.
  intros Hb. rewrite PackProofs.chars_app. apply Forall_app. split; [done|].
  repeat constructor; done.
Qed.

Lemma zip_nonempty (b : string) : b +:+ ".zip" <> "".
Proof. by destruct b. Qed.

(** X15. With no flag [-o], the archive is written into the working
    directory, whatever directory the source is in: unless the source is
    the root, the default name is the last element of the source followed
    by [.zip], it has no separator in it, so the directory that
    [ZipParallelAll] creates for it is [.]. *)
Theorem default_archive_in_working_directory (src : string) :
  Base src <> PathSeparator ->
  Dir (defaultOut src) = "."
  /\ Base (defaultOut src) = defaultOut src
  /\ Ext (defaultOut src) = ".zip"
  /\ TrimSuffix (defaultOut src) ".zip" = Base src.
Proof.
  intros Hroot. unfold defaultOut.
  destruct (Base_shape src) as [?|[_ Hplain]]; [done|].
  split; [by apply Dir_of_plain, plain_zip|].
  split; [by apply Base_of_plain; [apply zip_nonempty|apply plain_zip]|].
  split; [apply Ext_zip|apply TrimSuffix_app].
Qed.

(** The folder [/srv/data/photos/]. *)
Lemma default_archive_in_working_directory_witness :
  Dir (defaultOut "/srv/data/photos/") = "."
  /\ Base (defaultOut "/srv/data/photos/") = defaultOut "/srv/data/photos/".
Proof.
  destruct (default_archive_in_working_directory "/srv/data/photos/")
    as (Hdir & Hbase & _).
  - vm_compute. discriminate.
  - split; [exact Hdir|exact Hbase].
Defined.

(** X16. The default names of the two commands do not always undo each
    other: the destination that [unzip] chooses for an archive named by
    [zip] is the last element of the source with one extension removed.
    It is the last element of the source itself when that has no dot; a
    folder [v1.2] is packed into [v1.2.zip] and unpacked into [v1]. *)
Theorem default_names_round_trip (src : string) :
  Base src <> PathSeparator ->
  defaultDest (defaultOut src) = TrimSuffix (Base src) (Ext (Base src))
  /\ (Forall (fun c => c <> "."%char) (chars (Base src)) ->
      defaultDest (defaultOut src) = Base src).
Proof.
  intros Hroot.
  destruct (Base_shape src) as [?|[_ Hplain]]; [done|].
  assert (defaultDest (defaultOut src)
          = if negb (bool_decide (Ext (Base src) = ""))
            then TrimSuffix (Base src) (Ext (Base src)) else Base src) as ->.
  { unfold defaultDest, defaultOut.
    rewrite Base_of_plain by (by apply zip_nonempty || by apply plain_zip).
    rewrite Ext_zip. change (EqualFold ".zip" ".zip") with true. cbv iota.
    by rewrite TrimSuffix_app. }
  split.
  - case_bool_decide as He; simpl; [|done]. rewrite He.
    unfold TrimSuffix, HasSuffix. simpl.
    destruct (str (rev (chars (Base src)))); simpl;
      by rewrite length_chars, Nat.sub_0_r, firstn_all, str_chars.
  - intros Hnodot. by rewrite Ext_no_dot.
Qed.

(** The folder [releases/v1.2]. *)
Lemma default_names_round_trip_witness :
  defaultDest (defaultOut "releases/v1.2") = "v1".
Proof.
  destruct (default_names_round_trip "releases/v1.2") as [Heq _].
  - vm_compute. discriminate.
  - rewrite Heq. vm_compute. reflexivity.
Defined.

End CmdProofs.
